(** * Red-black tree of the driver (tree.c / tree.h): model and properties

    The tree of [tree.c] is a pointer structure: nodes carry [parent],
    [left] and [right] links and are mutated in place by rotations, fix-ups
    and the transplant primitive.  The model keeps that shape: node blocks
    live in a store indexed by address, a link is an optional address
    ([None] is NULL), and every routine is a computation over the machine
    state that may fault (dereference of NULL or of a block that is not
    there) or run out of loop fuel.

    The guarded mutex of [RB_TREE] is not part of the model: every routine
    is run to completion by one caller. *)

From Stdlib Require Import ZArith Lia.
From stdpp Require Import base option list gmap fin_maps fin_map_dom sorting.

Set Default Proof Using "Type".
Local Open Scope Z_scope.

(** ** Data model (tree.h) *)

Definition addr := positive.

(** A C pointer to a node: NULL is [None]. *)
Definition ptr := option addr.

Inductive COLOUR := red | black.

Global Instance COLOUR_eq_dec : EqDecision COLOUR.
Proof. solve_decision. Defined.

(** [c1 == c2] on colours *)
Definition colour_eqb (c1 c2 : COLOUR) : bool :=
  match c1, c2 with
  | red, red => true
  | black, black => true
  | _, _ => false
  end.

(** [#define RB_TREE_EQUAL 0] and its two companions. *)
Definition RB_TREE_EQUAL : Z := 0.
Definition RB_TREE_LESS_THAN : Z := 1.
Definition RB_TREE_GREATER_THAN : Z := 2.

(** NTSTATUS values used by [RtlRbTreeCreate] (ntstatus.h), as signed
    32-bit integers; [NT_SUCCESS] is the macro of the same name. *)
Definition NTSTATUS := Z.
Definition STATUS_SUCCESS : NTSTATUS := 0.
Definition STATUS_UNSUCCESSFUL : NTSTATUS := 0xC0000001 - 2 ^ 32.
Definition STATUS_INVALID_PARAMETER : NTSTATUS := 0xC000000D - 2 ^ 32.
Definition STATUS_INSUFFICIENT_RESOURCES : NTSTATUS := 0xC000009A - 2 ^ 32.
Definition NT_SUCCESS (s : NTSTATUS) : bool := 0 <=? s.

(** [sizeof(RB_TREE_NODE)]: three pointers and the colour, padded (x64). *)
Definition sizeof_RB_TREE_NODE : Z := 32.

(** [InterlockedIncrement] / [InterlockedDecrement] on a [volatile UINT32]. *)
Definition InterlockedIncrement (x : Z) : Z := (x + 1) mod 2 ^ 32.
Definition InterlockedDecrement (x : Z) : Z := (x - 1) mod 2 ^ 32.

Section Model.

(** The key a caller looks up ([PVOID Key]) and the record stored inline in
    a node ([CHAR object[]], [object_size] bytes). *)
Context {K Obj : Type}.

Record RB_TREE_NODE := mkNode {
  parent : ptr;
  left : ptr;
  right : ptr;
  colour : COLOUR;
  object : Obj
}.

(** The comparison callback [RB_COMPARE]: key and stored object in, a
    [UINT32] out. *)
Definition RB_COMPARE := K -> Obj -> Z.

(** Modelled from the spec: the fixed-block pool ([LOOKASIDE_LIST_EX], a
    kernel object whose code is not part of the repository).  It is the list
    of blocks it can still hand out, each with whatever its memory holds;
    [allocate] takes the first one and yields the empty result when there is
    none, [free] puts a block back in front. *)
Definition LOOKASIDE_LIST_EX := list (addr * RB_TREE_NODE).

Record RB_TREE := mkTree {
  root : ptr;
  compare : option RB_COMPARE;
  pool : LOOKASIDE_LIST_EX;
  object_size : Z;
  active : Z;
  node_count : Z;
  insertion_count : Z;
  deletion_count : Z
}.

(** The machine state: the [RB_TREE] structure the routines are handed and
    the node blocks currently allocated from its pool. *)
Record State := mkState {
  tree : RB_TREE;
  mem : gmap addr RB_TREE_NODE
}.

(** ** The monad of the routines: state, and failure for a fault *)

Definition M (A : Type) : Type := State -> option (A * State).

Definition ret {A} (x : A) : M A := fun st => Some (x, st).
Definition fault {A} : M A := fun _ => None.
Definition bind {A B} (m : M A) (f : A -> M B) : M B :=
  fun st => match m st with
            | Some (x, st') => f x st'
            | None => None
            end.

Declare Scope M_scope.
Delimit Scope M_scope with M.
Notation "x <- y ; z" := (bind y (fun x => z))
  (at level 20, y at level 100, z at level 200, only parsing) : M_scope.
Notation "y ;; z" := (bind y (fun _ => z))
  (at level 100, z at level 200, only parsing, right associativity) : M_scope.
Local Open Scope M_scope.

(** [p->f] *)
Definition load {A} (f : RB_TREE_NODE -> A) (p : ptr) : M A :=
  fun st => match p with
            | Some a => match mem st !! a with
                        | Some n => Some (f n, st)
                        | None => None
                        end
            | None => None
            end.

(** [p->f = v], as a change [upd] of the node at [p] *)
Definition store (upd : RB_TREE_NODE -> RB_TREE_NODE) (p : ptr) : M unit :=
  fun st => match p with
            | Some a => match mem st !! a with
                        | Some n => Some (tt, mkState (tree st) (<[a := upd n]> (mem st)))
                        | None => None
                        end
            | None => None
            end.

Definition set_parent (v : ptr) (n : RB_TREE_NODE) : RB_TREE_NODE :=
  mkNode v (left n) (right n) (colour n) (object n).
Definition set_left (v : ptr) (n : RB_TREE_NODE) : RB_TREE_NODE :=
  mkNode (parent n) v (right n) (colour n) (object n).
Definition set_right (v : ptr) (n : RB_TREE_NODE) : RB_TREE_NODE :=
  mkNode (parent n) (left n) v (colour n) (object n).
Definition set_colour (v : COLOUR) (n : RB_TREE_NODE) : RB_TREE_NODE :=
  mkNode (parent n) (left n) (right n) v (object n).
Definition set_object (v : Obj) (n : RB_TREE_NODE) : RB_TREE_NODE :=
  mkNode (parent n) (left n) (right n) (colour n) v.

Definition with_root (v : ptr) (t : RB_TREE) : RB_TREE :=
  mkTree v (compare t) (pool t) (object_size t) (active t)
         (node_count t) (insertion_count t) (deletion_count t).
Definition with_pool (v : LOOKASIDE_LIST_EX) (t : RB_TREE) : RB_TREE :=
  mkTree (root t) (compare t) v (object_size t) (active t)
         (node_count t) (insertion_count t) (deletion_count t).
Definition with_node_count (v : Z) (t : RB_TREE) : RB_TREE :=
  mkTree (root t) (compare t) (pool t) (object_size t) (active t)
         v (insertion_count t) (deletion_count t).
Definition with_insertion_count (v : Z) (t : RB_TREE) : RB_TREE :=
  mkTree (root t) (compare t) (pool t) (object_size t) (active t)
         (node_count t) v (deletion_count t).
Definition with_deletion_count (v : Z) (t : RB_TREE) : RB_TREE :=
  mkTree (root t) (compare t) (pool t) (object_size t) (active t)
         (node_count t) (insertion_count t) v.

(** [Tree->root] and [Tree->root = v] *)
Definition get_root : M ptr := fun st => Some (root (tree st), st).
Definition set_root (v : ptr) : M unit :=
  fun st => Some (tt, mkState (with_root v (tree st)) (mem st)).

(** [Tree->compare(Key, p->object)] *)
Definition call_compare (k : K) (p : ptr) : M Z :=
  fun st => match compare (tree st) with
            | Some cmp => load (fun n => cmp k (object n)) p st
            | None => None
            end.

(** [p && p->colour == red] *)
Definition is_red (p : ptr) : M bool :=
  match p with
  | None => ret false
  | Some _ => c <- load colour p; ret (colour_eqb c red)
  end.

(** [!p || p->colour == black] *)
Definition null_or_black (p : ptr) : M bool :=
  match p with
  | None => ret true
  | Some _ => c <- load colour p; ret (colour_eqb c black)
  end.

(** [if (p) body] *)
Definition when_present (p : ptr) (body : M unit) : M unit :=
  match p with
  | None => ret tt
  | Some _ => body
  end.

(** Fuel for the loops of one call: more than the number of allocated
    blocks, which bounds the length of any path of a tree stored in them. *)
Definition fuel_of (st : State) : nat := S (S (size (mem st))).
Definition get_fuel : M nat := fun st => Some (fuel_of st, st).

(** [a && b] with C's short circuit *)
Definition andM (a b : M bool) : M bool :=
  x <- a; if x then b else ret false.

Definition present (p : ptr) : bool :=
  match p with Some _ => true | None => false end.

(** ** The pool *)

(** [ExAllocateFromLookasideListEx(&Tree->pool)] *)
Definition ExAllocateFromLookasideListEx : M ptr :=
  fun st => match pool (tree st) with
            | [] => Some (None, st)
            | (a, n) :: rest =>
                Some (Some a, mkState (with_pool rest (tree st)) (<[a := n]> (mem st)))
            end.

(** [ExFreeToLookasideListEx(&Tree->pool, p)] *)
Definition ExFreeToLookasideListEx (p : ptr) : M unit :=
  fun st => match p with
            | Some a => match mem st !! a with
                        | Some n =>
                            Some (tt, mkState (with_pool ((a, n) :: pool (tree st)) (tree st))
                                              (delete a (mem st)))
                        | None => None
                        end
            | None => None
            end.

(** ** Counters (tree.c 56-86) *)

Definition RtlpRbTreeIncrementInsertionCount : M unit :=
  fun st => Some (tt, mkState (with_insertion_count
                                 (InterlockedIncrement (insertion_count (tree st))) (tree st))
                              (mem st)).
Definition RtlpRbTreeIncrementDeletionCount : M unit :=
  fun st => Some (tt, mkState (with_deletion_count
                                 (InterlockedIncrement (deletion_count (tree st))) (tree st))
                              (mem st)).
Definition RtlpRbTreeIncrementNodeCount : M unit :=
  fun st => Some (tt, mkState (with_node_count
                                 (InterlockedIncrement (node_count (tree st))) (tree st))
                              (mem st)).
Definition RtlpRbTreeDecrementNodeCount : M unit :=
  fun st => Some (tt, mkState (with_node_count
                                 (InterlockedDecrement (node_count (tree st))) (tree st))
                              (mem st)).

(** [ARGUMENT_PRESENT(p)]: the pointer is not NULL. *)
Definition ARGUMENT_PRESENT {A} (p : option A) : bool :=
  match p with Some _ => true | None => false end.

(** ** RtlRbTreeCreate (tree.c 120-150)

    [Tree] is the caller's structure as it is on entry; the result is the
    status and the structure on return.  [ExInitializeLookasideListEx] is
    the kernel call: given the block size it answers with a status and the
    pool it has set up. *)
Definition RtlRbTreeCreate
    (ExInitializeLookasideListEx : Z -> NTSTATUS * LOOKASIDE_LIST_EX)
    (Compare : option RB_COMPARE) (ObjectSize : Z) (Tree : RB_TREE)
  : NTSTATUS * RB_TREE :=
  if negb (ARGUMENT_PRESENT Compare) || (ObjectSize =? 0)
  then (STATUS_INVALID_PARAMETER, Tree)
  else
    let '(status, p) := ExInitializeLookasideListEx (ObjectSize + sizeof_RB_TREE_NODE) in
    if negb (NT_SUCCESS status) then (status, with_pool p Tree)
    else
      (STATUS_SUCCESS,
       mkTree (root Tree) Compare p (object_size Tree) (active Tree) 0 0 0).

(** ** Rotations (tree.c 165-224) *)

Definition RtlpRbTreeRotateLeft (Node : ptr) : M unit :=
  right_child <- load right Node;
  rl <- load left right_child;
  store (set_right rl) Node;;
  rl <- load left right_child;
  when_present rl (store (set_parent Node) rl);;
  np <- load parent Node;
  store (set_parent np) right_child;;
  np <- load parent Node;
  match np with
  | None => set_root right_child
  | Some _ =>
      npl <- load left np;
      if bool_decide (Node = npl) then store (set_left right_child) np
      else store (set_right right_child) np
  end;;
  store (set_left Node) right_child;;
  store (set_parent right_child) Node.

Definition RtlpRbTreeRotateRight (Node : ptr) : M unit :=
  left_child <- load left Node;
  lr <- load right left_child;
  store (set_left lr) Node;;
  lr <- load right left_child;
  when_present lr (store (set_parent Node) lr);;
  np <- load parent Node;
  store (set_parent np) left_child;;
  np <- load parent Node;
  match np with
  | None => set_root left_child
  | Some _ =>
      npr <- load right np;
      if bool_decide (Node = npr) then store (set_right left_child) np
      else store (set_left left_child) np
  end;;
  store (set_right Node) left_child;;
  store (set_parent left_child) Node.

(** ** Insertion fix-up (tree.c 240-296)

    The [while] loop, one iteration per unit of fuel; it yields the value of
    [Node] on exit.  The local [parent] of the source is [parent_] here. *)
Fixpoint RtlpRbTreeFixupInsert_loop (fuel : nat) (Node : ptr) : M ptr :=
  match fuel with
  | O => fault
  | S fuel =>
      parent_ <- load parent Node;
      c <- is_red parent_;
      if negb c then ret Node
      else
        grandparent <- load parent parent_;
        gl <- load left grandparent;
        if bool_decide (parent_ = gl) then
          uncle <- load right grandparent;
          ur <- is_red uncle;
          if ur then
            store (set_colour black) parent_;;
            store (set_colour black) uncle;;
            store (set_colour red) grandparent;;
            RtlpRbTreeFixupInsert_loop fuel grandparent
          else
            pr <- load right parent_;
            np <- (if bool_decide (Node = pr)
                   then RtlpRbTreeRotateLeft parent_;;
                        p2 <- load parent parent_;
                        ret (parent_, p2)
                   else ret (Node, parent_));
            store (set_colour black) (snd np);;
            store (set_colour red) grandparent;;
            RtlpRbTreeRotateRight grandparent;;
            RtlpRbTreeFixupInsert_loop fuel (fst np)
        else
          uncle <- load left grandparent;
          ur <- is_red uncle;
          if ur then
            store (set_colour black) parent_;;
            store (set_colour black) uncle;;
            store (set_colour red) grandparent;;
            RtlpRbTreeFixupInsert_loop fuel grandparent
          else
            pl <- load left parent_;
            np <- (if bool_decide (Node = pl)
                   then RtlpRbTreeRotateRight parent_;;
                        p2 <- load parent parent_;
                        ret (parent_, p2)
                   else ret (Node, parent_));
            store (set_colour black) (snd np);;
            store (set_colour red) grandparent;;
            RtlpRbTreeRotateLeft grandparent;;
            RtlpRbTreeFixupInsert_loop fuel (fst np)
  end.

Definition RtlpRbTreeFixupInsert (Node : ptr) : M unit :=
  fuel <- get_fuel;
  RtlpRbTreeFixupInsert_loop fuel Node;;
  r <- get_root;
  store (set_colour black) r.

(** ** RtlRbTreeInsertNode (tree.c 325-378)

    The descent loop.  It ends either by falling out with the last node
    visited and the last comparison ([inr]), or by the early return on an
    equal key, which gives the block back first ([inl]).  The value returned
    to the caller, a pointer to the [object] member, is the pointer to the
    node that holds it. *)
Fixpoint RtlRbTreeInsertNode_loop (fuel : nat) (Key : K) (node : ptr)
    (parent_ : ptr) (result : Z) (current : ptr) : M (ptr + ptr * Z) :=
  match fuel with
  | O => fault
  | S fuel =>
      match current with
      | None => ret (inr (parent_, result))
      | Some _ =>
          result <- call_compare Key current;
          if result =? RB_TREE_LESS_THAN then
            l <- load left current;
            RtlRbTreeInsertNode_loop fuel Key node current result l
          else if result =? RB_TREE_GREATER_THAN then
            r <- load right current;
            RtlRbTreeInsertNode_loop fuel Key node current result r
          else
            ExFreeToLookasideListEx node;;
            ret (inl current)
      end
  end.

Definition RtlRbTreeInsertNode (Key : K) : M ptr :=
  node <- ExAllocateFromLookasideListEx;
  match node with
  | None => ret None
  | Some _ =>
      store (set_parent None) node;;
      store (set_left None) node;;
      store (set_right None) node;;
      store (set_colour red) node;;
      current <- get_root;
      fuel <- get_fuel;
      r <- RtlRbTreeInsertNode_loop fuel Key node None 0 current;
      match r with
      | inl found => ret found
      | inr (parent_, result) =>
          store (set_parent parent_) node;;
          match parent_ with
          | None => set_root node
          | Some _ =>
              if result =? RB_TREE_LESS_THAN then store (set_left node) parent_
              else store (set_right node) parent_
          end;;
          RtlpRbTreeFixupInsert node;;
          RtlpRbTreeIncrementInsertionCount;;
          RtlpRbTreeIncrementNodeCount;;
          ret node
      end
  end.

(** ** RtlpRbTreeMinimum (tree.c 401-409) *)
Fixpoint RtlpRbTreeMinimum_loop (fuel : nat) (Node : ptr) : M ptr :=
  match fuel with
  | O => fault
  | S fuel =>
      l <- load left Node;
      match l with
      | None => ret Node
      | Some _ => RtlpRbTreeMinimum_loop fuel l
      end
  end.

Definition RtlpRbTreeMinimum (Node : ptr) : M ptr :=
  fuel <- get_fuel;
  RtlpRbTreeMinimum_loop fuel Node.

(** ** Deletion fix-up (tree.c 429-518) *)
Fixpoint RtlpRbTreeFixupDelete_loop (fuel : nat) (Node : ptr) : M ptr :=
  match fuel with
  | O => fault
  | S fuel =>
      r <- get_root;
      c <- (if bool_decide (Node = r) then ret false
            else col <- load colour Node; ret (colour_eqb col black));
      if negb c then ret Node
      else
        np <- load parent Node;
        npl <- load left np;
        if bool_decide (Node = npl) then
          np <- load parent Node;
          sibling <- load right np;
          sr <- is_red sibling;
          sibling <- (if sr then
                        store (set_colour black) sibling;;
                        np <- load parent Node;
                        store (set_colour red) np;;
                        np <- load parent Node;
                        RtlpRbTreeRotateLeft np;;
                        np <- load parent Node;
                        load right np
                      else ret sibling);
          c2 <- andM (ret (present sibling))
                  (andM (sl <- load left sibling; null_or_black sl)
                        (sr <- load right sibling; null_or_black sr));
          if c2 then
            store (set_colour red) sibling;;
            np <- load parent Node;
            RtlpRbTreeFixupDelete_loop fuel np
          else
            c3 <- andM (ret (present sibling))
                    (sr <- load right sibling; null_or_black sr);
            sibling <- (if c3 then
                          sl <- load left sibling;
                          when_present sl (store (set_colour black) sl);;
                          store (set_colour red) sibling;;
                          RtlpRbTreeRotateRight sibling;;
                          np <- load parent Node;
                          load right np
                        else ret sibling);
            when_present sibling
              (np <- load parent Node;
               pc <- load colour np;
               store (set_colour pc) sibling;;
               np <- load parent Node;
               store (set_colour black) np;;
               sr <- load right sibling;
               when_present sr (store (set_colour black) sr);;
               np <- load parent Node;
               RtlpRbTreeRotateLeft np);;
            r <- get_root;
            RtlpRbTreeFixupDelete_loop fuel r
        else
          np <- load parent Node;
          sibling <- load left np;
          sr <- is_red sibling;
          sibling <- (if sr then
                        store (set_colour black) sibling;;
                        np <- load parent Node;
                        store (set_colour red) np;;
                        np <- load parent Node;
                        RtlpRbTreeRotateRight np;;
                        np <- load parent Node;
                        load left np
                      else ret sibling);
          c2 <- andM (ret (present sibling))
                  (andM (sr <- load right sibling; null_or_black sr)
                        (sl <- load left sibling; null_or_black sl));
          if c2 then
            store (set_colour red) sibling;;
            np <- load parent Node;
            RtlpRbTreeFixupDelete_loop fuel np
          else
            c3 <- andM (ret (present sibling))
                    (sl <- load left sibling; null_or_black sl);
            sibling <- (if c3 then
                          sr <- load right sibling;
                          when_present sr (store (set_colour black) sr);;
                          store (set_colour red) sibling;;
                          RtlpRbTreeRotateLeft sibling;;
                          np <- load parent Node;
                          load left np
                        else ret sibling);
            when_present sibling
              (np <- load parent Node;
               pc <- load colour np;
               store (set_colour pc) sibling;;
               np <- load parent Node;
               store (set_colour black) np;;
               sl <- load left sibling;
               when_present sl (store (set_colour black) sl);;
               np <- load parent Node;
               RtlpRbTreeRotateRight np);;
            r <- get_root;
            RtlpRbTreeFixupDelete_loop fuel r
  end.

Definition RtlpRbTreeFixupDelete (Node : ptr) : M unit :=
  fuel <- get_fuel;
  n <- RtlpRbTreeFixupDelete_loop fuel Node;
  store (set_colour black) n.

(** ** RtlpRbTreeTransplant (tree.c 539-555) *)
Definition RtlpRbTreeTransplant (Target Replacement : ptr) : M unit :=
  tp <- load parent Target;
  match tp with
  | None => set_root Replacement
  | Some _ =>
      tpl <- load left tp;
      if bool_decide (Target = tpl) then store (set_left Replacement) tp
      else store (set_right Replacement) tp
  end;;
  when_present Replacement
    (tp <- load parent Target; store (set_parent tp) Replacement).

(** ** RtlpRbTreeFindNode (tree.c 557-576) *)
Fixpoint RtlpRbTreeFindNode_loop (fuel : nat) (Key : K) (current : ptr) : M ptr :=
  match fuel with
  | O => fault
  | S fuel =>
      match current with
      | None => ret None
      | Some _ =>
          result <- call_compare Key current;
          if result =? RB_TREE_EQUAL then ret current
          else if result =? RB_TREE_LESS_THAN then
            l <- load left current;
            RtlpRbTreeFindNode_loop fuel Key l
          else
            r <- load right current;
            RtlpRbTreeFindNode_loop fuel Key r
      end
  end.

Definition RtlpRbTreeFindNode (Key : K) : M ptr :=
  current <- get_root;
  fuel <- get_fuel;
  RtlpRbTreeFindNode_loop fuel Key current.

(** ** RtlRbTreeDeleteNode (tree.c 598-650)

    Lines 612-641, which take [target] out of the tree: the result is the
    colour recorded in [colour] and the node left in [child]. *)
Definition RtlRbTreeDeleteNode_unlink (target : ptr) : M (COLOUR * ptr) :=
  colour_ <- load colour target;
  tl <- load left target;
  match tl with
  | None =>
      child <- load right target;
      tr <- load right target;
      RtlpRbTreeTransplant target tr;;
      ret (colour_, child)
  | Some _ =>
      tr <- load right target;
      match tr with
      | None =>
          child <- load left target;
          tl <- load left target;
          RtlpRbTreeTransplant target tl;;
          ret (colour_, child)
      | Some _ =>
          tr <- load right target;
          successor <- RtlpRbTreeMinimum tr;
          colour_ <- load colour successor;
          child <- load right successor;
          sp <- load parent successor;
          (if bool_decide (sp = target) then
             when_present child (store (set_parent successor) child)
           else
             sr <- load right successor;
             RtlpRbTreeTransplant successor sr;;
             tr <- load right target;
             store (set_right tr) successor;;
             sr <- load right successor;
             store (set_parent successor) sr);;
          RtlpRbTreeTransplant target successor;;
          tl <- load left target;
          store (set_left tl) successor;;
          sl <- load left successor;
          store (set_parent successor) sl;;
          tc <- load colour target;
          store (set_colour tc) successor;;
          ret (colour_, child)
      end
  end.

Definition RtlRbTreeDeleteNode (Key : K) : M unit :=
  target <- RtlpRbTreeFindNode Key;
  match target with
  | None => ret tt
  | Some _ =>
      cc <- RtlRbTreeDeleteNode_unlink target;
      (if colour_eqb (fst cc) black && present (snd cc)
       then RtlpRbTreeFixupDelete (snd cc)
       else ret tt);;
      ExFreeToLookasideListEx target;;
      RtlpRbTreeIncrementDeletionCount;;
      RtlpRbTreeDecrementNodeCount
  end.

(** ** RtlRbTreeFindNodeObject (tree.c 655-673)

    As for insertion, the pointer to the [object] member is returned as the
    pointer to its node. *)
Fixpoint RtlRbTreeFindNodeObject_loop (fuel : nat) (Key : K) (current : ptr) : M ptr :=
  match fuel with
  | O => fault
  | S fuel =>
      match current with
      | None => ret None
      | Some _ =>
          result <- call_compare Key current;
          if result =? RB_TREE_EQUAL then ret current
          else if result =? RB_TREE_LESS_THAN then
            l <- load left current;
            RtlRbTreeFindNodeObject_loop fuel Key l
          else
            r <- load right current;
            RtlRbTreeFindNodeObject_loop fuel Key r
      end
  end.

Definition RtlRbTreeFindNodeObject (Key : K) : M ptr :=
  current <- get_root;
  fuel <- get_fuel;
  RtlRbTreeFindNodeObject_loop fuel Key current.

(** ** Enumeration (tree.c 675-700)

    The callback receives the object and the caller's context; what it does
    to the context is a function [Callback : Obj -> C -> C] and the routine
    yields the context after the last call.  The recursion of
    [RtlpRbTreeEnumerate] is bounded by the fuel. *)
Fixpoint RtlpRbTreeEnumerate {C} (fuel : nat) (Node : ptr)
    (Callback : Obj -> C -> C) (Context : C) : M C :=
  match fuel with
  | O => fault
  | S fuel =>
      match Node with
      | None => ret Context
      | Some _ =>
          l <- load left Node;
          c1 <- RtlpRbTreeEnumerate fuel l Callback Context;
          o <- load object Node;
          r <- load right Node;
          RtlpRbTreeEnumerate fuel r Callback (Callback o c1)
      end
  end.

Definition RtlRbTreeEnumerate {C} (Callback : Obj -> C -> C) (Context : C) : M C :=
  r <- get_root;
  match r with
  | None => ret Context
  | Some _ =>
      fuel <- get_fuel;
      RtlpRbTreeEnumerate fuel r Callback Context
  end.

(** ** The caller's side of an insertion

    [RtlRbTreeInsertNode] never writes the [object] member: it hands back
    the payload region and the collaborator that owns the tree stores its
    record there.  A record stored under a key compares equal to it. *)
Inductive Op :=
  | OpInsert (Key : K) (record : Obj)
  | OpDelete (Key : K).

Definition run_op (op : Op) : M unit :=
  match op with
  | OpInsert Key record =>
      entry <- RtlRbTreeInsertNode Key;
      when_present entry (store (set_object record) entry)
  | OpDelete Key => RtlRbTreeDeleteNode Key
  end.

Fixpoint run_ops (ops : list Op) : M unit :=
  match ops with
  | [] => ret tt
  | op :: rest => run_op op;; run_ops rest
  end.

End Model.

(** Concrete instance used for evaluation: keys and records are integers,
    the record is its own key. *)
Definition Zcompare : @RB_COMPARE Z Z :=
  fun k o => if k <? o then RB_TREE_LESS_THAN
             else if o <? k then RB_TREE_GREATER_THAN
             else RB_TREE_EQUAL.

Definition blank : @RB_TREE_NODE Z := mkNode None None None red 0.

Definition Zinit (blocks : list addr) : @State Z Z :=
  mkState (mkTree None (Some Zcompare) (map (fun a => (a, blank)) blocks) 8 1 0 0 0) ∅.


(** ** The tree a state holds

    [rbt] is the shape of a tree with, at every node, its colour, the
    address of its block and the record stored in it.  A context [ctx] is a
    path from a hole up to the root: each frame is the node above, with the
    sibling subtree on the other side. *)
Section Shape.
Context {Obj : Type}.

Inductive rbt :=
  | Lf
  | Nd (c : COLOUR) (l : rbt) (a : addr) (o : Obj) (r : rbt).

Inductive frame :=
  | LF (c : COLOUR) (a : addr) (o : Obj) (r : rbt)
  | RF (c : COLOUR) (l : rbt) (a : addr) (o : Obj).

Definition ctx := list frame.

Fixpoint plug (t : rbt) (k : ctx) : rbt :=
  match k with
  | [] => t
  | LF c a o r :: k' => plug (Nd c t a o r) k'
  | RF c l a o :: k' => plug (Nd c l a o t) k'
  end.

Definition ptr_of (t : rbt) : ptr :=
  match t with Lf => None | Nd _ _ a _ _ => Some a end.

Definition rootc (t : rbt) : COLOUR :=
  match t with Lf => black | Nd c _ _ _ _ => c end.

Definition faddr (f : frame) : addr :=
  match f with LF _ a _ _ => a | RF _ _ a _ => a end.

Definition fcol (f : frame) : COLOUR :=
  match f with LF c _ _ _ => c | RF c _ _ _ => c end.

(** The parent of the hole, and the root of the whole tree given what sits
    in the hole. *)
Definition hp (k : ctx) : ptr :=
  match k with [] => None | f :: _ => Some (faddr f) end.

Fixpoint croot (k : ctx) (h : ptr) : ptr :=
  match k with
  | [] => h
  | f :: k' => croot k' (Some (faddr f))
  end.

(** Nodes in order (left subtree, node, right subtree). *)
Fixpoint inorder (t : rbt) : list (addr * Obj) :=
  match t with
  | Lf => []
  | Nd _ l a o r => inorder l ++ (a, o) :: inorder r
  end.

Fixpoint addrs (t : rbt) : list addr :=
  match t with
  | Lf => []
  | Nd _ l a _ r => addrs l ++ a :: addrs r
  end.

Definition objects (t : rbt) : list Obj := map snd (inorder t).

Fixpoint cleft (k : ctx) : list (addr * Obj) :=
  match k with
  | [] => []
  | LF _ _ _ _ :: k' => cleft k'
  | RF _ l a o :: k' => cleft k' ++ inorder l ++ [(a, o)]
  end.

Fixpoint cright (k : ctx) : list (addr * Obj) :=
  match k with
  | [] => []
  | LF _ a o r :: k' => (a, o) :: inorder r ++ cright k'
  | RF _ _ _ _ :: k' => cright k'
  end.

Fixpoint caddrs (k : ctx) : list addr :=
  match k with
  | [] => []
  | LF _ a _ r :: k' => a :: addrs r ++ caddrs k'
  | RF _ l a _ :: k' => a :: addrs l ++ caddrs k'
  end.

(** [rep m par t]: the blocks of [m] at the addresses of [t] are linked as
    [t] says, the root of [t] having parent [par]. *)
Fixpoint rep (m : gmap addr (@RB_TREE_NODE Obj)) (par : ptr) (t : rbt) : Prop :=
  match t with
  | Lf => True
  | Nd c l a o r =>
      m !! a = Some (mkNode par (ptr_of l) (ptr_of r) c o)
      /\ rep m (Some a) l /\ rep m (Some a) r
  end.

(** [repc m k h]: the blocks of [m] on the path [k] are linked as [k] says,
    the hole holding the pointer [h]. *)
Fixpoint repc (m : gmap addr (@RB_TREE_NODE Obj)) (k : ctx) (h : ptr) : Prop :=
  match k with
  | [] => True
  | LF c a o r :: k' =>
      m !! a = Some (mkNode (hp k') h (ptr_of r) c o)
      /\ rep m (Some a) r /\ repc m k' (Some a)
  | RF c l a o :: k' =>
      m !! a = Some (mkNode (hp k') (ptr_of l) h c o)
      /\ rep m (Some a) l /\ repc m k' (Some a)
  end.

(** *** Red-black invariants on shapes *)

(** No red node has a red child. *)
Fixpoint no_red_red (t : rbt) : Prop :=
  match t with
  | Lf => True
  | Nd c l _ _ r =>
      (c = red -> rootc l = black /\ rootc r = black)
      /\ no_red_red l /\ no_red_red r
  end.

(** [bheight t] is the number of black nodes on every path from the root
    of [t] down to a null link when that number is the same for all of
    them, at this node and at every node below; otherwise it is [None]. *)
Fixpoint bheight (t : rbt) : option nat :=
  match t with
  | Lf => Some 0%nat
  | Nd c l _ _ r =>
      match bheight l, bheight r with
      | Some x, Some y =>
          if decide (x = y)
          then Some (match c with black => S x | red => x end)
          else None
      | _, _ => None
      end
  end.

Definition root_black (t : rbt) : Prop := rootc t = black.

Definition red_black (t : rbt) : Prop :=
  root_black t /\ no_red_red t /\ is_Some (bheight t).

Definition blacken (t : rbt) : rbt :=
  match t with Lf => Lf | Nd _ l a o r => Nd black l a o r end.

(** *** What the loop of the insertion fix-up computes

    [ins_fix k t] is the whole tree when the loop of
    [RtlpRbTreeFixupInsert] exits, started with [Node] the root of [t] in
    the context [k].  A red parent without a grandparent never arises under
    a black root (the source would dereference NULL there). *)
Fixpoint ins_fix (k : ctx) (t : rbt) {struct k} : rbt :=
  match k with
  | [] => t
  | LF black _ _ _ :: _ => plug t k
  | RF black _ _ _ :: _ => plug t k
  | LF red p po s :: LF gc g go u :: k' =>
      match u with
      | Nd red ul ua uo ur =>
          ins_fix k' (Nd red (Nd black t p po s) g go (Nd black ul ua uo ur))
      | _ => plug (Nd black t p po (Nd red s g go u)) k'
      end
  | RF red s p po :: LF gc g go u :: k' =>
      match u with
      | Nd red ul ua uo ur =>
          ins_fix k' (Nd red (Nd black s p po t) g go (Nd black ul ua uo ur))
      | _ =>
          match t with
          | Nd c l a o r => plug (Nd black (Nd red s p po l) a o (Nd red r g go u)) k'
          | Lf => plug t k
          end
      end
  | RF red s p po :: RF gc u g go :: k' =>
      match u with
      | Nd red ul ua uo ur =>
          ins_fix k' (Nd red (Nd black ul ua uo ur) g go (Nd black s p po t))
      | _ => plug (Nd black (Nd red u g go s) p po t) k'
      end
  | LF red p po s :: RF gc u g go :: k' =>
      match u with
      | Nd red ul ua uo ur =>
          ins_fix k' (Nd red (Nd black ul ua uo ur) g go (Nd black t p po s))
      | _ =>
          match t with
          | Nd c l a o r => plug (Nd black (Nd red u g go l) a o (Nd red r p po s)) k'
          | Lf => plug t k
          end
      end
  | [LF red _ _ _] => plug t k
  | [RF red _ _ _] => plug t k
  end.

(** The walk of [RtlpRbTreeMinimum]: the leftmost node of [t], as the
    subtree under it and the path from it up through [k]. *)
Fixpoint min_path (t : rbt) (k : ctx) : ctx * rbt :=
  match t with
  | Lf => (k, Lf)
  | Nd c l a o r =>
      match l with
      | Lf => (k, t)
      | Nd _ _ _ _ _ => min_path l (LF c a o r :: k)
      end
  end.

(** What lines 612-641 of [RtlRbTreeDeleteNode] do to the shape when the
    target is the root of [Nd c l a o r] under [k]: the colour recorded, the
    subtree left in [child] and the path from it to the root.  The tree
    after those lines is that subtree plugged in that path. *)
Definition unlink_shape (c : COLOUR) (l : rbt) (a : addr) (o : Obj) (r : rbt)
    (k : ctx) : COLOUR * rbt * ctx :=
  match l, r with
  | Lf, _ => (c, r, k)
  | _, Lf => (c, l, k)
  | _, _ =>
      match min_path r [] with
      | (k2, Nd sc _ s so sr) => (sc, sr, k2 ++ RF c l s so :: k)
      | (_, Lf) => (c, Lf, k)
      end
  end.

(** The invariants read on a context: [pcol k] is the colour of the parent
    of the hole, [cnrr k] says that no red node of the path or of a sibling
    subtree has a red child (the hole aside), and [cbh k h] is the black
    height of the whole tree when the hole is filled with a tree of black
    height [h], if it is uniform. *)
Definition pcol (k : ctx) : COLOUR :=
  match k with [] => black | f :: _ => fcol f end.

Definition bump (c : COLOUR) (h : nat) : nat :=
  match c with black => S h | red => h end.

Fixpoint cnrr (k : ctx) : Prop :=
  match k with
  | [] => True
  | LF c _ _ r :: k' =>
      no_red_red r /\ (c = red -> rootc r = black /\ pcol k' = black) /\ cnrr k'
  | RF c l _ _ :: k' =>
      no_red_red l /\ (c = red -> rootc l = black /\ pcol k' = black) /\ cnrr k'
  end.

Fixpoint cbh (k : ctx) (h : nat) : option nat :=
  match k with
  | [] => Some h
  | LF c _ _ r :: k' =>
      if decide (bheight r = Some h) then cbh k' (bump c h) else None
  | RF c l _ _ :: k' =>
      if decide (bheight l = Some h) then cbh k' (bump c h) else None
  end.

(** The colour of the node at the top of the tree a context leads to. *)
Definition top_black (k : ctx) : Prop :=
  match last k with Some f => fcol f = black | None => True end.

End Shape.
Arguments rbt : clear implicits.
Arguments frame : clear implicits.
Arguments ctx : clear implicits.

Section Abstraction.
Context {K Obj : Type}.

(** The descent of [RtlRbTreeInsertNode] on a shape: the node holding an
    equal key, or the path to the null link where the descent falls out. *)
Fixpoint descend (cmp : @RB_COMPARE K Obj) (key : K) (t : rbt Obj) (k : ctx Obj)
  : addr + ctx Obj :=
  match t with
  | Lf => inr k
  | Nd c l a o r =>
      if cmp key o =? RB_TREE_LESS_THAN then descend cmp key l (LF c a o r :: k)
      else if cmp key o =? RB_TREE_GREATER_THAN then descend cmp key r (RF c l a o :: k)
      else inl a
  end.

(** The descent of [RtlpRbTreeFindNode] and [RtlRbTreeFindNodeObject]: the
    path to the node found and the subtree under it. *)
Fixpoint find_path (cmp : @RB_COMPARE K Obj) (key : K) (t : rbt Obj) (k : ctx Obj)
  : option (ctx Obj * rbt Obj) :=
  match t with
  | Lf => None
  | Nd c l a o r =>
      if cmp key o =? RB_TREE_EQUAL then Some (k, t)
      else if cmp key o =? RB_TREE_LESS_THAN then find_path cmp key l (LF c a o r :: k)
      else find_path cmp key r (RF c l a o :: k)
  end.

(** The block of a new node once [RtlRbTreeInsertNode] has set its links
    and colour: the payload is whatever the block held. *)
Definition fresh_node (blk : @RB_TREE_NODE Obj) : @RB_TREE_NODE Obj :=
  mkNode None None None red (object blk).

(** [holds st t]: the tree [t] is stored in the state: [Tree->root] points
    at its root, the links, colours and records of its blocks are those of
    [t], and no address occurs twice. *)
Definition holds (st : @State K Obj) (t : rbt Obj) : Prop :=
  root (tree st) = ptr_of t
  /\ NoDup (addrs t)
  /\ rep (mem st) None t.

(** [tree_of st t]: the state holds [t] and no other block is allocated. *)
Definition tree_of (st : @State K Obj) (t : rbt Obj) : Prop :=
  holds st t /\ dom (mem st) = list_to_set (addrs t).

(** The blocks of the pool are distinct and none of them is in use. *)
Definition pool_ok (st : @State K Obj) : Prop :=
  NoDup (map fst (pool (tree st)))
  /\ Forall (fun b => mem st !! fst b = None) (pool (tree st)).

(** What a rotation or a recolouring leaves alone: every field of
    [RB_TREE] but [root], and the set of allocated blocks. *)
Definition same_frame (st st' : @State K Obj) : Prop :=
  compare (tree st') = compare (tree st)
  /\ pool (tree st') = pool (tree st)
  /\ object_size (tree st') = object_size (tree st)
  /\ active (tree st') = active (tree st)
  /\ node_count (tree st') = node_count (tree st)
  /\ insertion_count (tree st') = insertion_count (tree st)
  /\ deletion_count (tree st') = deletion_count (tree st)
  /\ dom (mem st') = dom (mem st).

End Abstraction.

(** * Definitions used by the proofs and the statements *)

(** The addresses of a list are pairwise distinct; the name marks the
    hypothesis the tactics below search. *)
Definition distinct (l : list addr) : Prop := NoDup l.

Section Insert_defs.
Context {Obj : Type}.

(** The last comparison of the descent tells on which side of the last node
    visited the new node goes. *)
Definition dir_ok (k : ctx Obj) (res : Z) : Prop :=
  match k with
  | [] => True
  | LF _ _ _ _ :: _ => (res =? RB_TREE_LESS_THAN) = true
  | RF _ _ _ _ :: _ => (res =? RB_TREE_LESS_THAN) = false
  end.

End Insert_defs.

Section Find_defs.
Context {Obj : Type}.

(** The pointer the descent of the search ends with. *)
Definition found_ptr (x : option (ctx Obj * rbt Obj)) : ptr :=
  match x with Some (_, t') => ptr_of t' | None => None end.

End Find_defs.

Section Delete_fixup_defs.
Context {K Obj : Type}.

(** The bound on the iterations left for the loop of the deletion fix-up
    with [Node] of colour [c] under the path [k]. *)
Definition mu (k : ctx Obj) (c : COLOUR) : nat :=
  match c with red => 0%nat | black => length k end.

(** What the loop of the deletion fix-up guarantees of its result [res]
    when started in [st] on a tree with nodes [L] in order. *)
Definition fixD_ok (st : @State K Obj) (L : list (addr * Obj))
    (res : option (ptr * @State K Obj)) : Prop :=
  exists st' c' l' a' o' r' k',
    res = Some (Some a', st')
    /\ holds st' (plug (Nd c' l' a' o' r') k')
    /\ inorder (plug (Nd c' l' a' o' r') k') = L
    /\ top_black k'
    /\ same_frame st st'.

End Delete_fixup_defs.

Section Delete_defs.
Context {Obj : Type}.

(** The tree [RtlRbTreeDeleteNode] leaves when the loop of
    [RtlpRbTreeFixupDelete] exits at once (the node handed to it is red or
    is the root): the fix-up, run after a black node was taken out, only
    paints the child black. *)
Definition delete_shape (c : COLOUR) (l : rbt Obj) (a : addr) (o : Obj) (r : rbt Obj)
    (k : ctx Obj) : rbt Obj :=
  let u := unlink_shape c l a o r k in
  plug (if colour_eqb u.1.1 black then blacken u.1.2 else u.1.2) u.2.

(** The loop of [RtlpRbTreeFixupDelete] has nothing to do for the child
    left by the unlinking. *)
Definition fixup_trivial (c : COLOUR) (l : rbt Obj) (a : addr) (o : Obj) (r : rbt Obj)
    (k : ctx Obj) : Prop :=
  let u := unlink_shape c l a o r k in
  u.1.1 = black -> u.1.2 <> Lf -> rootc u.1.2 = red \/ u.2 = [].

End Delete_defs.

Section Write_defs.
Context {Obj : Type}.

(** The shape once the caller of [RtlRbTreeInsertNode] has stored [rec] in
    the entry at [n]. *)
Fixpoint set_obj (n : addr) (rec : Obj) (t : rbt Obj) : rbt Obj :=
  match t with
  | Lf => Lf
  | Nd c l a o r =>
      Nd c (set_obj n rec l) a (if decide (a = n) then rec else o) (set_obj n rec r)
  end.

End Write_defs.

Section Order_defs.
Context {K Obj : Type}.

(** The comparator is the three-way comparison of a strict total order
    [ltk] on keys, the key of a record being [key_of] it. *)
Definition comparator_ok (cmp : @RB_COMPARE K Obj) (key_of : Obj -> K)
    (ltk : K -> K -> Prop) : Prop :=
  (forall x, ~ ltk x x)
  /\ (forall x y z, ltk x y -> ltk y z -> ltk x z)
  /\ (forall k o,
        (cmp k o = RB_TREE_LESS_THAN /\ ltk k (key_of o))
        \/ (cmp k o = RB_TREE_GREATER_THAN /\ ltk (key_of o) k)
        \/ (cmp k o = RB_TREE_EQUAL /\ k = key_of o)).

(** The keys met by an in-order walk. *)
Definition keys (key_of : Obj -> K) (L : list (addr * Obj)) : list K :=
  map (fun e => key_of e.2) L.

(** In-order traversal yields strictly ascending keys. *)
Definition ascending (key_of : Obj -> K) (ltk : K -> K -> Prop) (t : rbt Obj) : Prop :=
  StronglySorted ltk (keys key_of (inorder t)).

(** Every key of [L] is below, resp. above, [key]. *)
Definition below (key_of : Obj -> K) (ltk : K -> K -> Prop) (key : K)
    (L : list (addr * Obj)) : Prop :=
  forall e, e ∈ L -> ltk (key_of e.2) key.
Definition above (key_of : Obj -> K) (ltk : K -> K -> Prop) (key : K)
    (L : list (addr * Obj)) : Prop :=
  forall e, e ∈ L -> ltk key (key_of e.2).

End Order_defs.

Section Sequence_defs.
Context {K Obj : Type}.

(** The record a caller stores under a key has that key. *)
Definition op_ok (key_of : Obj -> K) (op : @Op K Obj) : Prop :=
  match op with
  | OpInsert Key rec => key_of rec = Key
  | OpDelete _ => True
  end.

(** What every operation maintains: the state holds a tree [T] with a
    black root and ascending keys, the pool is sound, [node_count] counts
    the nodes of [T] (as a 32-bit counter) and the blocks are [N] in all. *)
Definition Inv (cmp : @RB_COMPARE K Obj) (key_of : Obj -> K) (ltk : K -> K -> Prop)
    (N : nat) (st : @State K Obj) (T : rbt Obj) : Prop :=
  tree_of st T /\ pool_ok st /\ compare (tree st) = Some cmp
  /\ root_black T /\ ascending key_of ltk T
  /\ node_count (tree st) = Z.of_nat (length (inorder T)) mod 2 ^ 32
  /\ (length (inorder T) + length (pool (tree st)) = N)%nat.

End Sequence_defs.

Section Statement_defs.
Context {K Obj : Type}.

(** An initially empty tree: no root, no block in use, the comparator set
    and the node counter at zero, over a pool of distinct blocks. *)
Definition empty_tree (cmp : @RB_COMPARE K Obj) (st : @State K Obj) : Prop :=
  root (tree st) = None /\ mem st = ∅ /\ compare (tree st) = Some cmp
  /\ NoDup (map fst (pool (tree st))) /\ node_count (tree st) = 0.

End Statement_defs.

(** The state of scenario A: keys 10, 20, 30 inserted in that order into an
    empty tree over the blocks 1, 2, 3 and 4. *)
Definition scenario_A_ops : list (@Op Z Z) :=
  [OpInsert 10 10; OpInsert 20 20; OpInsert 30 30].

Definition state_after (ops : list (@Op Z Z)) (st : @State Z Z) : @State Z Z :=
  match run_ops ops st with
  | Some (_, st') => st'
  | None => st
  end.

Definition scenario_A : @State Z Z := state_after scenario_A_ops (Zinit [1; 2; 3; 4]%positive).

Definition scenario_A_tree : rbt Z :=
  Nd black (Nd red Lf 1%positive 10 Lf) 2%positive 20 (Nd red Lf 3%positive 30 Lf).

(** A tree holding the key 10 over a pool that has no block left. *)
Definition exhausted : @State Z Z := state_after [OpInsert 10 10] (Zinit [1%positive]).

Definition exhausted_tree : rbt Z := Nd black Lf 1%positive 10 Lf.

(** * Tearing the tree down (tree.c 734-756) *)
Section Teardown.
Context {K Obj : Type}.

Definition with_active (v : Z) (t : @RB_TREE K Obj) : @RB_TREE K Obj :=
  mkTree (root t) (compare t) (pool t) (object_size t) v
         (node_count t) (insertion_count t) (deletion_count t).

(** [RtlpRbTreeDeleteSubtree] (tree.c 734-745): the left subtree, the right
    subtree, then the node itself go back to the pool.  The recursion is
    bounded by the fuel. *)
Fixpoint RtlpRbTreeDeleteSubtree (fuel : nat) (Node : ptr) : @M K Obj unit :=
  match fuel with
  | O => fault
  | S fuel =>
      match Node with
      | None => ret tt
      | Some _ =>
          bind (load left Node) (fun l =>
          bind (RtlpRbTreeDeleteSubtree fuel l) (fun _ =>
          bind (load right Node) (fun r =>
          bind (RtlpRbTreeDeleteSubtree fuel r) (fun _ =>
          ExFreeToLookasideListEx Node))))
      end
  end.

(** [RtlRbTreeDeleteTree] (tree.c 747-756).  [ExDeleteLookasideListEx] is the
    kernel call that disposes of the pool: what it leaves of the list of
    blocks is its business.  [Tree->active = FALSE] is the store of 0. *)
Definition RtlRbTreeDeleteTree
    (ExDeleteLookasideListEx : @LOOKASIDE_LIST_EX Obj -> @LOOKASIDE_LIST_EX Obj)
  : @M K Obj unit :=
  bind (fun st => Some (tt, mkState (with_active 0 (tree st)) (mem st))) (fun _ =>
  bind get_root (fun r =>
  bind get_fuel (fun fuel =>
  bind (RtlpRbTreeDeleteSubtree fuel r) (fun _ =>
  fun st => Some (tt, mkState (with_pool (ExDeleteLookasideListEx (pool (tree st)))
                                 (tree st)) (mem st)))))).

(** The blocks [RtlpRbTreeDeleteSubtree] pushes on the pool for the subtree
    [t] whose root has parent [par], last freed first. *)
Fixpoint freed (par : ptr) (t : rbt Obj) : list (addr * @RB_TREE_NODE Obj) :=
  match t with
  | Lf => []
  | Nd c l a o r =>
      (a, mkNode par (ptr_of l) (ptr_of r) c o)
        :: freed (Some a) r ++ freed (Some a) l
  end.

End Teardown.

Section Well_formed.
Context {K Obj : Type}.

(** A well-formed tree: the state holds [T] and nothing else, the pool is
    sound, the comparator is [cmp], the root is black and the keys ascend
    in in-order. *)
Definition well_formed (cmp : @RB_COMPARE K Obj) (key_of : Obj -> K)
    (ltk : K -> K -> Prop) (st : @State K Obj) (T : rbt Obj) : Prop :=
  tree_of st T /\ pool_ok st /\ compare (tree st) = Some cmp
  /\ root_black T /\ ascending key_of ltk T.

End Well_formed.

Section Op_key.
Context {K Obj : Type}.

(** The key an operation is about. *)
Definition op_key (op : @Op K Obj) : K :=
  match op with
  | OpInsert Key _ => Key
  | OpDelete Key => Key
  end.

End Op_key.

(** A red-black tree with a black leaf below the root: keys 10, 20, 30, 40
    inserted in that order over the blocks 1 to 5. *)
Definition scenario_B : @State Z Z :=
  state_after [OpInsert 10 10; OpInsert 20 20; OpInsert 30 30; OpInsert 40 40]
    (Zinit [1; 2; 3; 4; 5]%positive).

Definition scenario_B_tree : rbt Z :=
  Nd black (Nd black Lf 1%positive 10 Lf) 2%positive 20
     (Nd black Lf 3%positive 30 (Nd red Lf 4%positive 40 Lf)).

Section Statistics.
Context {K Obj : Type}.

(** Nodes counted, less insertions, plus deletions, as a 32-bit quantity. *)
Definition balance (t : @RB_TREE K Obj) : Z :=
  (node_count t - insertion_count t + deletion_count t) mod 2 ^ 32.

End Statistics.

Set Warnings "-clear-no-such-hyp".
Local Close Scope Z_scope.

(** * Shapes and paths *)

Section Shape_facts.
Context {Obj : Type}.
Implicit Types (t l r : rbt Obj) (k : ctx Obj) (m : gmap addr (@RB_TREE_NODE Obj)).

Lemma inorder_plug t k : inorder (plug t k) = cleft k ++ inorder t ++ cright k.
Proof.
  revert t. induction k as [|[c a o r|c l a o] k IH]; intros t; simpl.
  - by rewrite app_nil_r.
  - rewrite IH. simpl. by rewrite <- !app_assoc.
  - rewrite IH. simpl. by rewrite <- !app_assoc.
Qed.

Lemma addrs_inorder t : addrs t = map fst (inorder t).
Proof.
  induction t as [|c l IHl a o r IHr]; simpl; [done|].
  by rewrite map_app, IHl, IHr.
Qed.

Lemma addrs_plug t k : addrs (plug t k) ≡ₚ addrs t ++ caddrs k.
Proof.
  revert t. induction k as [|[c a o r|c l a o] k IH]; intros t; simpl.
  - by rewrite app_nil_r.
  - rewrite IH. simpl. rewrite <- !app_assoc. done.
  - rewrite IH. simpl. rewrite <- !app_assoc. simpl.
    rewrite <- !Permutation_middle. apply perm_skip.
    apply Permutation_app_swap_app.
Qed.

Lemma ptr_of_plug t k : ptr_of (plug t k) = croot k (ptr_of t).
Proof.
  revert t. induction k as [|[c a o r|c l a o] k IH]; intros t; simpl; [done|..];
    by rewrite IH.
Qed.

Lemma ptr_of_elem t a : ptr_of t = Some a -> a ∈ addrs t.
Proof.
  destruct t; [done|]. intros [= ->]. simpl. set_solver.
Qed.

Lemma ptr_of_ne t a : a ∉ addrs t -> Some a <> ptr_of t.
Proof. intros H E. apply H. by apply ptr_of_elem. Qed.

Lemma rep_plug m t k :
  rep m None (plug t k) <-> rep m (hp k) t /\ repc m k (ptr_of t).
Proof.
  revert t. induction k as [|[c a o r|c l a o] k IH]; intros t; simpl.
  - tauto.
  - rewrite IH. simpl. tauto.
  - rewrite IH. simpl. tauto.
Qed.

Lemma rep_frame m m' par t :
  (forall a, a ∈ addrs t -> m' !! a = m !! a) -> rep m par t -> rep m' par t.
Proof.
  revert par. induction t as [|c l IHl a o r IHr]; intros par H; simpl; [done|].
  intros (Ha & Hl & Hr). simpl in H. split_and!.
  - rewrite H; [done|set_solver].
  - apply IHl; [|done]. intros; apply H; set_solver.
  - apply IHr; [|done]. intros; apply H; set_solver.
Qed.

Lemma rep_insert_ne m par t a n :
  a ∉ addrs t -> rep m par t -> rep (<[a := n]> m) par t.
Proof.
  intros Ha. apply rep_frame. intros b Hb. apply lookup_insert_ne. set_solver.
Qed.

Lemma rep_delete_ne m par t a :
  a ∉ addrs t -> rep m par t -> rep (delete a m) par t.
Proof.
  intros Ha. apply rep_frame. intros b Hb. apply lookup_delete_ne. set_solver.
Qed.

Lemma repc_frame m m' k h :
  (forall a, a ∈ caddrs k -> m' !! a = m !! a) -> repc m k h -> repc m' k h.
Proof.
  revert h. induction k as [|[c a o r|c l a o] k IH]; intros h H; simpl; [done|..].
  - intros (Ha & Hr & Hk).
    assert (forall x, x ∈ a :: addrs r ++ caddrs k -> m' !! x = m !! x) as H'.
    { intros x Hx. by apply H. }
    split_and!.
    + rewrite H'; [done|set_solver].
    + eapply rep_frame; [|done]. intros; apply H'; set_solver.
    + apply IH; [|done]. intros; apply H'; set_solver.
  - intros (Ha & Hr & Hk).
    assert (forall x, x ∈ a :: addrs l ++ caddrs k -> m' !! x = m !! x) as H'.
    { intros x Hx. by apply H. }
    split_and!.
    + rewrite H'; [done|set_solver].
    + eapply rep_frame; [|done]. intros; apply H'; set_solver.
    + apply IH; [|done]. intros; apply H'; set_solver.
Qed.

Lemma repc_insert_ne m k h a n :
  a ∉ caddrs k -> repc m k h -> repc (<[a := n]> m) k h.
Proof.
  intros Ha. apply repc_frame. intros b Hb. apply lookup_insert_ne. set_solver.
Qed.

Lemma repc_delete_ne m k h a :
  a ∉ caddrs k -> repc m k h -> repc (delete a m) k h.
Proof.
  intros Ha. apply repc_frame. intros b Hb. apply lookup_delete_ne. set_solver.
Qed.

Lemma addrs_plug_eq t t' k : addrs t = addrs t' -> addrs (plug t k) = addrs (plug t' k).
Proof.
  revert t t'. induction k as [|[c a o r|c l a o] k IH]; intros t t' E; simpl; [done|..];
    apply IH; simpl; by rewrite E.
Qed.

Lemma croot_elem k v x : croot k (Some v) = Some x -> x = v \/ x ∈ caddrs k.
Proof.
  revert v. induction k as [|f k IH]; intros v; simpl.
  - intros [= ->]. by left.
  - intros [->|Hin]%IH; right.
    + destruct f; simpl; apply list_elem_of_here.
    + destruct f; simpl; apply list_elem_of_further, elem_of_app; by right.
Qed.

Lemma croot_ne k u v : u <> v -> u ∉ caddrs k -> Some u <> croot k (Some v).
Proof. intros Hne Hin E. symmetry in E. apply croot_elem in E as [?|?]; done. Qed.

End Shape_facts.

(** * Symbolic execution of the primitives *)

(** Membership in a right-nested list of atoms. *)
Ltac mem :=
  lazymatch goal with
  | |- ?u ∈ ?u :: _ => apply list_elem_of_here
  | |- ?u ∈ _ :: _ => apply list_elem_of_further; mem
  | |- ?u ∈ ?A ++ _ =>
      first [ apply elem_of_app; left; assumption
            | apply elem_of_app; right; mem ]
  | |- _ => assumption
  end.

(** [peel_elem H u]: from [H : NoDup L] to [H : u ∉ R], where [u :: R] is a
    suffix of [L]. *)
Ltac peel_elem H u :=
  lazymatch type of H with
  | NoDup (u :: _) => apply NoDup_cons_1_1 in H
  | NoDup (_ :: _) => apply NoDup_cons_1_2 in H; peel_elem H u
  | NoDup (_ ++ _) => apply NoDup_app in H as (_ & _ & H); peel_elem H u
  end.

(** [peel_atom H A]: from [H : NoDup L] to [H : forall x, x ∈ A -> x ∉ R],
    where [A ++ R] is a suffix of [L]. *)
Ltac peel_atom H A :=
  lazymatch type of H with
  | NoDup (A ++ _) => apply NoDup_app in H as (_ & H & _)
  | NoDup (_ :: _) => apply NoDup_cons_1_2 in H; peel_atom H A
  | NoDup (_ ++ _) => apply NoDup_app in H as (_ & _ & H); peel_atom H A
  end.

Ltac nd_with H0 :=
  let H := fresh "Hpeel" in
  lazymatch goal with
  | |- Some ?u <> Some ?v =>
      let E := fresh in intros E; injection E as E; revert E;
      change (u <> v); nd_with H0
  | |- Some ?u <> croot ?k (Some ?v) => apply croot_ne; nd_with H0
  | |- Some ?u <> ptr_of ?t => apply ptr_of_ne; nd_with H0
  | |- ptr_of ?t <> Some ?u => apply not_eq_sym, ptr_of_ne; nd_with H0
  | |- Some _ <> None => discriminate
  | |- None <> Some _ => discriminate
  | |- ?u <> ?v =>
      first [ pose proof H0 as H; unfold distinct in H; peel_elem H u;
              let E := fresh in intros E; apply H; rewrite E; mem
            | pose proof H0 as H; unfold distinct in H; peel_elem H v;
              let E := fresh in intros E; apply H; rewrite <- E; mem ]
  | |- ?u ∉ ?A =>
      first [ pose proof H0 as H; unfold distinct in H; peel_elem H u;
              let E := fresh in intros E; apply H; mem
            | pose proof H0 as H; unfold distinct in H; peel_atom H A;
              let E := fresh in intros E; apply (H _ E); mem ]
  end.

Ltac nd :=
  match goal with
  | H : distinct _ |- _ => solve [nd_with H]
  end.

(** Put a [NoDup] hypothesis in right-nested form and mark it. *)
Ltac mark_distinct H :=
  simpl in H; repeat (progress (rewrite <- ?app_assoc in H; simpl in H));
  rewrite ?app_nil_r in H;
  change (NoDup ?l) with (distinct l) in H.

Ltac lk :=
  repeat first
    [ rewrite lookup_insert_eq
    | rewrite lookup_insert_ne by nd
    | match goal with H : ?m !! ?a = Some _ |- context [?m !! ?a] => rewrite H end ].

Ltac bd :=
  repeat match goal with
  | |- context [bool_decide (?x = ?y)] =>
      first [ rewrite (bool_decide_eq_true_2 (x = y)) by reflexivity
            | rewrite (bool_decide_eq_false_2 (x = y)) by nd ]
  end.

Ltac red_proj :=
  cbn [mem tree root with_root fst snd negb andb
     parent left right colour object set_parent set_left set_right set_colour set_object
     present ptr_of hp faddr croot colour_eqb].

Ltac exec :=
  cbv beta iota delta
    [bind ret load store get_root set_root when_present is_red null_or_black andM];
  repeat (progress (red_proj; lk; bd)).

Ltac solve_cell := red_proj; lk; red_proj; reflexivity.

Ltac solve_rep1 :=
  lazymatch goal with
  | |- True => exact I
  | |- _ !! _ = Some _ => solve_cell
  | |- rep _ _ _ => repeat (apply rep_insert_ne; [nd|]); assumption
  | |- repc _ _ _ => repeat (apply repc_insert_ne; [nd|]); assumption
  end.

Ltac solve_rep :=
  simpl; first [ exact I | rewrite ?rep_plug; simpl; split_and!; solve_rep1 ].

Ltac solve_dom :=
  simpl; repeat (rewrite dom_insert_lookup_L; [|lk; eauto]); reflexivity.

Ltac solve_frame := split_and!; try reflexivity; solve_dom.

Ltac solve_addrs :=
  simpl; try apply addrs_plug_eq; simpl;
  repeat (progress (rewrite <- ?app_assoc; simpl)); reflexivity.

Section Primitives.
Context {K Obj : Type}.
Implicit Types (t l r : rbt Obj) (k : ctx Obj) (m : gmap addr (@RB_TREE_NODE Obj)).
Implicit Types (st : @State K Obj).

Lemma holds_update st st' T T' :
  holds st T -> addrs T' = addrs T ->
  root (tree st') = ptr_of T' -> rep (mem st') None T' -> holds st' T'.
Proof.
  intros (_ & Hnd & _) E Hr Hrep. split_and!; [done| |done]. by rewrite E.
Qed.

Lemma holds_open st t k :
  holds st (plug t k) ->
  root (tree st) = croot k (ptr_of t) /\ distinct (addrs t ++ caddrs k)
  /\ rep (mem st) (hp k) t /\ repc (mem st) k (ptr_of t).
Proof.
  intros (Hroot & Hnd & Hrep).
  rewrite ptr_of_plug in Hroot. apply rep_plug in Hrep as [Ht Hk].
  rewrite addrs_plug in Hnd. done.
Qed.

Lemma same_frame_refl st : same_frame st st.
Proof. by repeat split. Qed.

Lemma same_frame_trans st1 st2 st3 :
  same_frame st1 st2 -> same_frame st2 st3 -> same_frame st1 st3.
Proof.
  unfold same_frame. intros ? ?. destruct_and!. split_and!; congruence.
Qed.

Lemma bind_Some {A B} (m : M A) (f : A -> M B) st x st' :
  m st = Some (x, st') -> bind m f st = f x st'.
Proof. unfold bind. by intros ->. Qed.

Lemma bind_assoc {A B C} (m : M A) (f : A -> M B) (g : B -> M C) st :
  bind (bind m f) g st = bind m (fun x => bind (f x) g) st.
Proof. unfold bind. by destruct (m st) as [[? ?]|]. Qed.

Lemma bind_ret {A B} (x : A) (f : A -> M B) st : bind (ret x) f st = f x st.
Proof. done. Qed.

Lemma load_focus {A} (f : RB_TREE_NODE -> A) st c l a o r k :
  holds st (plug (Nd c l a o r) k) ->
  load f (Some a) st = Some (f (mkNode (hp k) (ptr_of l) (ptr_of r) c o), st).
Proof.
  intros H. apply holds_open in H as (_ & _ & (Ha & _) & _).
  unfold load. by rewrite Ha.
Qed.

Lemma root_focus st t k :
  holds st (plug t k) -> get_root st = Some (croot k (ptr_of t), st).
Proof.
  intros H. apply holds_open in H as (Hr & _). unfold get_root. by rewrite Hr.
Qed.

Lemma compare_focus (cmp : RB_COMPARE) (key : K) st c l a o r k :
  compare (tree st) = Some cmp ->
  holds st (plug (Nd c l a o r) k) ->
  call_compare key (Some a) st = Some (cmp key o, st).
Proof.
  intros Hc H. unfold call_compare. rewrite Hc.
  by rewrite (load_focus _ _ _ _ _ _ _ _ H).
Qed.

End Primitives.

Ltac open_tree H :=
  let Hroot := fresh "Hroot" in
  let Hnd := fresh "Hnd" in
  let Ht := fresh "Ht" in
  let Hk := fresh "Hk" in
  pose proof (holds_open _ _ _ H) as (Hroot & Hnd & Ht & Hk);
  simpl in Hroot, Ht, Hk; destruct_and?; mark_distinct Hnd.

Ltac close_tree H :=
  eapply holds_update;
    [ exact H | solve_addrs
    | simpl; rewrite ?ptr_of_plug; simpl; done | solve_rep ].

Section Primitives2.
Context {K Obj : Type}.
Implicit Types (t l r : rbt Obj) (k : ctx Obj) (m : gmap addr (@RB_TREE_NODE Obj)).
Implicit Types (st : @State K Obj).

Lemma colour_focus c' st c l a o r k :
  holds st (plug (Nd c l a o r) k) ->
  exists st', store (set_colour c') (Some a) st = Some (tt, st')
    /\ holds st' (plug (Nd c' l a o r) k)
    /\ same_frame st st'.
Proof.
  intros H. destruct st as [T m]. open_tree H.
  destruct k as [|[pc p po s|pc s p po] k]; simpl in *; destruct_and?.
  all: exec; (eexists; split; [reflexivity|]); split; [close_tree H|solve_frame].
Qed.

Lemma object_focus o' st c l a o r k :
  holds st (plug (Nd c l a o r) k) ->
  exists st', store (set_object o') (Some a) st = Some (tt, st')
    /\ holds st' (plug (Nd c l a o' r) k)
    /\ same_frame st st'.
Proof.
  intros H. destruct st as [T m]. open_tree H.
  destruct k as [|[pc p po s|pc s p po] k]; simpl in *; destruct_and?.
  all: exec; (eexists; split; [reflexivity|]); split; [close_tree H|solve_frame].
Qed.

Lemma RotateLeft_spec st c l a o c' (rl rr : rbt Obj) b o' k :
  holds st (plug (Nd c l a o (Nd c' rl b o' rr)) k) ->
  exists st', RtlpRbTreeRotateLeft (Some a) st = Some (tt, st')
    /\ holds st' (plug (Nd c' (Nd c l a o rl) b o' rr) k)
    /\ same_frame st st'.
Proof.
  intros H. destruct st as [T m].
  unfold RtlpRbTreeRotateLeft.
  destruct rl as [|c2 rll x o2 rlr]; destruct k as [|[pc p po s|pc s p po] k];
    open_tree H.
  all: exec; (eexists; split; [reflexivity|]); split; [close_tree H|solve_frame].
Qed.

Lemma RotateRight_spec st c (ll lr : rbt Obj) a o c' r b o' k :
  holds st (plug (Nd c (Nd c' ll b o' lr) a o r) k) ->
  exists st', RtlpRbTreeRotateRight (Some a) st = Some (tt, st')
    /\ holds st' (plug (Nd c' ll b o' (Nd c lr a o r)) k)
    /\ same_frame st st'.
Proof.
  intros H. destruct st as [T m].
  unfold RtlpRbTreeRotateRight.
  destruct lr as [|c2 lrl x o2 lrr]; destruct k as [|[pc p po s|pc s p po] k];
    open_tree H.
  all: exec; (eexists; split; [reflexivity|]); split; [close_tree H|solve_frame].
Qed.

End Primitives2.

(** * The insertion fix-up on shapes *)

Section Insert_pure.
Context {Obj : Type}.
Implicit Types (t l r : rbt Obj) (k : ctx Obj).

Lemma bheight_Nd c l a o r h :
  bheight l = Some h -> bheight r = Some h -> bheight (Nd c l a o r) = Some (bump c h).
Proof. intros Hl Hr. simpl. rewrite Hl, Hr. rewrite decide_True by done. by destruct c. Qed.

Lemma bheight_Nd_inv c l a o r h :
  bheight (Nd c l a o r) = Some h ->
  exists h', bheight l = Some h' /\ bheight r = Some h' /\ h = bump c h'.
Proof.
  simpl. destruct (bheight l) as [x|]; [|done]. destruct (bheight r) as [y|]; [|done].
  case_decide; [|done]. subst. intros [= <-]. eauto.
Qed.

Lemma nrr_plug t k :
  no_red_red (plug t k) <->
  no_red_red t /\ cnrr k /\ (rootc t = red -> pcol k = black).
Proof.
  revert t. induction k as [|[c a o r|c l a o] k IH]; intros t; simpl.
  - unfold pcol. tauto.
  - rewrite IH. simpl. destruct c, (rootc t); intuition congruence.
  - rewrite IH. simpl. destruct c, (rootc t); intuition congruence.
Qed.

Lemma bh_plug t k : bheight (plug t k) = bheight t ≫= cbh k.
Proof.
  revert t. induction k as [|[c a o r|c l a o] k IH]; intros t; simpl.
  - by destruct (bheight t).
  - rewrite IH. simpl. destruct (bheight t) as [x|]; [|done]. simpl.
    destruct (bheight r) as [y|]; repeat case_decide; simplify_eq; try done;
      by destruct c.
  - rewrite IH. simpl. destruct (bheight t) as [x|]; simpl;
      destruct (bheight l) as [y|]; simpl; repeat case_decide; simplify_eq; try done;
      by destruct c.
Qed.

Lemma rootc_plug t k : k <> [] -> rootc (plug t k) = from_option fcol black (last k).
Proof.
  revert t. induction k as [|f k IH]; intros t Hk; [done|].
  destruct k as [|f' k].
  - by destruct f.
  - rewrite last_cons_cons. destruct f as [c a o r|c l a o].
    + by rewrite <- (IH (Nd c t a o r)).
    + by rewrite <- (IH (Nd c l a o t)).
Qed.

Lemma top_black_plug t k : k <> [] -> top_black k <-> root_black (plug t k).
Proof.
  intros Hk. unfold root_black, top_black. rewrite rootc_plug by done.
  destruct (last k) eqn:E; simpl; [done|].
  apply last_None in E. done.
Qed.

Lemma nrr_blacken t : no_red_red t -> no_red_red (blacken t).
Proof. destruct t; simpl; [done|]. intuition congruence. Qed.

Lemma bh_blacken t : is_Some (bheight t) -> is_Some (bheight (blacken t)).
Proof.
  destruct t as [|c l a o r]; [done|]. intros [h Hh].
  apply bheight_Nd_inv in Hh as (h' & Hl & Hr & _).
  unfold blacken. rewrite (bheight_Nd black _ a o _ _ Hl Hr). eauto.
Qed.

Lemma inorder_blacken t : inorder (blacken t) = inorder t.
Proof. by destruct t. Qed.

Lemma ins_fix_inorder k : forall t, inorder (ins_fix k t) = inorder (plug t k).
Proof.
  induction k as [k IH] using (induction_ltof1 _ length). unfold ltof in IH.
  intros t.
  destruct k as [|[[] p po s|[] s p po] k]; try reflexivity.
  all: destruct k as [|[gc g go u|gc u g go] k]; [reflexivity|..].
  all: destruct u as [|[] ul ua uo ur]; simpl; try destruct t; try reflexivity.
  all: rewrite ?IH by (simpl; lia).
  all: rewrite !inorder_plug; simpl; repeat (progress (rewrite <- ?app_assoc; simpl)).
  all: reflexivity.
Qed.

Lemma plug_ok t k h H :
  no_red_red t -> (rootc t = red -> pcol k = black) ->
  bheight t = Some h -> cnrr k -> cbh k h = Some H ->
  no_red_red (blacken (plug t k)) /\ is_Some (bheight (plug t k)).
Proof.
  intros Hn Hc Hb Hk HH. split.
  - apply nrr_blacken, nrr_plug. done.
  - rewrite bh_plug, Hb. simpl. rewrite HH. eauto.
Qed.

Lemma cbh_decide_inv {A} (P : Prop) `{Decision P} (x : option A) y :
  (if decide P then x else None) = Some y -> P /\ x = Some y.
Proof. by case_decide. Qed.

Lemma bheight_Lf_inv (x : nat) : bheight (@Lf Obj) = Some x -> x = 0%nat.
Proof. by intros [= <-]. Qed.

Local Arguments bheight : simpl never.

Ltac rb_facts :=
  repeat (progress (repeat match goal with
  | H : (if decide _ then _ else None) = Some _ |- _ =>
      apply cbh_decide_inv in H as [? H]
  | H : bheight (Nd _ _ _ _ _) = Some _ |- _ =>
      apply bheight_Nd_inv in H as (? & ? & ? & ?)
  | H : bheight Lf = Some _ |- _ => apply bheight_Lf_inv in H
  | H : red = red -> _ |- _ => specialize (H eq_refl)
  | H : black = red -> _ |- _ => clear H
  | H : _ /\ _ |- _ => destruct H
  end; simplify_eq/=)).

Lemma bheight_Nd' c l a o r h H :
  bheight l = Some h -> bheight r = Some h -> H = bump c h ->
  bheight (Nd c l a o r) = Some H.
Proof. intros ? ? ->. by apply bheight_Nd. Qed.

Ltac solve_bh :=
  lazymatch goal with
  | |- bheight (Nd _ _ _ _ _) = _ =>
      eapply bheight_Nd'; [solve_bh|solve_bh|reflexivity]
  | |- bheight Lf = _ => reflexivity
  | |- _ => eassumption
  end.

Ltac solve_nrr := simpl; intuition (try eassumption; try congruence).

Lemma top_black_tl2 (f1 f2 : frame Obj) k : top_black (f1 :: f2 :: k) -> top_black k.
Proof. unfold top_black. destruct k; [done|]. by rewrite !last_cons_cons. Qed.

Lemma top_black_hd (f f1 f2 : frame Obj) k :
  fcol f = black -> top_black (f1 :: f2 :: k) -> top_black (f :: k).
Proof.
  unfold top_black. destruct k as [|f3 k]; [done|]. by rewrite !last_cons_cons.
Qed.

Lemma ins_fix_rb k : forall t h H,
  rootc t = red -> no_red_red t -> bheight t = Some h ->
  cnrr k -> cbh k h = Some H -> top_black k ->
  no_red_red (blacken (ins_fix k t)) /\ is_Some (bheight (ins_fix k t)).
Proof.
  induction k as [k IH] using (induction_ltof1 _ length). unfold ltof in IH.
  intros t h H Hc Hn Hb Hk HH Htop.
  destruct k as [|[[] p po s|[] s p po] k].
  - simpl. split; [by apply nrr_blacken|by eauto].
  - destruct k as [|[gc g go u|gc u g go] k]; [by cbv in Htop|..].
    all: destruct u as [|[] ul ua uo ur]; try destruct t as [|c l a o r]; try done.
    all: simpl in Hk, HH, Hc, Hn; rb_facts; cbn [ins_fix].
    all: first
      [ eapply plug_ok; [solve_nrr|done|solve_bh|eassumption|exact HH]
      | eapply IH;
          [simpl; lia|reflexivity|solve_nrr|solve_bh|eassumption|exact HH
          |by eapply top_black_tl2] ].
  - eapply plug_ok; eauto.
  - destruct k as [|[gc g go u|gc u g go] k]; [by cbv in Htop|..].
    all: destruct u as [|[] ul ua uo ur]; try destruct t as [|c l a o r]; try done.
    all: simpl in Hk, HH, Hc, Hn; rb_facts; cbn [ins_fix].
    all: first
      [ eapply plug_ok; [solve_nrr|done|solve_bh|eassumption|exact HH]
      | eapply IH;
          [simpl; lia|reflexivity|solve_nrr|solve_bh|eassumption|exact HH
          |by eapply top_black_tl2] ].
  - eapply plug_ok; eauto.
Qed.

Lemma ins_fix_nonempty k t : t <> Lf -> ins_fix k t <> Lf.
Proof.
  intros Ht E. apply (f_equal inorder) in E. rewrite ins_fix_inorder, inorder_plug in E.
  destruct t; [done|]. simpl in E.
  by destruct (cleft k), (inorder t1).
Qed.

(** The tree after an insertion at the hole of [k]: the fix-up, then the
    root forced black. *)
Lemma insert_red_black k a o :
  red_black (plug Lf k) ->
  red_black (blacken (ins_fix k (Nd red Lf a o Lf))).
Proof.
  intros (Hr & Hn & [H HH]).
  apply nrr_plug in Hn as (_ & Hk & _). rewrite bh_plug in HH. simpl in HH.
  assert (top_black k) as Htop.
  { destruct k as [|f k]; [done|]. by apply (top_black_plug Lf). }
  destruct (ins_fix_rb k (Nd red Lf a o Lf) 0%nat H) as [Hn' Hb']; try done.
  split_and!; [|done|by apply bh_blacken].
  pose proof (ins_fix_nonempty k (Nd red Lf a o Lf)) as Hne.
  destruct (ins_fix k (Nd red Lf a o Lf)); [by destruct Hne|done].
Qed.

End Insert_pure.

(** * The insertion fix-up on the heap *)

(** ** Symbolic execution against a held tree *)

Ltac find_focus T x k :=
  match T with
  | Nd _ _ x _ _ => constr:((T, k))
  | Nd ?c ?l ?y ?o ?r => find_focus l x (LF c y o r :: k)
  | Nd ?c ?l ?y ?o ?r => find_focus r x (RF c l y o :: k)
  end.

Ltac focus_of H x :=
  lazymatch type of H with
  | holds _ (plug ?T ?k0) => find_focus T x k0
  | holds (Obj:=?O) _ ?T => find_focus T x (@nil (frame O))
  end.

Ltac norm :=
  cbn [when_present is_red null_or_black andM present ret fst snd negb andb colour_eqb
       parent left right colour object hp faddr ptr_of croot];
  rewrite ?bind_assoc, ?bind_ret;
  cbn [when_present is_red null_or_black andM present ret fst snd negb andb colour_eqb
       parent left right colour object hp faddr ptr_of croot].

Ltac chain_frame Fr :=
  lazymatch type of Fr with
  | same_frame ?st ?st' =>
      lazymatch goal with
      | F0 : same_frame ?s0 st |- _ =>
          let F1 := fresh "Fr" in
          pose proof (same_frame_trans _ _ _ F0 Fr) as F1; clear F0 Fr
      | _ => idtac
      end
  end.

Ltac step_load :=
  lazymatch goal with
  | |- context [bind (load ?f (Some ?x)) ?F ?st] =>
      lazymatch goal with
      | H : holds st _ |- _ =>
          let p := focus_of H x in
          lazymatch p with
          | (Nd ?c ?l _ ?o ?r, ?k) =>
              rewrite (bind_Some _ F _ _ _ (load_focus f st c l x o r k H))
          end
      end
  end.

Ltac step_root :=
  lazymatch goal with
  | |- context [bind get_root ?F ?st] =>
      lazymatch goal with
      | H : holds st (plug ?T ?k) |- _ =>
          rewrite (bind_Some _ F _ _ _ (root_focus st T k H))
      | H : holds (Obj:=?O) st ?T |- _ =>
          rewrite (bind_Some _ F _ _ _ (root_focus st T (@nil (frame O)) H))
      end
  end.

Ltac step_colour :=
  lazymatch goal with
  | |- context [bind (store (set_colour ?c') (Some ?x)) ?F ?st] =>
      lazymatch goal with
      | H : holds st _ |- _ =>
          let p := focus_of H x in
          lazymatch p with
          | (Nd ?c ?l _ ?o ?r, ?k) =>
              let st' := fresh "st" in
              let E := fresh "E" in
              let H' := fresh "H" in
              let Fr := fresh "Fr" in
              destruct (colour_focus c' st c l x o r k H) as (st' & E & H' & Fr);
              rewrite (bind_Some _ F _ _ _ E); clear E H;
              cbn [plug] in H'; chain_frame Fr
          end
      end
  end.

Ltac step_rotl :=
  lazymatch goal with
  | |- context [bind (RtlpRbTreeRotateLeft (Some ?x)) ?F ?st] =>
      lazymatch goal with
      | H : holds st _ |- _ =>
          let p := focus_of H x in
          lazymatch p with
          | (Nd ?c ?l _ ?o (Nd ?c' ?rl ?b ?o' ?rr), ?k) =>
              let st' := fresh "st" in
              let E := fresh "E" in
              let H' := fresh "H" in
              let Fr := fresh "Fr" in
              destruct (RotateLeft_spec st c l x o c' rl rr b o' k H) as (st' & E & H' & Fr);
              rewrite (bind_Some _ F _ _ _ E); clear E H;
              cbn [plug] in H'; chain_frame Fr
          end
      end
  end.

Ltac step_rotr :=
  lazymatch goal with
  | |- context [bind (RtlpRbTreeRotateRight (Some ?x)) ?F ?st] =>
      lazymatch goal with
      | H : holds st _ |- _ =>
          let p := focus_of H x in
          lazymatch p with
          | (Nd ?c (Nd ?c' ?ll ?b ?o' ?lr) _ ?o ?r, ?k) =>
              let st' := fresh "st" in
              let E := fresh "E" in
              let H' := fresh "H" in
              let Fr := fresh "Fr" in
              destruct (RotateRight_spec st c ll lr x o c' r b o' k H) as (st' & E & H' & Fr);
              rewrite (bind_Some _ F _ _ _ E); clear E H;
              cbn [plug] in H'; chain_frame Fr
          end
      end
  end.

Ltac bd_held :=
  repeat lazymatch goal with
  | |- context [bool_decide (?x = ?x)] =>
      rewrite (bool_decide_eq_true_2 (x = x)) by reflexivity
  | |- context [bool_decide (Some ?x = None)] =>
      rewrite (bool_decide_eq_false_2 (Some x = None)) by discriminate
  | |- context [bool_decide (None = Some ?x)] =>
      rewrite (bool_decide_eq_false_2 (None = Some x)) by discriminate
  | |- context [bool_decide (?x = ?y)] =>
      lazymatch goal with
      | H : holds _ _ |- _ =>
          let Hnd := fresh "Hnd" in
          (lazymatch type of H with
           | holds _ (plug ?T ?k0) =>
               pose proof (proj1 (proj2 (holds_open _ T k0 H))) as Hnd
           | holds (Obj:=?O) _ ?T =>
               pose proof (proj1 (proj2 (holds_open _ T (@nil (frame O)) H))) as Hnd
           end);
          unfold distinct in Hnd; mark_distinct Hnd;
          rewrite (bool_decide_eq_false_2 (x = y)) by nd;
          clear Hnd
      end
  end.

Ltac step :=
  first [ step_load | step_colour | step_rotl | step_rotr | step_root ].

Ltac steps := repeat (norm; bd_held; norm; step); norm; bd_held; norm.

Ltac recur IH :=
  lazymatch goal with
  | |- exists st' Node', _ _ (Some ?x) ?st = _ /\ _ =>
      lazymatch goal with
      | H : holds st _ |- _ =>
          let p := focus_of H x in
          lazymatch p with
          | (Nd ?c ?l _ ?o ?r, ?k) =>
              eapply (IH k c l x o r st);
                [ simpl in *; lia | exact H | | eassumption | reflexivity ]
          end
      end
  end.

Section Insert_fixup.
Context {K Obj : Type}.
Implicit Types (t l r : rbt Obj) (k : ctx Obj) (m : gmap addr (@RB_TREE_NODE Obj)).
Implicit Types (st : @State K Obj).

Lemma FixupInsert_loop_spec n : forall k c l a o r st,
  (length k < n)%nat ->
  holds st (plug (Nd c l a o r) k) ->
  top_black k ->
  exists st' Node',
    RtlpRbTreeFixupInsert_loop n (Some a) st = Some (Node', st')
    /\ holds st' (ins_fix k (Nd c l a o r))
    /\ same_frame st st'.
Proof.
  induction n as [|n IH]; intros k c l a o r st Hn H Htop; [lia|].
  pose proof (same_frame_refl st) as Fr0.
  cbn [RtlpRbTreeFixupInsert_loop].
  assert (forall k' c' l' a' o' r' st1,
    (length k' < n)%nat -> holds st1 (plug (Nd c' l' a' o' r') k') -> top_black k' ->
    same_frame st st1 ->
    forall T, T = ins_fix k' (Nd c' l' a' o' r') ->
    exists st' Node',
      RtlpRbTreeFixupInsert_loop n (Some a') st1 = Some (Node', st')
      /\ holds st' T /\ same_frame st st') as IH'.
  { intros k' c' l' a' o' r' st1 Hn' H1 Ht1 Fr1 T ->.
    destruct (IH k' c' l' a' o' r' st1 Hn' H1 Ht1) as (st' & Node' & E & H' & Fr').
    exists st', Node'. split_and!; [done..|]. by eapply same_frame_trans. }
  clear IH.
  destruct k as [|[[] p po s|[] s p po] k]; simpl in H.
  - (* no parent *)
    steps. by eexists _, _.
  - (* red parent, Node its left child *)
    destruct k as [|[gc g go u|gc u g go] k]; [by cbv in Htop|..]; simpl in H.
    + destruct u as [|[] ul ua uo ur]; steps.
      * recur IH'; by eapply top_black_hd.
      * recur IH'; by eapply top_black_tl2.
      * recur IH'; by eapply top_black_hd.
    + destruct u as [|[] ul ua uo ur]; steps.
      * recur IH'; by eapply top_black_hd.
      * recur IH'; by eapply top_black_tl2.
      * recur IH'; by eapply top_black_hd.
  - (* black parent *)
    steps. by eexists _, _.
  - (* red parent, Node its right child *)
    destruct k as [|[gc g go u|gc u g go] k]; [by cbv in Htop|..]; simpl in H.
    + destruct u as [|[] ul ua uo ur]; steps.
      * recur IH'; by eapply top_black_hd.
      * recur IH'; by eapply top_black_tl2.
      * recur IH'; by eapply top_black_hd.
    + destruct u as [|[] ul ua uo ur]; steps.
      * recur IH'; by eapply top_black_hd.
      * recur IH'; by eapply top_black_tl2.
      * recur IH'; by eapply top_black_hd.
  - (* black parent *)
    steps. by eexists _, _.
Qed.

End Insert_fixup.

Local Open Scope Z_scope.

(** * RtlRbTreeInsertNode *)

(** [NoDup] of a rearrangement of a list known to be duplicate-free. *)
Ltac nodup_perm H :=
  unfold distinct in H;
  first
    [ exact H
    | lazymatch goal with
      | |- NoDup ?L' =>
          lazymatch type of H with
          | NoDup ?L =>
              let E := fresh in
              assert (L' ≡ₚ L) as E by solve_Permutation; rewrite E; exact H
          end
      end ].

Section Insert.
Context {K Obj : Type}.
Implicit Types (t l r : rbt Obj) (k : ctx Obj) (m : gmap addr (@RB_TREE_NODE Obj)).
Implicit Types (st : @State K Obj) (cmp : @RB_COMPARE K Obj).

Lemma rep_is_Some m par t a : rep m par t -> a ∈ addrs t -> is_Some (m !! a).
Proof.
  revert par. induction t as [|c l IHl b o r IHr]; intros par; simpl.
  - by intros _ ?%elem_of_nil.
  - intros (Hb & Hl & Hr). rewrite elem_of_app, elem_of_cons.
    intros [?|[->|?]]; eauto.
Qed.

Lemma holds_size st T : holds st T -> (length (addrs T) <= size (mem st))%nat.
Proof.
  intros (_ & Hnd & Hrep).
  rewrite <- (size_dom (D := gset addr)).
  rewrite <- (size_list_to_set (C := gset addr) (addrs T)) by done.
  apply subseteq_size. intros a Ha. apply elem_of_list_to_set in Ha.
  apply elem_of_dom. by eapply rep_is_Some.
Qed.

Lemma length_addrs_plug t k : length (addrs (plug t k)) = (length (addrs t) + length (caddrs k))%nat.
Proof. by rewrite addrs_plug, length_app. Qed.

Lemma length_caddrs k : (length k <= length (caddrs k))%nat.
Proof.
  induction k as [|[c a o r|c l a o] k IH]; simpl; [done|..];
    rewrite length_app; lia.
Qed.

Lemma holds_fuel st t k :
  holds st (plug t k) -> (length (addrs t) + length k < fuel_of st)%nat.
Proof.
  intros H%holds_size. rewrite length_addrs_plug in H.
  pose proof (length_caddrs k). unfold fuel_of. lia.
Qed.

Lemma descend_plug cmp key t k k' :
  descend cmp key t k = inr k' -> plug t k = plug Lf k'.
Proof.
  revert k. induction t as [|c l IHl a o r IHr]; intros k; simpl.
  - by intros [= ->].
  - repeat case_match; try done.
    + by intros ?%IHl.
    + by intros ?%IHr.
Qed.

Lemma descend_found cmp key t k a :
  descend cmp key t k = inl a ->
  exists c l o r k', plug t k = plug (Nd c l a o r) k'
    /\ (cmp key o =? RB_TREE_LESS_THAN) = false
    /\ (cmp key o =? RB_TREE_GREATER_THAN) = false.
Proof.
  revert k. induction t as [|c l IHl b o r IHr]; intros k; simpl; [done|].
  destruct (cmp key o =? RB_TREE_LESS_THAN) eqn:E1.
  { by intros ?%IHl. }
  destruct (cmp key o =? RB_TREE_GREATER_THAN) eqn:E2.
  { by intros ?%IHr. }
  intros [= ->]. by exists c, l, o, r, k.
Qed.

Lemma InsertNode_loop_spec cmp key node st : forall t k n res,
  compare (tree st) = Some cmp ->
  holds st (plug t k) ->
  (length (addrs t) < n)%nat ->
  dir_ok k res ->
  match descend cmp key t k with
  | inl a =>
      RtlRbTreeInsertNode_loop n key node (hp k) res (ptr_of t) st
      = bind (ExFreeToLookasideListEx node) (fun _ => ret (inl (Some a))) st
  | inr k' =>
      exists res', RtlRbTreeInsertNode_loop n key node (hp k) res (ptr_of t) st
                   = Some (inr (hp k', res'), st)
                   /\ dir_ok k' res'
  end.
Proof.
  induction t as [|c l IHl a o r IHr]; intros k n res Hc H Hn Hd.
  - destruct n; [simpl in Hn; lia|]. simpl. eauto.
  - destruct n; [simpl in Hn; lia|].
    simpl in Hn. rewrite length_app in Hn. simpl in Hn.
    cbn [RtlRbTreeInsertNode_loop descend ptr_of].
    rewrite (bind_Some _ _ _ _ _ (compare_focus cmp key st c l a o r k Hc H)).
    destruct (cmp key o =? RB_TREE_LESS_THAN) eqn:E1.
    { rewrite (bind_Some _ _ _ _ _ (load_focus left st c l a o r k H)).
      cbn [left]. apply (IHl (LF c a o r :: k)); [done|done|lia|done]. }
    destruct (cmp key o =? RB_TREE_GREATER_THAN) eqn:E2.
    { rewrite (bind_Some _ _ _ _ _ (load_focus right st c l a o r k H)).
      cbn [right]. apply (IHr (RF c l a o :: k)); [done|done|lia|done]. }
    reflexivity.
Qed.

Lemma link_spec st k n nd res :
  holds st (plug Lf k) ->
  mem st !! n = Some nd -> n ∉ caddrs k ->
  left nd = None -> right nd = None ->
  dir_ok k res ->
  exists st',
    (forall B (g : unit -> M B),
       bind (store (set_parent (hp k)) (Some n))
         (fun _ => bind (match hp k with
                         | None => set_root (Some n)
                         | Some _ =>
                             if res =? RB_TREE_LESS_THAN
                             then store (set_left (Some n)) (hp k)
                             else store (set_right (Some n)) (hp k)
                         end) g) st = g tt st')
    /\ holds st' (plug (Nd (colour nd) Lf n (object nd) Lf) k)
    /\ same_frame st st'.
Proof.
  intros H Hn Hfresh Hl Hr Hd.
  cut (exists st',
    bind (store (set_parent (hp k)) (Some n))
      (fun _ => match hp k with
                | None => set_root (Some n)
                | Some _ =>
                    if res =? RB_TREE_LESS_THAN then store (set_left (Some n)) (hp k)
                    else store (set_right (Some n)) (hp k)
                end) st = Some (tt, st')
    /\ holds st' (plug (Nd (colour nd) Lf n (object nd) Lf) k)
    /\ same_frame st st').
  { intros (st' & E & ? & ?). exists st'. split; [|done]. intros B g.
    rewrite <- (bind_Some _ g _ _ _ E). by rewrite bind_assoc. }
  destruct st as [T m]. destruct nd as [np nl nr nc no].
  simpl in *. subst nl nr.
  pose proof (holds_open _ _ _ H) as (Hroot & Hnd & _ & Hk).
  simpl in Hroot, Hk, Hnd. unfold distinct in Hnd.
  assert (distinct (n :: caddrs k)) as Hnd' by (by apply NoDup_cons).
  clear Hnd Hfresh.
  destruct k as [|[pc p po s|pc s p po] k]; simpl in *; destruct_and?;
    try rewrite Hd; mark_distinct Hnd'.
  all: exec; (eexists; split; [reflexivity|]); split; [|solve_frame].
  all: split_and!;
    [ simpl; rewrite ?ptr_of_plug; simpl; done
    | rewrite ?addrs_plug; simpl; nodup_perm Hnd'
    | solve_rep ].
Qed.

Lemma FixupInsert_spec st k c l a o r :
  holds st (plug (Nd c l a o r) k) -> top_black k ->
  exists st', RtlpRbTreeFixupInsert (Some a) st = Some (tt, st')
    /\ holds st' (blacken (ins_fix k (Nd c l a o r)))
    /\ same_frame st st'.
Proof.
  intros H Htop. unfold RtlpRbTreeFixupInsert, get_fuel. unfold bind at 1.
  pose proof (holds_fuel _ _ _ H) as Hf.
  destruct (FixupInsert_loop_spec (fuel_of st) k c l a o r st) as (st1 & Node' & E & H1 & Fr);
    [lia|done|done|].
  rewrite (bind_Some _ _ _ _ _ E). clear E.
  pose proof (ins_fix_nonempty k (Nd c l a o r)) as Hne.
  destruct (ins_fix k (Nd c l a o r)) as [|c1 l1 a1 o1 r1]; [by destruct Hne|].
  rewrite (bind_Some _ _ _ _ _ (root_focus st1 _ [] H1)). simpl.
  destruct (colour_focus black st1 c1 l1 a1 o1 r1 [] H1) as (st2 & E2 & H2 & Fr2).
  exists st2. split_and!; [done|done|by eapply same_frame_trans].
Qed.

Lemma holds_alloc st T n nd (tr : @RB_TREE K Obj) :
  holds st T -> mem st !! n = None ->
  root tr = root (tree st) ->
  holds (mkState tr (<[n := nd]> (mem st))) T.
Proof.
  intros (Hr & Hnd & Hrep) Hn Htr. split_and!; simpl; [congruence|done|].
  apply rep_insert_ne; [|done]. intros Hin.
  destruct (rep_is_Some _ _ _ _ Hrep Hin) as [? ?]. congruence.
Qed.

Lemma tree_of_fresh st T n : tree_of st T -> mem st !! n = None -> n ∉ addrs T.
Proof.
  intros [(_ & _ & Hrep) _] Hn Hin.
  destruct (rep_is_Some _ _ _ _ Hrep Hin) as [? ?]. congruence.
Qed.

Lemma addrs_ins_fix k t : addrs (blacken (ins_fix k t)) ≡ₚ addrs t ++ caddrs k.
Proof.
  rewrite !addrs_inorder, inorder_blacken, ins_fix_inorder, <- !addrs_inorder.
  apply addrs_plug.
Qed.

Lemma InsertNode_spec st T cmp key :
  tree_of st T -> pool_ok st -> compare (tree st) = Some cmp -> root_black T ->
  match pool (tree st) with
  | [] => RtlRbTreeInsertNode key st = Some (None, st)
  | (n, blk) :: rest =>
      match descend cmp key T [] with
      | inl a =>
          RtlRbTreeInsertNode key st
          = Some (Some a, mkState (with_pool ((n, fresh_node blk) :: rest) (tree st)) (mem st))
      | inr k =>
          exists st', RtlRbTreeInsertNode key st = Some (Some n, st')
            /\ tree_of st' (blacken (ins_fix k (Nd red Lf n (object blk) Lf)))
            /\ pool_ok st'
            /\ compare (tree st') = compare (tree st)
            /\ pool (tree st') = rest
            /\ object_size (tree st') = object_size (tree st)
            /\ active (tree st') = active (tree st)
            /\ node_count (tree st') = InterlockedIncrement (node_count (tree st))
            /\ insertion_count (tree st') = InterlockedIncrement (insertion_count (tree st))
            /\ deletion_count (tree st') = deletion_count (tree st)
      end
  end.
Proof.
  intros [H Hdom] [Hpnd Hpfree] Hc Hrb.
  unfold RtlRbTreeInsertNode.
  destruct (pool (tree st)) as [|[n blk] rest] eqn:Hpool.
  { unfold bind, ExAllocateFromLookasideListEx. by rewrite Hpool. }
  apply Forall_cons in Hpfree as [Hn Hrest]. simpl in Hn, Hpnd.
  apply NoDup_cons in Hpnd as [Hnrest Hpnd].
  set (st1 := mkState (with_pool rest (tree st)) (<[n := fresh_node blk]> (mem st))).
  assert (holds st1 T) as H1 by (by apply holds_alloc).
  pose proof (InsertNode_loop_spec cmp key (Some n) st1 T [] (fuel_of st1) 0) as Hloop.
  pose proof (holds_fuel st1 T [] H1) as Hfuel.
  specialize (Hloop Hc H1 ltac:(lia) I). cbn [hp] in Hloop.
  assert (forall (f : ptr -> nat -> ptr -> M ptr),
    bind ExAllocateFromLookasideListEx
      (fun node =>
         match node with
         | None => ret None
         | Some _ =>
             bind (store (set_parent None) node) (fun _ =>
             bind (store (set_left None) node) (fun _ =>
             bind (store (set_right None) node) (fun _ =>
             bind (store (set_colour red) node) (fun _ =>
             bind get_root (fun current =>
             bind get_fuel (fun fuel => f current fuel node))))))
         end) st
    = f (ptr_of T) (fuel_of st1) (Some n) st1) as Hprefix.
  { intros f. unfold bind at 1, ExAllocateFromLookasideListEx. rewrite Hpool.
    do 4 (unfold bind at 1; unfold store at 1; cbn [mem tree]; rewrite lookup_insert_eq;
          rewrite ?insert_insert_eq; cbv beta iota).
    unfold set_parent, set_left, set_right, set_colour.
    cbn [parent left right colour object].
    change (mkNode None None None red (object blk)) with (fresh_node blk).
    fold st1. unfold bind at 1, get_root at 1. unfold bind at 1, get_fuel at 1.
    replace (root (tree st1)) with (ptr_of T) by (symmetry; apply H1). done. }
  destruct (descend cmp key T []) as [a|k] eqn:Hdesc.
  - (* an equal key is there *)
    rewrite Hprefix. unfold bind at 1. rewrite Hloop.
    unfold bind, ExFreeToLookasideListEx, ret. subst st1. cbn [mem tree].
    rewrite lookup_insert_eq. rewrite delete_insert_id by done.
    unfold with_pool. cbn. reflexivity.
  - (* the descent falls out at the hole of [k] *)
    destruct Hloop as (res & Hloop & Hd).
    setoid_rewrite Hprefix. setoid_rewrite (bind_Some _ _ _ _ _ Hloop). cbv beta iota.
    pose proof (descend_plug _ _ _ _ _ Hdesc) as HT. simpl in HT. subst T.
    assert (top_black k) as Htop.
    { destruct k as [|f k]; [done|]. by apply (top_black_plug Lf). }
    assert (n ∉ caddrs k) as Hfresh.
    { intros Hin. destruct H1 as (_ & _ & Hrep).
      apply (tree_of_fresh st (plug Lf k) n); [done|done|].
      rewrite addrs_plug. done. }
    destruct (link_spec st1 k n (fresh_node blk) res H1) as (st2 & E2 & H2 & Fr2);
      [by apply lookup_insert_eq|done|done|done|done|].
    setoid_rewrite E2. clear E2. cbn [fresh_node colour object] in H2.
    destruct (FixupInsert_spec st2 k red Lf n (object blk) Lf H2 Htop) as (st3 & E3 & H3 & Fr3).
    setoid_rewrite (bind_Some _ _ _ _ _ E3). clear E3.
    pose proof (same_frame_trans _ _ _ Fr2 Fr3) as Fr.
    destruct Fr as (F1 & F2 & F3 & F4 & F5 & F6 & F7 & F8). simpl in *.
    eexists. split; [reflexivity|]. simpl.
    split_and!; try done.
    + split; [done|]. simpl. rewrite F8, dom_insert_L, Hdom.
      rewrite addrs_ins_fix. simpl. rewrite addrs_plug. simpl. set_solver.
    + split; simpl; [by rewrite F2|]. rewrite F2.
      rewrite Forall_forall in Hrest. apply Forall_forall. intros [b nb] Hin.
      specialize (Hrest _ Hin). simpl in *.
      apply not_elem_of_dom. rewrite F8, dom_insert_L.
      apply not_elem_of_dom in Hrest.
      assert (b <> n).
      { intros ->. apply Hnrest. apply list_elem_of_fmap. by exists (n, nb). }
      set_solver.
    + by rewrite F5.
    + by rewrite F6.
Qed.

End Insert.

(** * Search and minimum *)

Section Find.
Context {K Obj : Type}.
Implicit Types (t l r : rbt Obj) (k : ctx Obj) (m : gmap addr (@RB_TREE_NODE Obj)).
Implicit Types (st : @State K Obj) (cmp : @RB_COMPARE K Obj).

Lemma find_path_plug cmp key t k k' t' :
  find_path cmp key t k = Some (k', t') ->
  plug t k = plug t' k'
  /\ exists c l a o r, t' = Nd c l a o r /\ (cmp key o =? RB_TREE_EQUAL) = true.
Proof.
  revert k. induction t as [|c l IHl a o r IHr]; intros k; simpl; [done|].
  destruct (cmp key o =? RB_TREE_EQUAL) eqn:E1.
  { intros [= <- <-]. split; [done|]. by exists c, l, a, o, r. }
  destruct (cmp key o =? RB_TREE_LESS_THAN) eqn:E2.
  - by intros ?%IHl.
  - by intros ?%IHr.
Qed.

Lemma FindNode_loop_spec cmp key st : forall t k n,
  compare (tree st) = Some cmp ->
  holds st (plug t k) ->
  (length (addrs t) < n)%nat ->
  RtlpRbTreeFindNode_loop n key (ptr_of t) st
  = Some (found_ptr (find_path cmp key t k), st).
Proof.
  induction t as [|c l IHl a o r IHr]; intros k n Hc H Hn.
  - destruct n; [simpl in Hn; lia|]. done.
  - destruct n; [simpl in Hn; lia|].
    simpl in Hn. rewrite length_app in Hn. simpl in Hn.
    cbn [RtlpRbTreeFindNode_loop find_path ptr_of].
    rewrite (bind_Some _ _ _ _ _ (compare_focus cmp key st c l a o r k Hc H)).
    destruct (cmp key o =? RB_TREE_EQUAL) eqn:E1; [done|].
    destruct (cmp key o =? RB_TREE_LESS_THAN) eqn:E2.
    + rewrite (bind_Some _ _ _ _ _ (load_focus left st c l a o r k H)).
      cbn [left]. apply (IHl (LF c a o r :: k)); [done|done|lia].
    + rewrite (bind_Some _ _ _ _ _ (load_focus right st c l a o r k H)).
      cbn [right]. apply (IHr (RF c l a o :: k)); [done|done|lia].
Qed.

Lemma FindNodeObject_loop_eq key n : forall p st,
  RtlRbTreeFindNodeObject_loop n key p st = RtlpRbTreeFindNode_loop n key p st.
Proof.
  induction n as [|n IH]; intros p st; [done|].
  simpl. destruct p as [a|]; [|done].
  unfold bind. destruct (call_compare key (Some a) st) as [[res st1]|]; [|done].
  destruct (res =? RB_TREE_EQUAL); [done|].
  destruct (res =? RB_TREE_LESS_THAN).
  - destruct (load left (Some a) st1) as [[? ?]|]; [apply IH|done].
  - destruct (load right (Some a) st1) as [[? ?]|]; [apply IH|done].
Qed.

Lemma FindNode_spec cmp key st T :
  compare (tree st) = Some cmp -> holds st T ->
  RtlpRbTreeFindNode key st = Some (found_ptr (find_path cmp key T []), st).
Proof.
  intros Hc H. unfold RtlpRbTreeFindNode.
  rewrite (bind_Some _ _ _ _ _ (root_focus st T [] H)).
  unfold bind at 1, get_fuel at 1. cbv beta iota.
  apply (FindNode_loop_spec cmp key st T []); [done|done|].
  pose proof (holds_fuel st T [] H). lia.
Qed.

Lemma FindNodeObject_spec cmp key st T :
  compare (tree st) = Some cmp -> holds st T ->
  RtlRbTreeFindNodeObject key st = Some (found_ptr (find_path cmp key T []), st).
Proof.
  intros Hc H. unfold RtlRbTreeFindNodeObject.
  rewrite (bind_Some _ _ _ _ _ (root_focus st T [] H)).
  unfold bind at 1, get_fuel at 1. cbv beta iota. rewrite FindNodeObject_loop_eq.
  apply (FindNode_loop_spec cmp key st T []); [done|done|].
  pose proof (holds_fuel st T [] H). lia.
Qed.

(** *** Minimum *)

Lemma min_path_plug t k k' t' :
  t <> Lf -> min_path t k = (k', t') ->
  plug t k = plug t' k' /\ exists c a o r, t' = Nd c Lf a o r.
Proof.
  revert k. induction t as [|c l IHl a o r _]; intros k Hne; [done|].
  simpl. destruct l as [|lc ll la lo lr].
  - intros [= <- <-]. eauto 10.
  - intros H. apply IHl in H; [|done]. done.
Qed.

Lemma min_path_app t k : 
  min_path t k = ((min_path t []).1 ++ k, (min_path t []).2).
Proof.
  revert k. induction t as [|c l IHl a o r _]; intros k; [done|].
  simpl. destruct l as [|lc ll la lo lr]; [done|].
  rewrite (IHl (LF c a o r :: k)), (IHl [LF c a o r]). simpl.
  by rewrite <- app_assoc.
Qed.

Lemma Minimum_loop_spec st : forall t k n,
  t <> Lf -> holds st (plug t k) -> (length (addrs t) < n)%nat ->
  RtlpRbTreeMinimum_loop n (ptr_of t) st = Some (ptr_of (min_path t k).2, st).
Proof.
  induction t as [|c l IHl a o r _]; intros k n Hne H Hn; [done|].
  destruct n; [simpl in Hn; lia|].
  simpl in Hn. rewrite length_app in Hn. simpl in Hn.
  cbn [RtlpRbTreeMinimum_loop ptr_of].
  rewrite (bind_Some _ _ _ _ _ (load_focus left st c l a o r k H)). cbn [left].
  destruct l as [|lc ll la lo lr]; [done|].
  cbn [ptr_of].
  change (Some la) with (ptr_of (Nd lc ll la lo lr)).
  rewrite (IHl (LF c a o r :: k)); [done|done|done|lia].
Qed.

End Find.

(** * Unlinking a node *)

(** [NoDup] of a list whose elements are among those of a duplicate-free
    list, each at most as often. *)
Lemma NoDup_submseteq_mono {A} (l k : list A) : l ⊆+ k -> NoDup k -> NoDup l.
Proof.
  intros [k' Hk]%submseteq_Permutation. rewrite Hk. by intros (? & _)%NoDup_app.
Qed.

Ltac nodup_sub H :=
  unfold distinct in H;
  eapply NoDup_submseteq_mono; [|exact H]; solve_submseteq.

Ltac close_sub1 Hnd :=
  lazymatch goal with
  | |- root _ = _ => simpl; rewrite ?ptr_of_plug; simpl; done
  | |- NoDup _ => rewrite ?addrs_plug; simpl; nodup_sub Hnd
  | |- _ => solve_rep
  end.

Ltac close_sub Hnd := split; [|split]; close_sub1 Hnd.

Section Unlink.
Context {K Obj : Type}.
Implicit Types (t l r : rbt Obj) (k : ctx Obj) (m : gmap addr (@RB_TREE_NODE Obj)).
Implicit Types (st : @State K Obj) (cmp : @RB_COMPARE K Obj).

Lemma plug_app t k1 k2 : plug t (k1 ++ k2) = plug (plug t k1) k2.
Proof.
  revert t. induction k1 as [|[c a o r|c l a o] k1 IH]; intros t; simpl; [done|..];
    apply IH.
Qed.

Lemma caddrs_app k1 k2 : caddrs (k1 ++ k2) = caddrs k1 ++ caddrs k2.
Proof.
  induction k1 as [|[c a o r|c l a o] k1 IH]; simpl; [done|..];
    by rewrite IH, <- app_assoc.
Qed.

Lemma plug_nonempty t f k : exists c l a o r, plug t (f :: k) = Nd c l a o r.
Proof.
  revert t f. induction k as [|f' k IH]; intros t f.
  - destruct f; simpl; eauto 10.
  - destruct f as [c a o r|c l a o].
    + apply (IH (Nd c t a o r) f').
    + apply (IH (Nd c l a o t) f').
Qed.

Lemma plug_ne t k : t <> Lf -> plug t k <> Lf.
Proof.
  intros Ht. destruct k as [|f k]; [done|].
  destruct (plug_nonempty t f k) as (? & ? & ? & ? & ? & ->). done.
Qed.

(** Transplanting the only child of a node over it. *)
Lemma transplant_right_spec st c a o r k :
  holds st (plug (Nd c Lf a o r) k) ->
  exists st', RtlpRbTreeTransplant (Some a) (ptr_of r) st = Some (tt, st')
    /\ holds st' (plug r k)
    /\ same_frame st st'
    /\ mem st' !! a = mem st !! a.
Proof.
  intros H. destruct st as [T m]. unfold RtlpRbTreeTransplant.
  destruct r as [|rc rl x ro rr]; destruct k as [|[pc p po s|pc s p po] k];
    open_tree H.
  all: exec; (eexists; split; [reflexivity|]).
  all: split; [close_sub Hnd|split; [solve_frame|]].
  all: simpl; lk; done.
Qed.

Lemma transplant_left_spec st c l a o k :
  holds st (plug (Nd c l a o Lf) k) ->
  exists st', RtlpRbTreeTransplant (Some a) (ptr_of l) st = Some (tt, st')
    /\ holds st' (plug l k)
    /\ same_frame st st'
    /\ mem st' !! a = mem st !! a.
Proof.
  intros H. destruct st as [T m]. unfold RtlpRbTreeTransplant.
  destruct l as [|lc ll x lo lr]; destruct k as [|[pc p po s|pc s p po] k];
    open_tree H.
  all: exec; (eexists; split; [reflexivity|]).
  all: split; [close_sub Hnd|split; [solve_frame|]].
  all: simpl; lk; done.
Qed.

(** The target [a], with two children, is replaced by its successor [s],
    the root of its right subtree. *)
Lemma replace_near_spec st c l a o sc s so sr k :
  holds st (plug (Nd c l a o (Nd sc Lf s so sr)) k) -> l <> Lf ->
  exists st',
    (forall B (g : unit -> M B),
       bind (when_present (ptr_of sr) (store (set_parent (Some s)) (ptr_of sr))) (fun _ =>
       bind (RtlpRbTreeTransplant (Some a) (Some s)) (fun _ =>
       bind (load left (Some a)) (fun tl =>
       bind (store (set_left tl) (Some s)) (fun _ =>
       bind (load left (Some s)) (fun sl =>
       bind (store (set_parent (Some s)) sl) (fun _ =>
       bind (load colour (Some a)) (fun tc =>
       bind (store (set_colour tc) (Some s)) g))))))) st = g tt st')
    /\ holds st' (plug (Nd c l s so sr) k)
    /\ same_frame st st'
    /\ is_Some (mem st' !! a).
Proof.
  intros H Hl. destruct st as [T m]. unfold RtlpRbTreeTransplant.
  destruct l as [|lc ll x lo lr]; [done|].
  destruct sr as [|rc rl y ro rr]; destruct k as [|[pc p po u|pc u p po] k];
    open_tree H.
  all: eexists; split; [intros B g; exec; reflexivity|].
  all: split; [close_sub Hnd|split; [solve_frame|]].
  all: simpl; lk; eauto.
Qed.

(** The target [a], with two children, is replaced by the block [s], which
    is not in the tree. *)
Lemma replace_far_spec st c l a o r' k s sblk :
  holds st (plug (Nd c l a o r') k) -> l <> Lf -> r' <> Lf ->
  mem st !! s = Some sblk -> s ∉ addrs (plug (Nd c l a o r') k) ->
  exists st',
    (forall B (g : unit -> M B),
       bind (store (set_right (ptr_of r')) (Some s)) (fun _ =>
       bind (bind (load right (Some s)) (fun sr => store (set_parent (Some s)) sr))
         (fun _ =>
       bind (RtlpRbTreeTransplant (Some a) (Some s)) (fun _ =>
       bind (load left (Some a)) (fun tl =>
       bind (store (set_left tl) (Some s)) (fun _ =>
       bind (load left (Some s)) (fun sl =>
       bind (store (set_parent (Some s)) sl) (fun _ =>
       bind (load colour (Some a)) (fun tc =>
       bind (store (set_colour tc) (Some s)) g)))))))) st = g tt st')
    /\ holds st' (plug (Nd c l s (object sblk) r') k)
    /\ same_frame st st'
    /\ is_Some (mem st' !! a).
Proof.
  intros H Hl Hr Hs Hfresh. destruct st as [T m]. unfold RtlpRbTreeTransplant.
  destruct l as [|lc ll x lo lr]; [done|].
  destruct r' as [|rc rl y ro rr]; [done|].
  destruct sblk as [sp sl sr sc so].
  pose proof (holds_open _ _ _ H) as (Hroot & Hnd0 & Ht & Hk).
  rewrite addrs_plug in Hfresh. unfold distinct in Hnd0.
  assert (NoDup (s :: addrs (Nd c (Nd lc ll x lo lr) a o (Nd rc rl y ro rr)) ++ caddrs k))
    as Hnd by (by apply NoDup_cons).
  clear Hnd0 Hfresh.
  destruct k as [|[pc p po u|pc u p po] k];
    simpl in Hroot, Ht, Hk, Hs; destruct_and?; mark_distinct Hnd.
  all: eexists; split; [intros B g; exec; reflexivity|].
  all: split; [close_sub Hnd|split; [solve_frame|]].
  all: simpl; lk; eauto.
Qed.

Lemma holds_fresh_focus st c l a o r k :
  holds st (plug (Nd c l a o r) k) -> (a ∉ addrs (plug l k)) /\ (a ∉ addrs (plug r k)).
Proof.
  intros (_ & Hnd & _). rewrite addrs_plug in Hnd. simpl in Hnd.
  rewrite !addrs_plug. rewrite <- app_assoc in Hnd. simpl in Hnd.
  apply NoDup_app in Hnd as (_ & Hl & Hnd). apply NoDup_cons in Hnd as [Ha _].
  rewrite elem_of_app in Ha.
  split; intros [Hin|Hin]%elem_of_app; try (by apply Ha; auto).
  apply (Hl _ Hin). apply list_elem_of_here.
Qed.

Lemma unlink_spec st c l a o r k :
  holds st (plug (Nd c l a o r) k) ->
  exists st',
    RtlRbTreeDeleteNode_unlink (Some a) st
    = Some (((unlink_shape c l a o r k).1.1, ptr_of (unlink_shape c l a o r k).1.2), st')
    /\ holds st' (plug (unlink_shape c l a o r k).1.2 (unlink_shape c l a o r k).2)
    /\ same_frame st st'
    /\ is_Some (mem st' !! a).
Proof.
  intros H. unfold RtlRbTreeDeleteNode_unlink.
  destruct l as [|lc ll la lo lr].
  { (* no left child *)
    steps.
    destruct (transplant_right_spec st c a o r k H) as (st1 & E1 & H1 & Fr1 & Ha).
    rewrite (bind_Some _ _ _ _ _ E1). exists st1. simpl. split_and!; try done.
    rewrite Ha. apply holds_open in H as (_ & _ & (-> & _) & _). eauto. }
  destruct r as [|rc rl ra ro rr].
  { (* no right child *)
    steps.
    destruct (transplant_left_spec st c (Nd lc ll la lo lr) a o k H)
      as (st1 & E1 & H1 & Fr1 & Ha).
    rewrite (bind_Some _ _ _ _ _ E1). exists st1. simpl. split_and!; try done.
    rewrite Ha. apply holds_open in H as (_ & _ & (-> & _) & _). eauto. }
  (* two children *)
  steps.
  set (l := Nd lc ll la lo lr) in *. set (r := Nd rc rl ra ro rr) in *.
  assert (l <> Lf) as Hl by done. assert (r <> Lf) as Hr by done.
  change (Some ra) with (ptr_of r).
  destruct (min_path r []) as [k2 t'] eqn:Emin.
  destruct (min_path_plug r [] k2 t' Hr Emin) as (Hplug & sc & s & so & sr & ->).
  simpl in Hplug.
  assert (unlink_shape c l a o r k = (sc, sr, k2 ++ RF c l s so :: k)) as ->.
  { unfold unlink_shape. subst l r. by rewrite Emin. }
  cbn [fst snd].
  clearbody l r.
  unfold RtlpRbTreeMinimum. rewrite bind_assoc. unfold bind at 1, get_fuel at 1.
  pose proof (Minimum_loop_spec st r (RF c l a o :: k) (fuel_of st) Hr H) as Hmin.
  pose proof (holds_fuel st r (RF c l a o :: k) H) as Hf.
  specialize (Hmin ltac:(lia)). rewrite min_path_app, Emin in Hmin.
  cbn [fst snd ptr_of] in Hmin.
  rewrite (bind_Some _ _ _ _ _ Hmin). clear Hmin.
  assert (holds st (plug (Nd sc Lf s so sr) (k2 ++ RF c l a o :: k))) as H'.
  { by rewrite plug_app, <- Hplug. }
  clear Emin Hf.
  destruct k2 as [|f k2].
  - (* the successor is the right child of the target *)
    simpl in Hplug. subst r. clear H'. steps.
    destruct (replace_near_spec st c l a o sc s so sr k H Hl) as (st1 & E1 & H1 & Fr1 & Ha).
    rewrite E1. exists st1. done.
  - (* the successor is further down *)
    clear H. rename H' into H.
    rewrite (bind_Some _ _ _ _ _ (load_focus colour st sc Lf s so sr _ H)).
    rewrite (bind_Some _ _ _ _ _ (load_focus right st sc Lf s so sr _ H)).
    rewrite (bind_Some _ _ _ _ _ (load_focus parent st sc Lf s so sr _ H)).
    cbn [colour right parent hp app ptr_of].
    assert (faddr f <> a) as Hfa.
    { pose proof (holds_open _ _ _ H) as (_ & Hnd & _ & _). unfold distinct in Hnd.
      rewrite caddrs_app in Hnd. apply NoDup_app in Hnd as (_ & _ & Hnd).
      apply NoDup_app in Hnd as (_ & Hnd & _).
      intros E. apply (Hnd (faddr f)).
      - destruct f; simpl; apply list_elem_of_here.
      - rewrite E. simpl. apply list_elem_of_here. }
    rewrite (bool_decide_eq_false_2 (Some (faddr f) = Some a)) by congruence.
    norm.
    rewrite (bind_Some _ _ _ _ _ (load_focus right st sc Lf s so sr _ H)); cbn [right]; norm.
    destruct (transplant_right_spec st sc s so sr _ H) as (st1 & E1 & H1 & Fr1 & Hs).
    rewrite (bind_Some _ _ _ _ _ E1); clear E1; norm.
    rewrite plug_app in H1.
    replace (plug sr (f :: k2 ++ RF c l s so :: k))
      with (plug (plug sr (f :: k2)) (RF c l s so :: k))
      by (by rewrite <- plug_app).
    assert (plug sr (f :: k2) <> Lf) as Hr'.
    { destruct (plug_nonempty sr f k2) as (? & ? & ? & ? & ? & ->). done. }
    assert (mem st1 !! s = Some (mkNode (Some (faddr f)) None (ptr_of sr) sc so)) as Hs1.
    { rewrite Hs. apply holds_open in H as (_ & _ & (-> & _) & _). done. }
    assert (s ∉ addrs (plug (plug sr (f :: k2)) (RF c l a o :: k))) as Hfresh.
    { rewrite <- plug_app. apply (holds_fresh_focus _ _ _ _ _ _ _ H). }
    clear H Hs Hplug.
    generalize dependent (plug sr (f :: k2)). intros r' H1 Hr' Hfresh.
    cbn [plug] in H1, Hfresh |- *.
    steps.
    destruct (replace_far_spec st1 c l a o r' k s _ H1 Hl Hr' Hs1 Hfresh)
      as (st2 & E2 & H2 & Fr2 & Ha).
    rewrite E2. exists st2. split_and!; [done|done|by eapply same_frame_trans|done].
Qed.

End Unlink.

(** * The deletion fix-up *)

Section Top_black.
Context {Obj : Type}.
Implicit Types (k : ctx Obj).

Lemma top_black_tl (f : frame Obj) k : top_black (f :: k) -> top_black k.
Proof. unfold top_black. destruct k; [done|]. by rewrite last_cons_cons. Qed.

Lemma top_black_cons (f f' : frame Obj) k :
  top_black (f' :: k) -> (k = [] -> fcol f = black) -> top_black (f :: k).
Proof.
  unfold top_black. destruct k as [|f2 k]; [simpl; auto|]. by rewrite !last_cons_cons.
Qed.

End Top_black.

Ltac solve_inorder :=
  try lazymatch goal with |- _ = ?L => is_var L; unfold L end;
  rewrite ?inorder_plug; simpl; repeat (progress (rewrite <- ?app_assoc; simpl));
  reflexivity.

(** Case split on a subtree whose root pointer the program inspects. *)
Ltac split_shape :=
  match goal with
  | |- context [ptr_of ?s] =>
      is_var s;
      let c := fresh "c" in
      destruct s as [|c ? ? ? ?]
  | |- context [colour_eqb ?c _] => is_var c; destruct c
  | |- context [if ?c then _ else _] =>
      is_var c; destruct c
  end.

Ltac solve_top Htop :=
  first [ exact I
        | exact Htop
        | eapply top_black_tl; exact Htop
        | eapply top_black_cons; [exact Htop|intros _; reflexivity] ].

Ltac solve_mu := unfold mu in *; simpl in *; repeat case_match; lia.

Ltac recurD IH Htop :=
  lazymatch goal with
  | |- fixD_ok _ _ (_ _ (Some ?x) ?st) =>
      lazymatch goal with
      | H : holds st _ |- _ =>
          let p := focus_of H x in
          lazymatch p with
          | (Nd ?c ?l _ ?o ?r, ?k) =>
              eapply (IH k c l x o r st);
                [ exact H | solve_top Htop | solve_mu | eassumption | solve_inorder ]
          end
      end
  end.

Ltac to_root IHroot :=
  lazymatch goal with
  | |- fixD_ok _ _ (_ _ ?p ?st) =>
      lazymatch goal with
      | H : holds st ?T |- _ =>
          replace p with (ptr_of T) by (rewrite ?ptr_of_plug; reflexivity);
          eapply (IHroot T st);
            [ exact H | by apply plug_ne | solve_mu | eassumption | solve_inorder ]
      end
  end.

Ltac drive := repeat first [progress norm | progress bd_held | step | split_shape].

Section Delete_fixup.
Context {K Obj : Type}.
Implicit Types (t l r : rbt Obj) (k : ctx Obj) (m : gmap addr (@RB_TREE_NODE Obj)).
Implicit Types (st : @State K Obj) (cmp : @RB_COMPARE K Obj).

Lemma FixupDelete_loop_spec n : forall k c l a o r st,
  holds st (plug (Nd c l a o r) k) -> top_black k -> (mu k c < n)%nat ->
  fixD_ok st (inorder (plug (Nd c l a o r) k))
    (RtlpRbTreeFixupDelete_loop n (Some a) st).
Proof.
  induction n as [|n IH]; intros k c l a o r st H Htop Hn; [lia|].
  set (L := inorder (plug (Nd c l a o r) k)).
  pose proof (same_frame_refl st) as Fr0.
  assert (forall k' c' l' a' o' r' st1,
    holds st1 (plug (Nd c' l' a' o' r') k') -> top_black k' -> (mu k' c' < n)%nat ->
    same_frame st st1 -> inorder (plug (Nd c' l' a' o' r') k') = L ->
    fixD_ok st L (RtlpRbTreeFixupDelete_loop n (Some a') st1)) as IH'.
  { intros k' c' l' a' o' r' st1 H1 Ht1 Hn1 Fr1 HL.
    destruct (IH k' c' l' a' o' r' st1 H1 Ht1 Hn1)
      as (st' & c2 & l2 & a2 & o2 & r2 & k2 & E & H2 & HL2 & Ht2 & Fr2).
    exists st', c2, l2, a2, o2, r2, k2. split_and!; try done; [congruence|].
    by eapply same_frame_trans. }
  assert (forall T st1, holds st1 T -> T <> Lf -> (0 < n)%nat ->
    same_frame st st1 -> inorder T = L ->
    fixD_ok st L (RtlpRbTreeFixupDelete_loop n (ptr_of T) st1)) as IHroot.
  { intros T st1 H1 HT Hn1 Fr1 HL. destruct T as [|c' l' a' o' r']; [done|].
    apply (IH' [] c' l' a' o' r' st1); try done. by destruct c'. }
  clear IH.
  cbn [RtlpRbTreeFixupDelete_loop].
  destruct k as [|[pc p po s|pc s p po] k].
  - (* Node is the root *)
    simpl in H. steps. exists st, c, l, a, o, r, []. done.
  - destruct c.
    { simpl in H. steps. exists st, red, l, a, o, r, (LF pc p po s :: k). done. }
    simpl in H, Hn. unfold andM. drive.
    all: first [recurD IH' Htop | to_root IHroot].
  - destruct c.
    { simpl in H. steps. exists st, red, l, a, o, r, (RF pc s p po :: k). done. }
    simpl in H, Hn. unfold andM. drive.
    all: first [recurD IH' Htop | to_root IHroot].
Qed.

Lemma FixupDelete_loop_exit n st c l a o r k :
  holds st (plug (Nd c l a o r) k) -> c = red \/ k = [] ->
  RtlpRbTreeFixupDelete_loop (S n) (Some a) st = Some (Some a, st).
Proof.
  intros H Hc. cbn [RtlpRbTreeFixupDelete_loop].
  destruct k as [|f k].
  - simpl in H. by steps.
  - destruct Hc as [->|?]; [|done]. destruct f; simpl in H; by steps.
Qed.

Lemma root_black_top c l a o r k :
  top_black k -> (k = [] -> c = black) -> root_black (plug (Nd c l a o r) k).
Proof.
  intros Htop Hc. destruct (decide (k = [])) as [->|Hk]; [by apply Hc|].
  by apply top_black_plug.
Qed.

Lemma FixupDelete_spec st c l a o r k :
  holds st (plug (Nd c l a o r) k) -> top_black k ->
  exists st' T', RtlpRbTreeFixupDelete (Some a) st = Some (tt, st')
    /\ holds st' T'
    /\ inorder T' = inorder (plug (Nd c l a o r) k)
    /\ root_black T'
    /\ same_frame st st'
    /\ (c = red \/ k = [] -> T' = plug (Nd black l a o r) k).
Proof.
  intros H Htop. unfold RtlpRbTreeFixupDelete, get_fuel. unfold bind at 1.
  pose proof (holds_fuel _ _ _ H) as Hf.
  destruct (decide (c = red \/ k = [])) as [Hc|Hc].
  - unfold fuel_of.
    rewrite (bind_Some _ _ _ _ _ (FixupDelete_loop_exit _ st c l a o r k H Hc)).
    destruct (colour_focus black st c l a o r k H) as (st2 & E2 & H2 & Fr2).
    exists st2, (plug (Nd black l a o r) k). split_and!; try done.
    + by rewrite !inorder_plug.
    + by apply root_black_top.
  - destruct (FixupDelete_loop_spec (fuel_of st) k c l a o r st)
      as (st1 & c1 & l1 & a1 & o1 & r1 & k1 & E & H1 & HL & Ht1 & Fr1); [done|done| |].
    { unfold mu. destruct c; simpl in *; lia. }
    rewrite (bind_Some _ _ _ _ _ E). clear E.
    destruct (colour_focus black st1 c1 l1 a1 o1 r1 k1 H1) as (st2 & E2 & H2 & Fr2).
    exists st2, (plug (Nd black l1 a1 o1 r1) k1). split_and!; try done.
    + rewrite <- HL. by rewrite !inorder_plug.
    + by apply root_black_top.
    + by eapply same_frame_trans.
Qed.

End Delete_fixup.

(** * RtlRbTreeDeleteNode *)

Section Delete_pure.
Context {Obj : Type}.
Implicit Types (t l r : rbt Obj) (k : ctx Obj).

Lemma min_path_cleft t k : cleft (min_path t k).1 = cleft k.
Proof.
  revert k. induction t as [|c l IHl a o r _]; intros k; [done|].
  simpl. destruct l as [|lc ll la lo lr]; [done|].
  by rewrite IHl.
Qed.

Lemma min_path_top t k :
  k <> [] -> last (min_path t k).1 = last k.
Proof.
  revert k. induction t as [|c l IHl a o r _]; intros k Hk; [done|].
  simpl. destruct l as [|lc ll la lo lr]; [done|].
  rewrite IHl by done. destruct k; [done|]. by rewrite last_cons_cons.
Qed.

(** The shape of the two-children case. *)
Lemma unlink_two c lc ll la lo lr a o rc rl ra ro rr k :
  exists k2 sc s so sr,
    Nd rc rl ra ro rr = plug (Nd sc Lf s so sr) k2
    /\ cleft k2 = []
    /\ unlink_shape c (Nd lc ll la lo lr) a o (Nd rc rl ra ro rr) k
       = (sc, sr, k2 ++ RF c (Nd lc ll la lo lr) s so :: k).
Proof.
  pose proof (min_path_cleft (Nd rc rl ra ro rr) []) as Hcl.
  unfold unlink_shape.
  destruct (min_path (Nd rc rl ra ro rr) []) as [k2 m] eqn:E.
  apply min_path_plug in E as [E (sc & s & so & sr & ->)]; [|done].
  exists k2, sc, s, so, sr. done.
Qed.

Lemma unlink_inorder c l a o r k :
  inorder (plug (unlink_shape c l a o r k).1.2 (unlink_shape c l a o r k).2)
  = cleft k ++ inorder l ++ inorder r ++ cright k.
Proof.
  destruct l as [|lc ll la lo lr]; [simpl; by rewrite inorder_plug|].
  destruct r as [|rc rl ra ro rr].
  { simpl. rewrite inorder_plug. simpl. by rewrite <- !app_assoc. }
  destruct (unlink_two c lc ll la lo lr a o rc rl ra ro rr k)
    as (k2 & sc & s & so & sr & Er & Hcl & ->).
  rewrite Er. simpl. rewrite plug_app. simpl. rewrite !inorder_plug. simpl.
  rewrite !inorder_plug, Hcl. simpl.
  repeat (progress (rewrite <- ?app_assoc; simpl)). done.
Qed.

Lemma delete_shape_inorder c l a o r k :
  inorder (delete_shape c l a o r k) = cleft k ++ inorder l ++ inorder r ++ cright k.
Proof.
  rewrite <- (unlink_inorder c l a o r k). unfold delete_shape. rewrite !inorder_plug.
  destruct (colour_eqb _ _); by rewrite ?inorder_blacken.
Qed.

Lemma top_black_app k1 (f : frame Obj) k :
  top_black (k1 ++ f :: k) <-> top_black (f :: k).
Proof.
  unfold top_black. rewrite last_app.
  destruct (last (f :: k)) eqn:E; [done|]. by apply last_None in E.
Qed.

Lemma root_black_top_inv c l a o r k :
  root_black (plug (Nd c l a o r) k) -> top_black k /\ (k = [] -> c = black).
Proof.
  intros H. destruct (decide (k = [])) as [->|Hk]; [done|].
  split; [|done]. by eapply top_black_plug.
Qed.

Lemma top_black_one (f : frame Obj) k :
  top_black k -> (k = [] -> fcol f = black) -> top_black (f :: k).
Proof.
  unfold top_black. destruct k as [|f2 k]; [simpl; auto|]. by rewrite !last_cons_cons.
Qed.

(** The path to the child left by the unlinking ends at a black node. *)
Lemma unlink_top c l a o r k :
  root_black (plug (Nd c l a o r) k) -> top_black (unlink_shape c l a o r k).2.
Proof.
  intros [Htop Hc]%root_black_top_inv.
  destruct l as [|lc ll la lo lr]; [done|].
  destruct r as [|rc rl ra ro rr]; [done|].
  destruct (unlink_two c lc ll la lo lr a o rc rl ra ro rr k)
    as (k2 & sc & s & so & sr & Er & Hcl & ->).
  simpl. apply top_black_app. by apply top_black_one.
Qed.

(** Without a fix-up the root stays black. *)
Lemma unlink_root_black c l a o r k :
  root_black (plug (Nd c l a o r) k) ->
  (colour_eqb (unlink_shape c l a o r k).1.1 black
   && present (ptr_of (unlink_shape c l a o r k).1.2) = false) ->
  root_black (plug (unlink_shape c l a o r k).1.2 (unlink_shape c l a o r k).2).
Proof.
  intros Hrb Hb. pose proof (unlink_top _ _ _ _ _ _ Hrb) as Htop.
  apply root_black_top_inv in Hrb as [_ Hc].
  destruct (decide ((unlink_shape c l a o r k).2 = [])) as [E|E];
    [|by apply top_black_plug].
  rewrite E. simpl.
  destruct l as [|lc ll la lo lr].
  { simpl in *. subst k. rewrite Hc in Hb by done. by destruct r. }
  destruct r as [|rc rl ra ro rr].
  { simpl in *. subst k. rewrite Hc in Hb by done. done. }
  destruct (unlink_two c lc ll la lo lr a o rc rl ra ro rr k)
    as (k2 & sc & s & so & sr & Er & Hcl & Eu).
  rewrite Eu in E. simpl in E. by destruct k2.
Qed.

Lemma bheight_zero t : bheight t = Some 0%nat -> t <> Lf -> rootc t = red.
Proof.
  destruct t as [|c l a o r]; [done|]. intros H _.
  apply bheight_Nd_inv in H as (h & _ & _ & E). by destruct c.
Qed.

Lemma bheight_plug_inv t k : is_Some (bheight (plug t k)) -> is_Some (bheight t).
Proof. rewrite bh_plug. intros [h H]. by destruct (bheight t). Qed.

(** In a tree of uniform black height a black node with one child has a
    red child. *)
Lemma fixup_trivial_bh c l a o r k :
  is_Some (bheight (plug (Nd c l a o r) k)) -> fixup_trivial c l a o r k.
Proof.
  intros [h Hh]%bheight_plug_inv.
  apply bheight_Nd_inv in Hh as (h' & Hl & Hr & _).
  unfold fixup_trivial.
  destruct l as [|lc ll la lo lr].
  { simpl. intros _ Hne. left. apply bheight_zero; [|done].
    apply bheight_Lf_inv in Hl. by subst. }
  destruct r as [|rc rl ra ro rr].
  { simpl. intros _ Hne. left. apply (bheight_zero (Nd lc ll la lo lr)); [|done].
    apply bheight_Lf_inv in Hr. by subst. }
  destruct (unlink_two c lc ll la lo lr a o rc rl ra ro rr k)
    as (k2 & sc & s & so & sr & Er & Hcl & ->).
  simpl. intros _ Hne. left. apply bheight_zero; [|done].
  rewrite Er in Hr.
  assert (is_Some (bheight (Nd sc Lf s so sr))) as [h2 H2]
    by (eapply bheight_plug_inv; eauto).
  apply bheight_Nd_inv in H2 as (h3 & H3 & H4 & _).
  apply bheight_Lf_inv in H3. by subst.
Qed.

(** Deletion creates no red node with a red parent. *)
Lemma delete_shape_nrr c l a o r k :
  no_red_red (plug (Nd c l a o r) k) -> no_red_red (delete_shape c l a o r k).
Proof.
  intros (Ht & Hk & Hp)%nrr_plug. simpl in Ht, Hp.
  destruct Ht as (Hc & Hl & Hr). unfold delete_shape.
  destruct l as [|lc ll la lo lr].
  { simpl. apply nrr_plug. destruct c; cbn [colour_eqb].
    - split; [|split]; [done|done|]. intros E. destruct Hc as [_ Hc]; [done|]. congruence.
    - split; [|split]; [by apply nrr_blacken|done|]. by destruct r. }
  destruct r as [|rc rl ra ro rr].
  { simpl. apply nrr_plug. destruct c; cbn [colour_eqb].
    - split; [|split]; [done|done|]. intros E. destruct Hc as [Hc _]; [done|]. congruence.
    - split; [|split]; [by apply (nrr_blacken (Nd lc ll la lo lr))|done|done]. }
  destruct (unlink_two c lc ll la lo lr a o rc rl ra ro rr k)
    as (k2 & sc & s & so & sr & Er & Hcl & ->).
  cbn [fst snd]. rewrite plug_app. cbn [plug]. apply nrr_plug.
  rewrite Er in Hr. apply nrr_plug in Hr as (Hs & Hk2 & Hp2).
  simpl in Hs, Hp2. destruct Hs as (Hsc & _ & Hsr).
  set (sr' := if colour_eqb sc black then blacken sr else sr).
  assert (no_red_red sr') as Hsr'.
  { unfold sr'. destruct sc; simpl; [done|by apply nrr_blacken]. }
  assert (rootc sr' = black) as Hrc.
  { unfold sr'. destruct sc; simpl; [by apply Hsc|by destruct sr]. }
  split; [|split]; [|done|done]. cbn [no_red_red].
  split; [|split]; [|done|].
  - intros ->. destruct Hc as [Hc1 Hc2]; [done|]. split; [done|].
    destruct (decide (k2 = [])) as [->|Hk2ne]; [done|].
    rewrite Er in Hc2. by rewrite rootc_plug in Hc2 |- * by done.
  - apply nrr_plug. split; [|split]; [done|done|]. congruence.
Qed.

End Delete_pure.

Section Delete_spec.
Context {K Obj : Type}.
Implicit Types (st : @State K Obj) (t l r : rbt Obj) (k : ctx Obj).

Lemma NoDup_middle (X Y : list addr) a : NoDup (X ++ a :: Y) -> a ∉ X ++ Y.
Proof.
  intros (HX & Hd & HY)%NoDup_app. apply NoDup_cons in HY as [HaY _].
  rewrite elem_of_app. intros [Hin|Hin]; [|done].
  apply (Hd _ Hin). apply list_elem_of_here.
Qed.

Lemma diff_middle (A B : gset addr) a :
  a ∉ A -> a ∉ B -> (A ∪ ({[a]} ∪ B)) ∖ {[a]} = A ∪ B.
Proof. set_solver. Qed.

Lemma dom_same_None st st' x :
  dom (mem st') = dom (mem st) -> mem st !! x = None -> mem st' !! x = None.
Proof. intros Hd Hx. apply not_elem_of_dom. rewrite Hd. by apply not_elem_of_dom. Qed.

Lemma DeleteNode_spec st T cmp key :
  tree_of st T -> pool_ok st -> compare (tree st) = Some cmp -> root_black T ->
  match find_path cmp key T [] with
  | None => RtlRbTreeDeleteNode key st = Some (tt, st)
  | Some (k, t) =>
      exists c l a o r, t = Nd c l a o r /\ T = plug t k /\
      exists st' T' blk,
        RtlRbTreeDeleteNode key st = Some (tt, st')
        /\ tree_of st' T' /\ pool_ok st'
        /\ inorder T' = cleft k ++ inorder l ++ inorder r ++ cright k
        /\ root_black T'
        /\ (fixup_trivial c l a o r k -> T' = delete_shape c l a o r k)
        /\ compare (tree st') = compare (tree st)
        /\ pool (tree st') = (a, blk) :: pool (tree st)
        /\ object_size (tree st') = object_size (tree st)
        /\ active (tree st') = active (tree st)
        /\ node_count (tree st') = InterlockedDecrement (node_count (tree st))
        /\ insertion_count (tree st') = insertion_count (tree st)
        /\ deletion_count (tree st') = InterlockedIncrement (deletion_count (tree st))
  end.
Proof.
  intros [H Hdom] [Hpnd Hpfree] Hcmp Hrb.
  unfold RtlRbTreeDeleteNode.
  rewrite (bind_Some _ _ _ _ _ (FindNode_spec cmp key st T Hcmp H)).
  destruct (find_path cmp key T []) as [[k t]|] eqn:Ef; [|done].
  apply find_path_plug in Ef as [ET (c & l & a & o & r & -> & Heq)].
  simpl in ET. subst T. exists c, l, a, o, r. split; [done|]. split; [done|].
  cbn [found_ptr ptr_of].
  destruct (unlink_spec st c l a o r k H) as (st1 & E1 & H1 & Fr1 & Ha1).
  rewrite (bind_Some _ _ _ _ _ E1). cbn [fst snd]. clear E1.
  pose proof (unlink_top c l a o r k Hrb) as Htop.
  pose proof (unlink_root_black c l a o r k Hrb) as Hnofix.
  pose proof (unlink_inorder c l a o r k) as Hin.
  unfold fixup_trivial, delete_shape.
  destruct (unlink_shape c l a o r k) as [[ec child] kc]. cbn [fst snd] in *.
  assert (exists st2 T2,
    (if colour_eqb ec black && present (ptr_of child)
     then RtlpRbTreeFixupDelete (ptr_of child) else ret tt) st1 = Some (tt, st2)
    /\ holds st2 T2 /\ inorder T2 = inorder (plug child kc) /\ root_black T2
    /\ same_frame st1 st2
    /\ ((ec = black -> child <> Lf -> rootc child = red \/ kc = []) ->
        T2 = plug (if colour_eqb ec black then blacken child else child) kc))
    as (st2 & T2 & E2 & H2 & HL2 & Hrb2 & Fr2 & Hex).
  { destruct (colour_eqb ec black && present (ptr_of child)) eqn:Eb.
    - apply andb_prop in Eb as [Ec Ep].
      destruct child as [|cc cl ca co cr]; [done|].
      destruct (FixupDelete_spec st1 cc cl ca co cr kc H1 Htop)
        as (st2 & T2 & E2 & H2 & HL & Hrb2 & Fr2 & Hex).
      exists st2, T2. split_and!; try done.
      intros Htriv. rewrite Ec. apply Hex. apply Htriv; [by destruct ec|done].
    - exists st1, (plug child kc). split_and!; try done.
      + by apply Hnofix.
      + intros _. destruct ec; [done|]. by destruct child. }
  rewrite (bind_Some _ _ _ _ _ E2). clear E2.
  pose proof (same_frame_trans _ _ _ Fr1 Fr2) as Fr.
  destruct Fr as (F1 & F2 & F3 & F4 & F5 & F6 & F7 & F8).
  assert (is_Some (mem st2 !! a)) as [blk Hblk].
  { apply elem_of_dom. destruct Fr2 as (_ & _ & _ & _ & _ & _ & _ & Hd).
    rewrite Hd. by apply elem_of_dom. }
  assert (a ∈ dom (mem st)) as Hadom.
  { rewrite <- F8. apply elem_of_dom. eauto. }
  set (X := map fst (cleft k ++ inorder l)).
  set (Y := map fst (inorder r ++ cright k)).
  assert (addrs (plug (Nd c l a o r) k) = X ++ a :: Y) as EX.
  { rewrite addrs_inorder, inorder_plug. unfold X, Y. simpl.
    rewrite !map_app. simpl. by rewrite <- !app_assoc. }
  assert (addrs T2 = X ++ Y) as EY.
  { rewrite addrs_inorder, HL2, Hin. unfold X, Y. by rewrite !map_app, <- !app_assoc. }
  assert (a ∉ addrs T2) as Hfresh.
  { rewrite EY. apply NoDup_middle. rewrite <- EX. apply H. }
  unfold bind, ExFreeToLookasideListEx, RtlpRbTreeIncrementDeletionCount,
    RtlpRbTreeDecrementNodeCount. rewrite Hblk. cbn [tree mem].
  eexists _, T2, blk. split; [reflexivity|].
  destruct H2 as (Hr2 & Hnd2 & Hrep2).
  split_and!; simpl; try done; try congruence.
  - split; [split_and!; simpl; [done|done|by apply rep_delete_ne]|].
    simpl. rewrite dom_delete_L, F8, Hdom, EX, EY.
    rewrite EY in Hfresh. rewrite !list_to_set_app_L, list_to_set_cons.
    rewrite elem_of_app in Hfresh.
    apply diff_middle; rewrite elem_of_list_to_set; tauto.
  - split; simpl.
    + apply NoDup_cons. split; [|by rewrite F2].
      rewrite F2. intros ((x & n) & Ex & Hx)%list_elem_of_fmap. simpl in Ex. subst x.
      rewrite Forall_forall in Hpfree. specialize (Hpfree _ Hx). simpl in Hpfree.
      by apply not_elem_of_dom in Hpfree.
    + apply Forall_cons. split; [simpl; apply lookup_delete_eq|].
      rewrite F2. eapply Forall_impl; [exact Hpfree|].
      intros [x n] Hx. simpl in *. apply lookup_delete_None. right.
      by eapply dom_same_None.
Qed.

End Delete_spec.

(** * Records, enumeration and order *)

Section Write.
Context {K Obj : Type}.
Implicit Types (st : @State K Obj) (t l r : rbt Obj) (k : ctx Obj).

Lemma ptr_of_set_obj n (rec : Obj) t : ptr_of (set_obj n rec t) = ptr_of t.
Proof. by destruct t. Qed.

Lemma rootc_set_obj n (rec : Obj) t : rootc (set_obj n rec t) = rootc t.
Proof. by destruct t. Qed.

Lemma addrs_set_obj n (rec : Obj) t : addrs (set_obj n rec t) = addrs t.
Proof. induction t as [|c l IHl a o r IHr]; simpl; [done|]. by rewrite IHl, IHr. Qed.

Lemma nrr_set_obj n (rec : Obj) t : no_red_red (set_obj n rec t) <-> no_red_red t.
Proof.
  induction t as [|c l IHl a o r IHr]; simpl; [done|].
  by rewrite !rootc_set_obj, IHl, IHr.
Qed.

Lemma bheight_set_obj n (rec : Obj) t : bheight (set_obj n rec t) = bheight t.
Proof. induction t as [|c l IHl a o r IHr]; simpl; [done|]. by rewrite IHl, IHr. Qed.

Lemma inorder_set_obj n (rec : Obj) t :
  inorder (set_obj n rec t)
  = map (fun e => if decide (e.1 = n) then (n, rec) else e) (inorder t).
Proof.
  induction t as [|c l IHl a o r IHr]; simpl; [done|].
  rewrite map_app, IHl, IHr. simpl. by destruct (decide (a = n)) as [->|].
Qed.

Lemma rep_set_obj (m : gmap addr (@RB_TREE_NODE Obj)) n nd rec : forall t par,
  m !! n = Some nd -> rep m par t ->
  rep (<[n := set_object rec nd]> m) par (set_obj n rec t).
Proof.
  induction t as [|c l IHl a o r IHr]; intros par Hn; simpl; [done|].
  intros (Ha & Hl & Hr). rewrite !ptr_of_set_obj. split_and!; [|by apply IHl|by apply IHr].
  destruct (decide (a = n)) as [->|Hne].
  - rewrite lookup_insert_eq. rewrite Ha in Hn. by injection Hn as <-.
  - by rewrite lookup_insert_ne.
Qed.

(** The caller's store of a record in an entry of the tree. *)
Lemma store_object_spec st T n rec :
  tree_of st T -> n ∈ addrs T ->
  exists st', store (set_object rec) (Some n) st = Some (tt, st')
    /\ tree_of st' (set_obj n rec T)
    /\ tree st' = tree st
    /\ dom (mem st') = dom (mem st).
Proof.
  intros [(Hr & Hnd & Hrep) Hdom] Hn.
  destruct (rep_is_Some _ _ _ _ Hrep Hn) as [nd Hnd'].
  unfold store. rewrite Hnd'. eexists. split; [reflexivity|].
  assert (dom (<[n := set_object rec nd]> (mem st)) = dom (mem st)) as Hd.
  { apply dom_insert_lookup_L. eauto. }
  split_and!; simpl; try done.
  split; [split_and!; simpl|].
  - by rewrite ptr_of_set_obj.
  - by rewrite addrs_set_obj.
  - by apply rep_set_obj.
  - simpl. by rewrite Hd, addrs_set_obj.
Qed.

Lemma Enumerate_rec_spec {C} (cb : Obj -> C -> C) st : forall t k fuel ctx,
  holds st (plug t k) -> (length (addrs t) < fuel)%nat ->
  RtlpRbTreeEnumerate fuel (ptr_of t) cb ctx st
  = Some (fold_left (fun c o => cb o c) (objects t) ctx, st).
Proof.
  induction t as [|c l IHl a o r IHr]; intros k fuel ctx H Hf.
  { destruct fuel; [simpl in Hf; lia|done]. }
  destruct fuel; [simpl in Hf; lia|].
  simpl in Hf. rewrite length_app in Hf. simpl in Hf.
  cbn [RtlpRbTreeEnumerate ptr_of].
  rewrite (bind_Some _ _ _ _ _ (load_focus left st c l a o r k H)). cbn [left].
  rewrite (bind_Some _ _ _ _ _ (IHl (LF c a o r :: k) fuel ctx H ltac:(lia))).
  rewrite (bind_Some _ _ _ _ _ (load_focus object st c l a o r k H)). cbn [object].
  rewrite (bind_Some _ _ _ _ _ (load_focus right st c l a o r k H)). cbn [right].
  rewrite (IHr (RF c l a o :: k) fuel _ H ltac:(lia)).
  unfold objects. simpl. rewrite map_app, fold_left_app. done.
Qed.

Lemma Enumerate_spec {C} (cb : Obj -> C -> C) ctx st T :
  holds st T ->
  RtlRbTreeEnumerate cb ctx st
  = Some (fold_left (fun c o => cb o c) (objects T) ctx, st).
Proof.
  intros H. unfold RtlRbTreeEnumerate.
  rewrite (bind_Some _ _ _ _ _ (root_focus st T [] H)). cbn [croot].
  destruct T as [|c l a o r]; [done|]. cbn [ptr_of].
  unfold bind at 1, get_fuel at 1. cbv beta iota.
  apply (Enumerate_rec_spec cb st (Nd c l a o r) []); [done|].
  pose proof (holds_fuel st (Nd c l a o r) [] H). simpl in *. lia.
Qed.

End Write.

Section Order.
Context {K Obj : Type}.
Context (cmp : @RB_COMPARE K Obj) (key_of : Obj -> K) (ltk : K -> K -> Prop).
Hypothesis Hok : comparator_ok cmp key_of ltk.
Implicit Types (t l r : rbt Obj) (k : ctx Obj) (L X Y : list (addr * Obj)).

Lemma cmp_cases key o :
  ((cmp key o =? RB_TREE_LESS_THAN) = true /\ (cmp key o =? RB_TREE_EQUAL) = false
     /\ ltk key (key_of o))
  \/ ((cmp key o =? RB_TREE_LESS_THAN) = false
      /\ (cmp key o =? RB_TREE_GREATER_THAN) = true
      /\ (cmp key o =? RB_TREE_EQUAL) = false /\ ltk (key_of o) key)
  \/ ((cmp key o =? RB_TREE_LESS_THAN) = false
      /\ (cmp key o =? RB_TREE_GREATER_THAN) = false
      /\ (cmp key o =? RB_TREE_EQUAL) = true /\ key = key_of o).
Proof using Hok.
  destruct Hok as (_ & _ & H3).
  destruct (H3 key o) as [[-> ?]|[[-> ?]|[-> ?]]]; auto 10.
Qed.

Lemma ltk_irrefl x : ~ ltk x x.
Proof using Hok. by destruct Hok as (H1 & _). Qed.

Lemma ltk_trans x y z : ltk x y -> ltk y z -> ltk x z.
Proof using Hok. destruct Hok as (_ & H2 & _). apply H2. Qed.

Lemma keys_app X Y : keys key_of (X ++ Y) = keys key_of X ++ keys key_of Y.
Proof. apply map_app. Qed.

Lemma elem_of_keys x L : x ∈ keys key_of L <-> exists e, e ∈ L /\ x = key_of e.2.
Proof. unfold keys. rewrite list_elem_of_fmap. naive_solver. Qed.

Lemma sorted_middle X e Y :
  StronglySorted ltk (keys key_of (X ++ e :: Y)) <->
  StronglySorted ltk (keys key_of X) /\ StronglySorted ltk (keys key_of Y)
  /\ below key_of ltk (key_of e.2) X /\ above key_of ltk (key_of e.2) Y
  /\ (forall x y, x ∈ X -> y ∈ Y -> ltk (key_of x.2) (key_of y.2)).
Proof using Hok.
  rewrite keys_app. simpl. rewrite StronglySorted_app, StronglySorted_cons, Forall_forall.
  unfold below, above. setoid_rewrite elem_of_cons. setoid_rewrite elem_of_keys.
  split.
  - intros (H1 & H2 & H3 & H4). split_and!; try done.
    + intros x Hx. apply H1; eauto.
    + intros y Hy. apply H3; eauto.
    + intros x y Hx Hy. apply H1; eauto.
  - intros (H1 & H2 & H3 & H4 & H5). split_and!; try done.
    + intros x1 x2 (e1 & He1 & ->) [->|(e2 & He2 & ->)]; eauto.
    + intros x (e2 & He2 & ->). eauto.
Qed.

Lemma sorted_app_keys X Y :
  StronglySorted ltk (keys key_of (X ++ Y)) <->
  StronglySorted ltk (keys key_of X) /\ StronglySorted ltk (keys key_of Y)
  /\ (forall x y, x ∈ X -> y ∈ Y -> ltk (key_of x.2) (key_of y.2)).
Proof.
  rewrite keys_app, StronglySorted_app. setoid_rewrite elem_of_keys.
  split.
  - intros (H1 & H2 & H3). split_and!; try done. intros x y Hx Hy. apply H1; eauto.
  - intros (H1 & H2 & H3). split_and!; try done.
    intros x1 x2 (e1 & He1 & ->) (e2 & He2 & ->); eauto.
Qed.

Lemma sorted_insert X Y n rec :
  StronglySorted ltk (keys key_of (X ++ Y)) ->
  below key_of ltk (key_of rec) X -> above key_of ltk (key_of rec) Y ->
  StronglySorted ltk (keys key_of (X ++ (n, rec) :: Y)).
Proof using Hok.
  intros (H1 & H2 & H3)%sorted_app_keys Hb Ha. apply sorted_middle. done.
Qed.

Lemma sorted_remove X e Y :
  StronglySorted ltk (keys key_of (X ++ e :: Y)) ->
  StronglySorted ltk (keys key_of (X ++ Y)).
Proof using Hok.
  intros (H1 & H2 & H3 & H4 & H5)%sorted_middle. apply sorted_app_keys. done.
Qed.

Lemma sorted_unique L e1 e2 :
  StronglySorted ltk (keys key_of L) -> e1 ∈ L -> e2 ∈ L ->
  key_of e1.2 = key_of e2.2 -> e1 = e2.
Proof using Hok.
  intros Hs H1 H2 E.
  apply list_elem_of_split in H1 as (X & Y & ->).
  apply sorted_middle in Hs as (_ & _ & Hb & Ha & _).
  rewrite elem_of_app, elem_of_cons in H2. destruct H2 as [H2|[->|H2]]; [|done|].
  - apply Hb in H2. rewrite E in H2. by apply ltk_irrefl in H2.
  - apply Ha in H2. rewrite E in H2. by apply ltk_irrefl in H2.
Qed.

Lemma ascending_Nd c l a o r :
  ascending key_of ltk (Nd c l a o r) ->
  ascending key_of ltk l /\ ascending key_of ltk r
  /\ below key_of ltk (key_of o) (inorder l) /\ above key_of ltk (key_of o) (inorder r).
Proof using Hok.
  unfold ascending. simpl. intros (H1 & H2 & H3 & H4 & _)%sorted_middle. done.
Qed.

Lemma descend_inl key a : forall t k,
  descend cmp key t k = inl a -> exists o, (a, o) ∈ inorder t /\ key = key_of o.
Proof using Hok.
  induction t as [|c l IHl b o r IHr]; intros k; simpl; [done|].
  destruct (cmp_cases key o) as [(E1 & _ & Hlt)|[(E1 & E2 & _ & Hgt)|(E1 & E2 & _ & Heq)]];
    rewrite E1, ?E2.
  - intros (o' & Hin & ?)%IHl. exists o'. split; [|done]. apply elem_of_app. by left.
  - intros (o' & Hin & ?)%IHr. exists o'. split; [|done].
    apply elem_of_app. right. by apply list_elem_of_further.
  - intros [= ->]. exists o. split; [|done].
    apply elem_of_app. right. apply list_elem_of_here.
Qed.

Lemma descend_inr key k' : forall t k,
  descend cmp key t k = inr k' -> ascending key_of ltk t ->
  below key_of ltk key (cleft k) -> above key_of ltk key (cright k) ->
  below key_of ltk key (cleft k') /\ above key_of ltk key (cright k').
Proof using Hok.
  induction t as [|c l IHl b o r IHr]; intros k; simpl.
  { by intros [= ->]. }
  intros Hd (Hsl & Hsr & Hbl & Har)%ascending_Nd Hb Ha.
  destruct (cmp_cases key o) as [(E1 & _ & Hlt)|[(E1 & E2 & _ & Hgt)|(E1 & E2 & _ & Heq)]];
    rewrite E1, ?E2 in Hd; [| |done].
  - apply (IHl _ Hd Hsl); simpl; [done|].
    intros e. rewrite elem_of_cons, elem_of_app. intros [->|[He|He]]; [done| |by apply Ha].
    eapply ltk_trans; [exact Hlt|]. by apply Har.
  - apply (IHr _ Hd Hsr); simpl; [|done].
    intros e. rewrite !elem_of_app, list_elem_of_singleton.
    intros [He|[He| ->]]; [by apply Hb| |done].
    eapply ltk_trans; [|exact Hgt]. by apply Hbl.
Qed.

Lemma descend_mem key a o : forall t k,
  ascending key_of ltk t -> (a, o) ∈ inorder t -> key = key_of o ->
  descend cmp key t k = inl a.
Proof using Hok.
  induction t as [|c l IHl b o' r IHr]; intros k; simpl.
  { by intros _ ?%elem_of_nil. }
  intros (Hsl & Hsr & Hbl & Har)%ascending_Nd Hin ->.
  rewrite elem_of_app, elem_of_cons in Hin.
  destruct (cmp_cases (key_of o) o')
    as [(E1 & _ & Hlt)|[(E1 & E2 & _ & Hgt)|(E1 & E2 & _ & Heq)]]; rewrite E1, ?E2.
  - destruct Hin as [Hin|[[= -> ->]|Hin]]; [by apply IHl| |].
    + by apply ltk_irrefl in Hlt.
    + apply Har in Hin. simpl in Hin. destruct (ltk_irrefl (key_of o)). by eapply ltk_trans.
  - destruct Hin as [Hin|[[= -> ->]|Hin]]; [| |by apply IHr].
    + apply Hbl in Hin. simpl in Hin. destruct (ltk_irrefl (key_of o)). by eapply ltk_trans.
    + by apply ltk_irrefl in Hgt.
  - destruct Hin as [Hin|[[= -> ->]|Hin]]; [|done|].
    + apply Hbl in Hin. simpl in Hin. rewrite Heq in Hin. by apply ltk_irrefl in Hin.
    + apply Har in Hin. simpl in Hin. rewrite Heq in Hin. by apply ltk_irrefl in Hin.
Qed.

Lemma descend_absent key k' : forall T,
  descend cmp key T [] = inr k' -> ascending key_of ltk T ->
  forall a o, (a, o) ∈ inorder T -> key <> key_of o.
Proof using Hok.
  intros T Hd Hs a o Hin E.
  by rewrite (descend_mem key a o T [] Hs Hin E) in Hd.
Qed.

(** The two descents agree. *)
Lemma find_path_descend key : forall t k,
  found_ptr (find_path cmp key t k)
  = match descend cmp key t k with inl a => Some a | inr _ => None end.
Proof using Hok.
  induction t as [|c l IHl b o r IHr]; intros k; simpl; [done|].
  destruct (cmp_cases key o) as [(E1 & E3 & Hlt)|[(E1 & E2 & E3 & Hgt)|(E1 & E2 & E3 & Heq)]];
    rewrite E1, ?E2, E3; [apply IHl|apply IHr|done].
Qed.

End Order.

(** * Sequences of operations *)

Section Sequence.
Context {K Obj : Type}.
Context (cmp : @RB_COMPARE K Obj) (key_of : Obj -> K) (ltk : K -> K -> Prop).
Hypothesis Hok : comparator_ok cmp key_of ltk.
Implicit Types (st : @State K Obj) (t l r T : rbt Obj) (k : ctx Obj).

Lemma pool_ok_same st st' :
  pool (tree st') = pool (tree st) -> dom (mem st') = dom (mem st) ->
  pool_ok st -> pool_ok st'.
Proof.
  intros Hp Hd [H1 H2]. split; rewrite Hp; [done|].
  eapply Forall_impl; [exact H2|]. intros [x n] Hx. by eapply dom_same_None.
Qed.

(** The state after an insertion that found the key: the block taken from
    the pool went back to it. *)
Lemma duplicate_state st T n blk rest :
  tree_of st T -> pool_ok st -> pool (tree st) = (n, blk) :: rest ->
  tree_of (mkState (with_pool ((n, fresh_node blk) :: rest) (tree st)) (mem st)) T
  /\ pool_ok (mkState (with_pool ((n, fresh_node blk) :: rest) (tree st)) (mem st)).
Proof.
  intros [(Hr & Hnd & Hrep) Hdom] [H1 H2] Hp. split.
  - by split; [split_and!|].
  - rewrite Hp in H1, H2. split; simpl; [done|].
    apply Forall_cons in H2 as [H2 H3]. by apply Forall_cons.
Qed.

Lemma map_upd_fresh n (rec : Obj) (L : list (addr * Obj)) :
  n ∉ map fst L ->
  map (fun e => if decide (e.1 = n) then (n, rec) else e) L = L.
Proof.
  induction L as [|[a o] L IH]; simpl; [done|].
  rewrite not_elem_of_cons. intros [Hne Hin].
  rewrite decide_False by done. by rewrite IH.
Qed.

Lemma keys_upd_same n (rec : Obj) (L : list (addr * Obj)) :
  (forall e, e ∈ L -> e.1 = n -> key_of e.2 = key_of rec) ->
  keys key_of (map (fun e => if decide (e.1 = n) then (n, rec) else e) L)
  = keys key_of L.
Proof.
  induction L as [|[a o] L IH]; simpl; [done|]. intros H.
  unfold keys in *. rewrite IH.
  - f_equal. destruct (decide (a = n)) as [->|]; [|done]. simpl.
    symmetry. apply (H (n, o)); [apply list_elem_of_here|done].
  - intros e He. apply H. by apply list_elem_of_further.
Qed.

Lemma nodup_fst_eq (L : list (addr * Obj)) e1 e2 :
  NoDup (map fst L) -> e1 ∈ L -> e2 ∈ L -> e1.1 = e2.1 -> e1 = e2.
Proof.
  induction L as [|e L IH]; simpl; [by intros _ ?%elem_of_nil|].
  intros [Hne Hnd]%NoDup_cons. rewrite !elem_of_cons.
  intros [->|H1] [->|H2] E; [done| | |by apply IH].
  - destruct Hne. rewrite E. apply list_elem_of_fmap. by exists e2.
  - destruct Hne. rewrite <- E. apply list_elem_of_fmap. by exists e1.
Qed.

Lemma elem_of_addrs a o t : (a, o) ∈ inorder t -> a ∈ addrs t.
Proof.
  intros H. rewrite addrs_inorder. apply list_elem_of_fmap. by exists (a, o).
Qed.

Lemma counter_up (n : nat) :
  InterlockedIncrement (Z.of_nat n mod 2 ^ 32) = Z.of_nat (S n) mod 2 ^ 32.
Proof.
  unfold InterlockedIncrement. rewrite Zplus_mod_idemp_l. f_equal. lia.
Qed.

Lemma counter_down (n : nat) :
  InterlockedDecrement (Z.of_nat (S n) mod 2 ^ 32) = Z.of_nat n mod 2 ^ 32.
Proof.
  unfold InterlockedDecrement. rewrite Zminus_mod_idemp_l. f_equal. lia.
Qed.

Lemma Inv_insert N st T key rec :
  Inv cmp key_of ltk N st T -> key_of rec = key ->
  exists st' T', run_op (OpInsert key rec) st = Some (tt, st')
    /\ Inv cmp key_of ltk N st' T'.
Proof using Hok.
  intros (Ht & Hp & Hc & Hrb & Hasc & Hcnt & HN) Hkey.
  pose proof (InsertNode_spec st T cmp key Ht Hp Hc Hrb) as Hins.
  unfold run_op.
  destruct (pool (tree st)) as [|[n blk] rest] eqn:Hpool.
  { rewrite (bind_Some _ _ _ _ _ Hins). exists st, T. split; [done|].
    unfold Inv. rewrite Hpool. done. }
  destruct (descend cmp key T []) as [a|k] eqn:Hd.
  - (* the key is there: the caller writes its record over the entry *)
    rewrite (bind_Some _ _ _ _ _ Hins). cbn [when_present].
    destruct (duplicate_state st T n blk rest Ht Hp Hpool) as [Ht1 Hp1].
    destruct (descend_inl cmp key_of ltk Hok key a T [] Hd) as (o & Hin & Ho).
    destruct (store_object_spec _ T a rec Ht1 (elem_of_addrs _ _ _ Hin))
      as (st2 & E2 & Ht2 & Htr & Hdm).
    exists st2, (set_obj a rec T). split; [done|].
    unfold Inv. rewrite Htr. simpl. split_and!; try done.
    + eapply pool_ok_same; [| |exact Hp1]; [by rewrite Htr|done].
    + unfold root_black. by rewrite rootc_set_obj.
    + unfold ascending. rewrite inorder_set_obj, keys_upd_same; [done|].
      intros e He Ea. destruct Ht as [(_ & Hnd & _) _]. rewrite addrs_inorder in Hnd.
      rewrite (nodup_fst_eq _ e (a, o) Hnd He Hin Ea). simpl. congruence.
    + by rewrite inorder_set_obj, length_map.
    + rewrite inorder_set_obj, length_map. simpl in HN. done.
  - (* a new node *)
    destruct Hins as (st1 & E1 & Ht1 & Hp1 & Hc1 & Hpl1 & _ & _ & Hn1 & _ & _).
    rewrite (bind_Some _ _ _ _ _ E1). cbn [when_present].
    set (T1 := blacken (ins_fix k (Nd red Lf n (object blk) Lf))) in *.
    assert (inorder T1 = cleft k ++ (n, object blk) :: cright k) as Hin1.
    { unfold T1. by rewrite inorder_blacken, ins_fix_inorder, inorder_plug. }
    assert (inorder T = cleft k ++ cright k) as HinT.
    { pose proof (descend_plug _ _ _ _ _ Hd) as Hpl. simpl in Hpl.
      by rewrite Hpl, inorder_plug. }
    assert (n ∈ addrs T1) as HnT1.
    { rewrite addrs_inorder, Hin1, map_app. apply elem_of_app. right. apply list_elem_of_here. }
    assert (n ∉ addrs T) as Hfresh.
    { apply (tree_of_fresh st); [done|]. destruct Hp as [_ Hf]. rewrite Hpool in Hf.
      by apply Forall_cons in Hf as [Hf _]. }
    destruct (store_object_spec st1 T1 n rec Ht1 HnT1) as (st2 & E2 & Ht2 & Htr & Hdm).
    exists st2, (set_obj n rec T1). split; [done|].
    assert (inorder (set_obj n rec T1) = cleft k ++ (n, rec) :: cright k) as Hin2.
    { rewrite inorder_set_obj, Hin1, map_app. simpl. rewrite decide_True by done.
      rewrite addrs_inorder, HinT, map_app in Hfresh. rewrite not_elem_of_app in Hfresh.
      destruct Hfresh as [Hf1 Hf2]. by rewrite !map_upd_fresh. }
    unfold Inv. rewrite Htr. split_and!; try done.
    + eapply pool_ok_same; [| |exact Hp1]; [by rewrite Htr|done].
    + congruence.
    + unfold root_black. rewrite rootc_set_obj. unfold T1.
      by destruct (ins_fix k (Nd red Lf n (object blk) Lf)).
    + unfold ascending. rewrite Hin2.
      destruct (descend_inr cmp key_of ltk Hok key k T [] Hd Hasc) as [Hb Ha];
        [by intros ? ?%elem_of_nil|by intros ? ?%elem_of_nil|].
      apply (sorted_insert cmp key_of ltk Hok); [|by rewrite Hkey|by rewrite Hkey].
      unfold ascending in Hasc. by rewrite HinT in Hasc.
    + rewrite Hn1, Hcnt, Hin2, HinT, counter_up. f_equal. f_equal.
      rewrite !length_app. simpl. lia.
    + rewrite Hpl1, Hin2. rewrite HinT in HN. simpl in HN.
      rewrite !length_app in *. simpl in *. lia.
Qed.

Lemma Inv_delete N st T key :
  Inv cmp key_of ltk N st T ->
  exists st' T', run_op (OpDelete key) st = Some (tt, st')
    /\ Inv cmp key_of ltk N st' T'.
Proof using Hok.
  intros (Ht & Hp & Hc & Hrb & Hasc & Hcnt & HN).
  pose proof (DeleteNode_spec st T cmp key Ht Hp Hc Hrb) as Hdel.
  unfold run_op.
  destruct (find_path cmp key T []) as [[k t]|]; [|exists st, T; by unfold Inv].
  destruct Hdel as (c & l & a & o & r & -> & -> & st' & T' & blk & E & Ht' & Hp' & Hin
                    & Hrb' & _ & Hc' & Hpl & _ & _ & Hn & _ & _).
  assert (inorder (plug (Nd c l a o r) k)
          = (cleft k ++ inorder l) ++ (a, o) :: (inorder r ++ cright k)) as HinT.
  { rewrite inorder_plug. simpl. by rewrite <- !app_assoc. }
  assert (inorder T' = (cleft k ++ inorder l) ++ (inorder r ++ cright k)) as HinT'.
  { rewrite Hin. by rewrite <- !app_assoc. }
  exists st', T'. split; [done|]. unfold Inv. split_and!; try done.
  - congruence.
  - unfold ascending in *. rewrite HinT'. rewrite HinT in Hasc.
    by apply (sorted_remove cmp key_of ltk Hok _ (a, o)).
  - rewrite Hn, Hcnt, HinT, HinT'.
    assert (length ((cleft k ++ inorder l) ++ (a, o) :: inorder r ++ cright k)
            = S (length ((cleft k ++ inorder l) ++ inorder r ++ cright k))) as ->.
    { rewrite !length_app. cbn [length]. rewrite !length_app. lia. }
    by rewrite counter_down.
  - rewrite Hpl, HinT'. rewrite HinT in HN. clear -HN.
    rewrite !length_app in HN |- *. cbn [length] in HN |- *.
    rewrite !length_app in HN |- *. lia.
Qed.

Lemma Inv_run_op N st T op :
  Inv cmp key_of ltk N st T -> op_ok key_of op ->
  exists st' T', run_op op st = Some (tt, st') /\ Inv cmp key_of ltk N st' T'.
Proof using Hok.
  intros HI Hop. destruct op as [key rec|key].
  - by apply (Inv_insert N st T key rec).
  - by apply (Inv_delete N st T key).
Qed.

Lemma Inv_run_ops N ops : forall st T,
  Inv cmp key_of ltk N st T -> Forall (op_ok key_of) ops ->
  exists st' T', run_ops ops st = Some (tt, st') /\ Inv cmp key_of ltk N st' T'.
Proof using Hok.
  induction ops as [|op ops IH]; intros st T HI Hops.
  { exists st, T. by unfold Inv. }
  apply Forall_cons in Hops as [Hop Hops].
  destruct (Inv_run_op N st T op HI Hop) as (st1 & T1 & E1 & HI1).
  destruct (IH st1 T1 HI1 Hops) as (st2 & T2 & E2 & HI2).
  exists st2, T2. split; [|done]. cbn [run_ops].
  by rewrite (bind_Some _ _ _ _ _ E1).
Qed.

(** A tree just created and handed an empty root. *)
Lemma Inv_empty st :
  root (tree st) = None -> mem st = ∅ -> compare (tree st) = Some cmp ->
  NoDup (map fst (pool (tree st))) -> node_count (tree st) = 0 ->
  Inv cmp key_of ltk (length (pool (tree st))) st Lf.
Proof.
  intros Hr Hm Hc Hnd Hn. unfold Inv. split_and!; try done.
  - split; [split_and!; [done|constructor|done]|].
    rewrite Hm. simpl. by rewrite dom_empty_L.
  - split; [done|]. apply Forall_forall. intros b _. by rewrite Hm.
  - constructor.
Qed.

Lemma Inv_count N st T :
  Inv cmp key_of ltk N st T -> Z.of_nat N < 2 ^ 32 ->
  node_count (tree st) = Z.of_nat (length (inorder T)).
Proof.
  intros (_ & _ & _ & _ & _ & Hcnt & HN) Hlt. rewrite Hcnt.
  apply Z.mod_small. lia.
Qed.

End Sequence.

(** * The properties of the specification *)

Lemma Zcompare_ok : comparator_ok Zcompare (fun o : Z => o) Z.lt.
Proof.
  split_and!.
  - intros x. lia.
  - intros x y z. lia.
  - intros k o. unfold Zcompare.
    destruct (k <? o) eqn:E1; [left; split; [done|lia]|].
    destruct (o <? k) eqn:E2; [right; left; split; [done|lia]|].
    right. right. split; [done|lia].
Qed.

Lemma scenario_A_tree_of : tree_of scenario_A scenario_A_tree.
Proof.
  split; [split_and!|].
  - vm_compute. reflexivity.
  - apply (bool_decide_unpack _). vm_compute. exact I.
  - simpl. split_and!; try exact I; vm_compute; reflexivity.
  - vm_compute. reflexivity.
Defined.

Lemma scenario_A_pool_ok : pool_ok scenario_A.
Proof.
  split.
  - apply (bool_decide_unpack _). vm_compute. exact I.
  - apply Forall_forall. vm_compute pool. intros b Hb.
    apply list_elem_of_singleton in Hb. subst b. vm_compute. reflexivity.
Defined.

Lemma scenario_A_compare : compare (tree scenario_A) = Some Zcompare.
Proof. vm_compute. reflexivity. Qed.

Lemma scenario_A_red_black : red_black scenario_A_tree.
Proof. split_and!; [reflexivity|simpl; intuition congruence|by eexists]. Qed.

Section Properties.
Context {K Obj : Type}.
Implicit Types (st : @State K Obj) (t l r T : rbt Obj) (k : ctx Obj)
  (cmp : @RB_COMPARE K Obj).

Lemma rep_lookup_object (m : gmap addr (@RB_TREE_NODE Obj)) par t a o :
  rep m par t -> (a, o) ∈ inorder t -> object <$> (m !! a) = Some o.
Proof.
  revert par. induction t as [|c l IHl b o' r IHr]; intros par; simpl.
  { by intros _ ?%elem_of_nil. }
  intros (Hb & Hl & Hr). rewrite elem_of_app, elem_of_cons.
  intros [Hin|[[= -> ->]|Hin]]; [by eapply IHl| |by eapply IHr].
  by rewrite Hb.
Qed.

Lemma InsertNode_red_black st T cmp key :
  tree_of st T -> pool_ok st -> compare (tree st) = Some cmp -> red_black T ->
  exists res st' T',
    RtlRbTreeInsertNode key st = Some (res, st')
    /\ tree_of st' T' /\ red_black T'.
Proof.
  intros Ht Hp Hc Hrb.
  pose proof (InsertNode_spec st T cmp key Ht Hp Hc (proj1 Hrb)) as Hins.
  destruct (pool (tree st)) as [|[n blk] rest] eqn:Hpool.
  { by exists None, st, T. }
  destruct (descend cmp key T []) as [a|k] eqn:Hd.
  - destruct (duplicate_state st T n blk rest Ht Hp Hpool) as [Ht1 _].
    by eexists (Some a), _, T.
  - destruct Hins as (st1 & E1 & Ht1 & _).
    exists (Some n), st1, (blacken (ins_fix k (Nd red Lf n (object blk) Lf))).
    split_and!; [done|done|]. apply insert_red_black.
    pose proof (descend_plug _ _ _ _ _ Hd) as Hpl. simpl in Hpl. by rewrite <- Hpl.
Qed.

Lemma DeleteNode_red_black st T cmp key :
  tree_of st T -> pool_ok st -> compare (tree st) = Some cmp -> red_black T ->
  exists st' T',
    RtlRbTreeDeleteNode key st = Some (tt, st')
    /\ tree_of st' T' /\ root_black T' /\ no_red_red T'.
Proof.
  intros Ht Hp Hc (Hrb & Hnrr & Hbh).
  pose proof (DeleteNode_spec st T cmp key Ht Hp Hc Hrb) as Hdel.
  destruct (find_path cmp key T []) as [[k t]|]; [|by exists st, T].
  destruct Hdel as (c & l & a & o & r & -> & -> & st' & T' & blk & E & Ht' & _ & _
                    & Hrb' & Hex & _).
  exists st', T'. split_and!; try done.
  rewrite (Hex (fixup_trivial_bh c l a o r k Hbh)). by apply delete_shape_nrr.
Qed.

(** C1. For every completed Insert or Delete on a tree that satisfies the
    red-black invariants beforehand, the operation returns, the state holds
    a tree again, the root of that tree is black whenever it is not empty,
    and no red node of it has a red parent. *)
Theorem C1_insert_delete_root_black_no_red_red st T cmp :
  tree_of st T -> pool_ok st -> compare (tree st) = Some cmp -> red_black T ->
  (forall key, exists res st' T',
      RtlRbTreeInsertNode key st = Some (res, st')
      /\ tree_of st' T' /\ root_black T' /\ no_red_red T')
  /\ (forall key, exists st' T',
      RtlRbTreeDeleteNode key st = Some (tt, st')
      /\ tree_of st' T' /\ root_black T' /\ no_red_red T').
Proof.
  intros Ht Hp Hc Hrb. split; intros key.
  - destruct (InsertNode_red_black st T cmp key Ht Hp Hc Hrb)
      as (res & st' & T' & E & Ht' & Hrb1 & Hnrr & _).
    by exists res, st', T'.
  - by apply (DeleteNode_red_black st T cmp key).
Qed.

(** C4. For every Insert into a tree that satisfies the red-black
    invariants beforehand, the operation returns and the tree it leaves has
    a uniform black height: at every node the number of black nodes is the
    same on every path down to a null link. *)
Theorem C4_insert_uniform_black_height st T cmp key :
  tree_of st T -> pool_ok st -> compare (tree st) = Some cmp -> red_black T ->
  exists res st' T',
    RtlRbTreeInsertNode key st = Some (res, st')
    /\ tree_of st' T' /\ is_Some (bheight T').
Proof.
  intros Ht Hp Hc Hrb.
  destruct (InsertNode_red_black st T cmp key Ht Hp Hc Hrb)
    as (res & st' & T' & E & Ht' & _ & _ & Hbh).
  by exists res, st', T'.
Qed.

(** C5. When the pool has no block to give, Insert returns the empty result
    and leaves the state exactly as it was: root, links, colours, payloads
    and the three counters.  On a well-formed tree Insert returns the empty
    result only then. *)
Theorem C5_insert_allocation_failure st T cmp key :
  tree_of st T -> pool_ok st -> compare (tree st) = Some cmp -> root_black T ->
  (pool (tree st) = [] -> RtlRbTreeInsertNode key st = Some (None, st))
  /\ (forall st', RtlRbTreeInsertNode key st = Some (None, st') ->
      pool (tree st) = [] /\ st' = st).
Proof.
  intros Ht Hp Hc Hrb.
  pose proof (InsertNode_spec st T cmp key Ht Hp Hc Hrb) as Hins.
  destruct (pool (tree st)) as [|[n blk] rest] eqn:Hpool.
  { split; [done|]. intros st' E. rewrite Hins in E. by injection E as <-. }
  split; [done|]. intros st' E.
  destruct (descend cmp key T []) as [a|k].
  - rewrite Hins in E. done.
  - destruct Hins as (st1 & E1 & _). rewrite E1 in E. done.
Qed.

(** C3. Deleting a present key whose node has two children: the leftmost
    node of the right subtree, which is the in-order successor, is put in
    the node's position with the node's colour and its left subtree; the
    colour recorded as excised is the successor's own and the child kept is
    the successor's right child; the fix-up is run exactly when that colour
    is black and that child is not null. *)
Theorem C3_delete_two_children st T cmp key k c lc ll la lo lr a o rc rl ra ro rr :
  holds st T -> compare (tree st) = Some cmp ->
  find_path cmp key T [] = Some (k, Nd c (Nd lc ll la lo lr) a o (Nd rc rl ra ro rr)) ->
  exists k2 sc s so sr st1,
    min_path (Nd rc rl ra ro rr) [] = (k2, Nd sc Lf s so sr)
    /\ inorder (Nd rc rl ra ro rr) = (s, so) :: inorder sr ++ cright k2
    /\ RtlRbTreeDeleteNode_unlink (Some a) st = Some ((sc, ptr_of sr), st1)
    /\ holds st1 (plug (Nd c (Nd lc ll la lo lr) s so (plug sr k2)) k)
    /\ RtlRbTreeDeleteNode key st
       = bind (if colour_eqb sc black && present (ptr_of sr)
               then RtlpRbTreeFixupDelete (ptr_of sr) else ret tt)
           (fun _ => bind (ExFreeToLookasideListEx (Some a))
              (fun _ => bind RtlpRbTreeIncrementDeletionCount
                 (fun _ => RtlpRbTreeDecrementNodeCount))) st1.
Proof.
  intros H Hc Hf.
  pose proof (find_path_plug _ _ _ _ _ _ Hf) as [ET _]. simpl in ET.
  rewrite ET in H.
  destruct (unlink_spec st c (Nd lc ll la lo lr) a o (Nd rc rl ra ro rr) k H)
    as (st1 & E1 & H1 & _).
  pose proof (min_path_cleft (Nd rc rl ra ro rr) []) as Hcl.
  unfold unlink_shape in E1, H1.
  destruct (min_path (Nd rc rl ra ro rr) []) as [k2 m] eqn:Em.
  pose proof (min_path_plug (Nd rc rl ra ro rr) [] k2 m ltac:(done) Em)
    as [Er (sc & s & so & sr & ->)].
  cbn [fst snd] in *. simpl in Er.
  exists k2, sc, s, so, sr, st1.
  split; [done|]. split; [|split; [done|split]].
  - rewrite Er, inorder_plug, Hcl. done.
  - by rewrite plug_app in H1.
  - unfold RtlRbTreeDeleteNode.
    rewrite <- ET in H.
    rewrite (bind_Some _ _ _ _ _ (FindNode_spec cmp key st T Hc H)), Hf.
    cbn [found_ptr ptr_of]. by rewrite (bind_Some _ _ _ _ _ E1).
Qed.

Section Ordered.
Context (cmp : @RB_COMPARE K Obj) (key_of : Obj -> K) (ltk : K -> K -> Prop).

Lemma Inv_of_empty st :
  empty_tree cmp st -> Inv cmp key_of ltk (length (pool (tree st))) st Lf.
Proof. intros (H1 & H2 & H3 & H4 & H5). by apply Inv_empty. Qed.

(** C2. For every sequence of Insert and Delete operations applied to an
    initially empty tree, with a comparator that is the comparison of a
    strict total order on keys, the sequence runs to its end and the
    in-order traversal of the tree it leaves yields strictly ascending
    keys. *)
Theorem C2_sequences_keep_keys_ascending ops st :
  comparator_ok cmp key_of ltk -> empty_tree cmp st ->
  Forall (op_ok key_of) ops ->
  exists st' T',
    run_ops ops st = Some (tt, st')
    /\ tree_of st' T'
    /\ StronglySorted ltk (map key_of (objects T')).
Proof.
  intros Hok He Hops.
  destruct (Inv_run_ops cmp key_of ltk Hok _ ops st Lf (Inv_of_empty st He) Hops)
    as (st' & T' & E & Ht & _ & _ & _ & Hasc & _).
  exists st', T'. split_and!; [done|done|].
  unfold ascending, keys in Hasc. unfold objects. by rewrite map_map.
Qed.

(** C8. After every sequence of operations on an initially empty tree whose
    pool holds fewer than 2^32 blocks, [node_count] is the number of nodes
    reachable from the root, Enumerate calls the callback on exactly the
    records of those nodes, once each, in in-order, and their keys are
    strictly ascending. *)
Theorem C8_node_count_and_enumerate ops st :
  comparator_ok cmp key_of ltk -> empty_tree cmp st ->
  Z.of_nat (length (pool (tree st))) < 2 ^ 32 ->
  Forall (op_ok key_of) ops ->
  exists st' T',
    run_ops ops st = Some (tt, st')
    /\ tree_of st' T'
    /\ node_count (tree st') = Z.of_nat (length (addrs T'))
    /\ length (objects T') = length (addrs T')
    /\ (forall (C : Type) (Callback : Obj -> C -> C) (Context : C),
          RtlRbTreeEnumerate Callback Context st'
          = Some (fold_left (fun c o => Callback o c) (objects T') Context, st'))
    /\ StronglySorted ltk (map key_of (objects T')).
Proof.
  intros Hok He HN Hops.
  destruct (Inv_run_ops cmp key_of ltk Hok _ ops st Lf (Inv_of_empty st He) Hops)
    as (st' & T' & E & HI).
  pose proof (Inv_count cmp key_of ltk _ st' T' HI HN) as Hcnt.
  destruct HI as (Ht & _ & _ & _ & Hasc & _).
  exists st', T'. split_and!; try done.
  - by rewrite Hcnt, addrs_inorder, length_map.
  - unfold objects. by rewrite addrs_inorder, !length_map.
  - intros C cb ctx. apply Enumerate_spec. apply Ht.
  - unfold ascending, keys in Hasc. unfold objects. by rewrite map_map.
Qed.

(** C10. FindNodeObject returns and leaves the state entirely unchanged:
    root, links, colours, payloads and counters.  On a tree with ascending
    keys it returns the entry of the node whose key compares equal to the
    key sought, if there is one, and the empty result otherwise. *)
Theorem C10_find_is_read_only st T key :
  comparator_ok cmp key_of ltk -> holds st T -> compare (tree st) = Some cmp ->
  ascending key_of ltk T ->
  exists res,
    RtlRbTreeFindNodeObject key st = Some (res, st)
    /\ match res with
       | Some a => exists o, (a, o) ∈ inorder T /\ cmp key o = RB_TREE_EQUAL
                             /\ object <$> (mem st !! a) = Some o
       | None => forall a o, (a, o) ∈ inorder T -> cmp key o <> RB_TREE_EQUAL
       end.
Proof.
  intros Hok H Hc Hasc.
  exists (found_ptr (find_path cmp key T [])).
  split; [by apply FindNodeObject_spec|].
  rewrite (find_path_descend cmp key_of ltk Hok).
  destruct (descend cmp key T []) as [a|k] eqn:Hd.
  - destruct (descend_inl cmp key_of ltk Hok key a T [] Hd) as (o & Hin & Ho).
    exists o. split_and!; [done| |].
    + pose proof Hok as (Hirr & _ & H3).
      destruct (H3 key o) as [[_ Hlt]|[[_ Hgt]|[E _]]]; [| |done].
      * rewrite Ho in Hlt. by apply Hirr in Hlt.
      * rewrite Ho in Hgt. by apply Hirr in Hgt.
    + destruct H as (_ & _ & Hrep). by rewrite (rep_lookup_object _ _ _ _ _ Hrep Hin).
  - intros a o Hin E.
    apply (descend_absent cmp key_of ltk Hok key k T Hd Hasc a o Hin).
    pose proof Hok as (_ & _ & H3).
    destruct (H3 key o) as [[E1 _]|[[E1 _]|[_ ?]]]; [| |done]; by rewrite E1 in E.
Qed.

(** C6, as the code has it.  Insert takes its block from the pool before
    it looks for the key.  When that allocation succeeds and an equal key
    is stored, on a well-formed tree with ascending keys, Insert returns
    the entry holding that key, leaves the root, every node and the three
    counters as they were, and hands the block back to the pool. *)
Theorem C6_duplicate_insert_when_block_available st T key a o n blk rest :
  comparator_ok cmp key_of ltk ->
  tree_of st T -> pool_ok st -> compare (tree st) = Some cmp -> root_black T ->
  ascending key_of ltk T ->
  (a, o) ∈ inorder T -> cmp key o = RB_TREE_EQUAL ->
  pool (tree st) = (n, blk) :: rest ->
  exists st',
    RtlRbTreeInsertNode key st = Some (Some a, st')
    /\ object <$> (mem st' !! a) = Some o
    /\ mem st' = mem st
    /\ root (tree st') = root (tree st)
    /\ node_count (tree st') = node_count (tree st)
    /\ insertion_count (tree st') = insertion_count (tree st)
    /\ deletion_count (tree st') = deletion_count (tree st)
    /\ map fst (pool (tree st')) = map fst (pool (tree st))
    /\ tree_of st' T.
Proof.
  intros Hok Ht Hp Hc Hrb Hasc Hin Heq Hpool.
  pose proof (InsertNode_spec st T cmp key Ht Hp Hc Hrb) as Hins.
  rewrite Hpool in Hins.
  assert (key = key_of o) as Hkey.
  { pose proof Hok as (_ & _ & H3).
    destruct (H3 key o) as [[E1 _]|[[E1 _]|[_ ?]]]; [| |done]; by rewrite E1 in Heq. }
  rewrite (descend_mem cmp key_of ltk Hok key a o T [] Hasc Hin Hkey) in Hins.
  destruct (duplicate_state st T n blk rest Ht Hp Hpool) as [Ht1 _].
  eexists. split; [exact Hins|]. simpl. split_and!; try done.
  - destruct Ht as [(_ & _ & Hrep) _]. by apply (rep_lookup_object _ _ _ _ _ Hrep Hin).
  - by rewrite Hpool.
Qed.

End Ordered.

End Properties.

Lemma C1_witness :
  (forall key, exists res st' T',
      RtlRbTreeInsertNode key scenario_A = Some (res, st')
      /\ tree_of st' T' /\ root_black T' /\ no_red_red T')
  /\ (forall key, exists st' T',
      RtlRbTreeDeleteNode key scenario_A = Some (tt, st')
      /\ tree_of st' T' /\ root_black T' /\ no_red_red T').
Proof.
  apply (C1_insert_delete_root_black_no_red_red scenario_A scenario_A_tree Zcompare).
  - exact scenario_A_tree_of.
  - exact scenario_A_pool_ok.
  - exact scenario_A_compare.
  - exact scenario_A_red_black.
Defined.

Lemma C4_witness :
  exists res st' T',
    RtlRbTreeInsertNode 25 scenario_A = Some (res, st')
    /\ tree_of st' T' /\ is_Some (bheight T').
Proof.
  apply (C4_insert_uniform_black_height scenario_A scenario_A_tree Zcompare 25).
  - exact scenario_A_tree_of.
  - exact scenario_A_pool_ok.
  - exact scenario_A_compare.
  - exact scenario_A_red_black.
Defined.

Lemma exhausted_tree_of : tree_of exhausted exhausted_tree.
Proof.
  split; [split_and!|].
  - vm_compute. reflexivity.
  - apply (bool_decide_unpack _). vm_compute. exact I.
  - simpl. split_and!; try exact I; vm_compute; reflexivity.
  - vm_compute. reflexivity.
Qed.

Lemma exhausted_pool_ok : pool_ok exhausted.
Proof. split; vm_compute; constructor. Qed.

Lemma Zinit_empty blocks : NoDup blocks -> empty_tree Zcompare (Zinit blocks).
Proof.
  intros Hnd. unfold empty_tree, Zinit. simpl. split_and!; try done.
  rewrite map_map. simpl. by rewrite map_id.
Qed.

Lemma scenario_A_ascending : ascending (fun o : Z => o) Z.lt scenario_A_tree.
Proof. unfold ascending, keys. simpl. repeat constructor. Qed.

(** C7.  [RtlRbTreeCreate] never assigns [Tree->root]: whatever the
    arguments, the structure it returns has the root it was handed.  The
    status is STATUS_INVALID_PARAMETER when the comparator is absent or the
    size is zero; otherwise it is the status of the pool set-up when that
    failed, and STATUS_SUCCESS with the comparator stored and the three
    counters at zero when it succeeded. *)
Theorem C7_create_leaves_root {K Obj : Type}
    (ExInitializeLookasideListEx : Z -> NTSTATUS * @LOOKASIDE_LIST_EX Obj)
    (Compare : option (@RB_COMPARE K Obj)) (ObjectSize : Z) (Tree : @RB_TREE K Obj) :
  let res := RtlRbTreeCreate ExInitializeLookasideListEx Compare ObjectSize Tree in
  let init := ExInitializeLookasideListEx (ObjectSize + sizeof_RB_TREE_NODE) in
  root res.2 = root Tree
  /\ (if negb (ARGUMENT_PRESENT Compare) || (ObjectSize =? 0)
      then res = (STATUS_INVALID_PARAMETER, Tree)
      else if NT_SUCCESS init.1
           then res.1 = STATUS_SUCCESS
                /\ pool res.2 = init.2
                /\ node_count res.2 = 0 /\ insertion_count res.2 = 0
                /\ deletion_count res.2 = 0
           else res.1 = init.1).
Proof.
  unfold RtlRbTreeCreate. simpl.
  destruct (negb (ARGUMENT_PRESENT Compare) || (ObjectSize =? 0)); [done|].
  destruct (ExInitializeLookasideListEx (ObjectSize + sizeof_RB_TREE_NODE)) as [status p].
  simpl. by destruct (NT_SUCCESS status).
Qed.

(** A structure whose [root] member is not null on entry keeps it through a
    successful [RtlRbTreeCreate]. *)
Lemma Create_root_not_cleared :
  let Tree := mkTree (Some 5%positive) None [] 0 0 7 7 7 in
  let res := RtlRbTreeCreate (fun _ => (STATUS_SUCCESS, [])) (Some Zcompare) 8 Tree in
  res.1 = STATUS_SUCCESS /\ root res.2 = Some 5%positive.
Proof. split; reflexivity. Qed.

(** C6, counterexample.  After 10 was inserted with the only block of the
    pool, the tree holds the key 10 in the entry at block 1 and the pool has
    no block left: Insert of 10 returns the empty result, not that entry. *)
Lemma C6_counterexample :
  run_ops [OpInsert 10 10] (Zinit [1%positive]) = Some (tt, exhausted)
  /\ RtlRbTreeFindNodeObject 10 exhausted = Some (Some 1%positive, exhausted)
  /\ pool (tree exhausted) = []
  /\ RtlRbTreeInsertNode 10 exhausted = Some (None, exhausted).
Proof. split_and!; vm_compute; reflexivity. Qed.

(** C9, counterexample.  After inserting 10, 20, 30 the colour read at the
    left child of the root, and at its right child, is red. *)
Lemma C9_counterexample :
  run_ops scenario_A_ops (Zinit [1; 2; 3; 4]%positive) = Some (tt, scenario_A)
  /\ bind (load left (root (tree scenario_A))) (load colour) scenario_A
     = Some (red, scenario_A)
  /\ bind (load right (root (tree scenario_A))) (load colour) scenario_A
     = Some (red, scenario_A).
Proof. split_and!; vm_compute; reflexivity. Qed.

(** C9, as the code has it.  Inserting the keys 10, 20, 30 in that order
    into an empty tree leaves the root holding 20, black, its left child
    holding 10, red, and its right child holding 30, red, both without
    children; [node_count] is 3. *)
Theorem C9_scenario_A_shape :
  exists st,
    run_ops scenario_A_ops (Zinit [1; 2; 3; 4]%positive) = Some (tt, st)
    /\ tree_of st (Nd black (Nd red Lf 1%positive 10 Lf) 2%positive 20
                            (Nd red Lf 3%positive 30 Lf))
    /\ node_count (tree st) = 3.
Proof.
  exists scenario_A. split_and!.
  - vm_compute. reflexivity.
  - exact scenario_A_tree_of.
  - vm_compute. reflexivity.
Qed.

Lemma C2_witness :
  exists st' T',
    run_ops [OpInsert 10 10; OpInsert 20 20; OpInsert 30 30; OpDelete 20; OpInsert 10 10]
      (Zinit [1; 2; 3; 4]%positive) = Some (tt, st')
    /\ tree_of st' T'
    /\ StronglySorted Z.lt (map (fun o : Z => o) (objects T')).
Proof.
  apply (C2_sequences_keep_keys_ascending Zcompare (fun o : Z => o) Z.lt).
  - exact Zcompare_ok.
  - apply Zinit_empty. apply (bool_decide_unpack _). vm_compute. exact I.
  - repeat constructor.
Defined.

Lemma C3_witness :
  exists k2 sc s so sr st1,
    min_path (Nd red Lf 3%positive 30 Lf) [] = (k2, Nd sc Lf s so sr)
    /\ inorder (Nd red Lf 3%positive 30 Lf) = (s, so) :: inorder sr ++ cright k2
    /\ RtlRbTreeDeleteNode_unlink (Some 2%positive) scenario_A
       = Some ((sc, ptr_of sr), st1)
    /\ holds st1 (plug (Nd black (Nd red Lf 1%positive 10 Lf) s so (plug sr k2)) [])
    /\ RtlRbTreeDeleteNode 20 scenario_A
       = bind (if colour_eqb sc black && present (ptr_of sr)
               then RtlpRbTreeFixupDelete (ptr_of sr) else ret tt)
           (fun _ => bind (ExFreeToLookasideListEx (Some 2%positive))
              (fun _ => bind RtlpRbTreeIncrementDeletionCount
                 (fun _ => RtlpRbTreeDecrementNodeCount))) st1.
Proof.
  apply (C3_delete_two_children scenario_A scenario_A_tree Zcompare 20 []
           black red Lf 1%positive 10 Lf 2%positive 20 red Lf 3%positive 30 Lf).
  - exact (proj1 scenario_A_tree_of).
  - exact scenario_A_compare.
  - reflexivity.
Defined.

Lemma C5_witness :
  (pool (tree exhausted) = [] ->
   RtlRbTreeInsertNode 20 exhausted = Some (None, exhausted))
  /\ (forall st', RtlRbTreeInsertNode 20 exhausted = Some (None, st') ->
      pool (tree exhausted) = [] /\ st' = exhausted).
Proof.
  apply (C5_insert_allocation_failure exhausted exhausted_tree Zcompare 20).
  - exact exhausted_tree_of.
  - exact exhausted_pool_ok.
  - vm_compute. reflexivity.
  - reflexivity.
Defined.

Lemma C6_witness :
  exists st',
    RtlRbTreeInsertNode 20 scenario_A = Some (Some 2%positive, st')
    /\ object <$> (mem st' !! 2%positive) = Some 20
    /\ mem st' = mem scenario_A
    /\ root (tree st') = root (tree scenario_A)
    /\ node_count (tree st') = node_count (tree scenario_A)
    /\ insertion_count (tree st') = insertion_count (tree scenario_A)
    /\ deletion_count (tree st') = deletion_count (tree scenario_A)
    /\ map fst (pool (tree st')) = map fst (pool (tree scenario_A))
    /\ tree_of st' scenario_A_tree.
Proof.
  apply (C6_duplicate_insert_when_block_available Zcompare (fun o : Z => o) Z.lt
           scenario_A scenario_A_tree 20 2%positive 20 4%positive blank []).
  - exact Zcompare_ok.
  - exact scenario_A_tree_of.
  - exact scenario_A_pool_ok.
  - exact scenario_A_compare.
  - reflexivity.
  - exact scenario_A_ascending.
  - simpl. apply list_elem_of_further, list_elem_of_here.
  - reflexivity.
  - vm_compute. reflexivity.
Defined.

Lemma C8_witness :
  exists st' T',
    run_ops [OpInsert 10 10; OpInsert 20 20; OpInsert 30 30; OpDelete 20; OpInsert 10 10]
      (Zinit [1; 2; 3; 4]%positive) = Some (tt, st')
    /\ tree_of st' T'
    /\ node_count (tree st') = Z.of_nat (length (addrs T'))
    /\ length (objects T') = length (addrs T')
    /\ (forall (C : Type) (Callback : Z -> C -> C) (Context : C),
          RtlRbTreeEnumerate Callback Context st'
          = Some (fold_left (fun c o => Callback o c) (objects T') Context, st'))
    /\ StronglySorted Z.lt (map (fun o : Z => o) (objects T')).
Proof.
  apply (C8_node_count_and_enumerate Zcompare (fun o : Z => o) Z.lt).
  - exact Zcompare_ok.
  - apply Zinit_empty. apply (bool_decide_unpack _). vm_compute. exact I.
  - reflexivity.
  - repeat constructor.
Defined.

Lemma C10_witness :
  exists res,
    RtlRbTreeFindNodeObject 20 scenario_A = Some (res, scenario_A)
    /\ match res with
       | Some a => exists o, (a, o) ∈ inorder scenario_A_tree
                             /\ Zcompare 20 o = RB_TREE_EQUAL
                             /\ object <$> (mem scenario_A !! a) = Some o
       | None => forall a o, (a, o) ∈ inorder scenario_A_tree ->
                             Zcompare 20 o <> RB_TREE_EQUAL
       end.
Proof.
  apply (C10_find_is_read_only Zcompare (fun o : Z => o) Z.lt).
  - exact Zcompare_ok.
  - exact (proj1 scenario_A_tree_of).
  - exact scenario_A_compare.
  - exact scenario_A_ascending.
Defined.

(** * Rotations, minimum, fix-ups and teardown *)

Section More.
Context {K Obj : Type}.
Implicit Types (st : @State K Obj) (t l r T : rbt Obj) (k : ctx Obj)
  (m : gmap addr (@RB_TREE_NODE Obj)).

Lemma rep_lookup_unique m m' par t x :
  rep m par t -> rep m' par t -> x ∈ addrs t -> m !! x = m' !! x.
Proof.
  revert par. induction t as [|c l IHl a o r IHr]; intros par; simpl.
  { by intros _ _ ?%elem_of_nil. }
  intros (Ha & Hl & Hr) (Ha' & Hl' & Hr'). rewrite elem_of_app, elem_of_cons.
  intros [Hx|[->|Hx]]; [by eapply IHl|congruence|by eapply IHr].
Qed.

(** Two states that hold the same tree in the same blocks are the same. *)
Lemma state_unique st st' T :
  tree_of st T -> holds st' T -> same_frame st st' -> st' = st.
Proof.
  intros [(Hr & _ & Hrep) Hdom] (Hr' & _ & Hrep')
    (F1 & F2 & F3 & F4 & F5 & F6 & F7 & F8).
  assert (mem st' = mem st) as Hm.
  { apply map_eq. intros x. destruct (decide (x ∈ addrs T)) as [Hx|Hx].
    - by eapply rep_lookup_unique.
    - assert (x ∉ dom (mem st)) as Hn by (rewrite Hdom, elem_of_list_to_set; done).
      rewrite (proj1 (not_elem_of_dom _ _) Hn).
      apply not_elem_of_dom. by rewrite F8. }
  destruct st as [[? ? ? ? ? ? ? ?] ?], st' as [[? ? ? ? ? ? ? ?] ?].
  simpl in *. congruence.
Qed.

(** X1. [RtlpRbTreeRotateLeft] on a node that has a right child returns,
    puts that child in the node's place with the node as its left child
    and the child's former left subtree as the node's right subtree, and
    touches nothing else: the in-order walk of the whole tree, the
    colours, the pool and the counters are as before. *)
Theorem X1_rotate_left st c l a o c' rl rr b o' k :
  holds st (plug (Nd c l a o (Nd c' rl b o' rr)) k) ->
  exists st',
    RtlpRbTreeRotateLeft (Some a) st = Some (tt, st')
    /\ holds st' (plug (Nd c' (Nd c l a o rl) b o' rr) k)
    /\ inorder (plug (Nd c' (Nd c l a o rl) b o' rr) k)
       = inorder (plug (Nd c l a o (Nd c' rl b o' rr)) k)
    /\ same_frame st st'.
Proof.
  intros H. destruct (RotateLeft_spec st c l a o c' rl rr b o' k H) as (st' & E & H' & Fr).
  exists st'. split; [done|]. split; [done|]. split; [|done].
  rewrite !inorder_plug. simpl. repeat (progress (rewrite <- ?app_assoc; simpl)). done.
Qed.

(** X2. [RtlpRbTreeRotateRight] on a node that has a left child returns,
    puts that child in the node's place with the node as its right child
    and the child's former right subtree as the node's left subtree, and
    keeps the in-order walk, the colours, the pool and the counters. *)
Theorem X2_rotate_right st c ll lr a o c' r b o' k :
  holds st (plug (Nd c (Nd c' ll b o' lr) a o r) k) ->
  exists st',
    RtlpRbTreeRotateRight (Some a) st = Some (tt, st')
    /\ holds st' (plug (Nd c' ll b o' (Nd c lr a o r)) k)
    /\ inorder (plug (Nd c' ll b o' (Nd c lr a o r)) k)
       = inorder (plug (Nd c (Nd c' ll b o' lr) a o r) k)
    /\ same_frame st st'.
Proof.
  intros H. destruct (RotateRight_spec st c ll lr a o c' r b o' k H) as (st' & E & H' & Fr).
  exists st'. split; [done|]. split; [done|]. split; [|done].
  rewrite !inorder_plug. simpl. repeat (progress (rewrite <- ?app_assoc; simpl)). done.
Qed.

(** X3. A right rotation at the node a left rotation has brought up undoes
    it, and the other way round: after [RtlpRbTreeRotateLeft] at [a], whose
    right child is [b], [RtlpRbTreeRotateRight] at [b] gives back the very
    state the first rotation started from; and from the state between the
    two, rotating right at [b] and then left at [a] comes back to it. *)
Theorem X3_rotations_are_inverse st c l a o c' rl rr b o' k :
  tree_of st (plug (Nd c l a o (Nd c' rl b o' rr)) k) ->
  bind (RtlpRbTreeRotateLeft (Some a)) (fun _ => RtlpRbTreeRotateRight (Some b)) st
  = Some (tt, st)
  /\ exists st1,
      RtlpRbTreeRotateLeft (Some a) st = Some (tt, st1)
      /\ bind (RtlpRbTreeRotateRight (Some b)) (fun _ => RtlpRbTreeRotateLeft (Some a)) st1
         = Some (tt, st1).
Proof.
  intros Ht.
  destruct (RotateLeft_spec st c l a o c' rl rr b o' k (proj1 Ht)) as (st1 & E1 & H1 & Fr1).
  destruct (RotateRight_spec st1 c' l rl b o' c rr a o k H1) as (st2 & E2 & H2 & Fr2).
  destruct (RotateLeft_spec st2 c l a o c' rl rr b o' k H2) as (st3 & E3 & H3 & Fr3).
  assert (st2 = st) as ->
    by exact (state_unique st st2 _ Ht H2 (same_frame_trans _ _ _ Fr1 Fr2)).
  split.
  - by rewrite (bind_Some _ _ _ _ _ E1), E2.
  - exists st1. split; [done|]. rewrite (bind_Some _ _ _ _ _ E2). congruence.
Qed.

Lemma min_path_first t :
  t <> Lf ->
  exists a o rest, inorder t = (a, o) :: rest /\ ptr_of (min_path t []).2 = Some a.
Proof.
  intros Hne. pose proof (min_path_cleft t []) as Hcl.
  destruct (min_path t []) as [k2 m] eqn:Em.
  destruct (min_path_plug t [] k2 m Hne Em) as [Er (sc & s & so & sr & ->)].
  simpl in Er, Hcl. exists s, so, (inorder sr ++ cright k2). split; [|done].
  by rewrite Er, inorder_plug, Hcl.
Qed.

(** X4. [RtlpRbTreeMinimum] on the root of a non-empty subtree returns,
    changes nothing, and yields the first node of the subtree's in-order
    walk; when the keys of the subtree ascend, every other key of the
    subtree is above the key of that node. *)
Theorem X4_minimum_is_first_in_order (key_of : Obj -> K) (ltk : K -> K -> Prop) st t k :
  holds st (plug t k) -> t <> Lf -> ascending key_of ltk t ->
  exists a o rest,
    RtlpRbTreeMinimum (ptr_of t) st = Some (Some a, st)
    /\ inorder t = (a, o) :: rest
    /\ Forall (fun e => ltk (key_of o) (key_of e.2)) rest.
Proof.
  intros H Hne Hasc.
  destruct (min_path_first t Hne) as (a & o & rest & Hin & Hp).
  exists a, o, rest. split; [|split; [done|]].
  - unfold RtlpRbTreeMinimum, get_fuel. unfold bind at 1.
    pose proof (holds_fuel st t k H) as Hf.
    rewrite (Minimum_loop_spec st t k (fuel_of st) Hne H); [|lia].
    by rewrite min_path_app, <- Hp.
  - unfold ascending in Hasc. rewrite Hin in Hasc. simpl in Hasc.
    apply StronglySorted_cons in Hasc as [Hall _].
    unfold keys in Hall. by rewrite Forall_fmap in Hall.
Qed.

(** X5. [RtlpRbTreeFixupInsert], started at any node of a tree whose root
    is black (or at the root itself), returns without a fault, whatever
    the colours below: it leaves a tree with the same in-order walk and a
    black root, and leaves the pool and the counters alone. *)
Theorem X5_fixup_insert_safe st c l a o r k :
  holds st (plug (Nd c l a o r) k) -> top_black k ->
  exists st' T',
    RtlpRbTreeFixupInsert (Some a) st = Some (tt, st')
    /\ holds st' T'
    /\ inorder T' = inorder (plug (Nd c l a o r) k)
    /\ root_black T'
    /\ same_frame st st'.
Proof.
  intros H Htop.
  destruct (FixupInsert_spec st k c l a o r H Htop) as (st' & E & H' & Fr).
  exists st', (blacken (ins_fix k (Nd c l a o r))).
  split; [done|]. split; [done|]. split; [|split; [|done]].
  - by rewrite inorder_blacken, ins_fix_inorder.
  - unfold root_black. by destruct (ins_fix k (Nd c l a o r)).
Qed.

(** X6. [RtlpRbTreeFixupDelete], started at any node of a tree whose root
    is black (or at the root itself), returns without a fault even when the
    black heights are not balanced: it leaves a tree with the same in-order
    walk and a black root, and leaves the pool and the counters alone.
    Started at a red node or at the root it only paints that node black. *)
Theorem X6_fixup_delete_safe st c l a o r k :
  holds st (plug (Nd c l a o r) k) -> top_black k ->
  exists st' T',
    RtlpRbTreeFixupDelete (Some a) st = Some (tt, st')
    /\ holds st' T'
    /\ inorder T' = inorder (plug (Nd c l a o r) k)
    /\ root_black T'
    /\ same_frame st st'
    /\ (c = red \/ k = [] -> T' = plug (Nd black l a o r) k).
Proof. apply FixupDelete_spec. Qed.

Lemma with_pool_tree st p :
  pool (tree st) = p -> tree st = with_pool p (tree st).
Proof. intros <-. by destruct (tree st). Qed.

Lemma DeleteSubtree_spec : forall t par st fuel,
  rep (mem st) par t -> NoDup (addrs t) -> (length (addrs t) < fuel)%nat ->
  exists st',
    RtlpRbTreeDeleteSubtree fuel (ptr_of t) st = Some (tt, st')
    /\ tree st' = with_pool (freed par t ++ pool (tree st)) (tree st)
    /\ (forall x, mem st' !! x = if decide (x ∈ addrs t) then None else mem st !! x).
Proof.
  induction t as [|c l IHl a o r IHr]; intros par st fuel Hrep Hnd Hf.
  { destruct fuel; [simpl in Hf; lia|]. exists st. split; [done|].
    split; [by apply with_pool_tree|]. intros x. by rewrite decide_False by set_solver. }
  destruct fuel; [simpl in Hf; lia|].
  simpl in Hf, Hrep, Hnd. rewrite length_app in Hf. simpl in Hf.
  destruct Hrep as (Ha & Hl & Hr).
  apply NoDup_app in Hnd as (Hndl & Hdis & Hndr).
  apply NoDup_cons in Hndr as [Har Hndr].
  assert (a ∉ addrs l) as Hal.
  { intros Hin. apply (Hdis _ Hin). apply list_elem_of_here. }
  assert (forall x, x ∈ addrs r -> x ∉ addrs l) as Hrl.
  { intros x Hx Hin. apply (Hdis _ Hin). by apply list_elem_of_further. }
  cbn [RtlpRbTreeDeleteSubtree ptr_of].
  assert (load left (Some a) st = Some (ptr_of l, st)) as El
    by (unfold load; by rewrite Ha).
  rewrite (bind_Some _ _ _ _ _ El).
  destruct (IHl (Some a) st fuel Hl Hndl ltac:(lia)) as (st1 & E1 & Ht1 & Hm1).
  rewrite (bind_Some _ _ _ _ _ E1).
  assert (mem st1 !! a = mem st !! a) as Ha1.
  { rewrite Hm1. by rewrite decide_False. }
  assert (load right (Some a) st1 = Some (ptr_of r, st1)) as Er
    by (unfold load; by rewrite Ha1, Ha).
  rewrite (bind_Some _ _ _ _ _ Er).
  assert (rep (mem st1) (Some a) r) as Hr1.
  { eapply rep_frame; [|exact Hr]. intros x Hx. rewrite Hm1.
    by rewrite decide_False by by apply Hrl. }
  destruct (IHr (Some a) st1 fuel Hr1 Hndr ltac:(lia)) as (st2 & E2 & Ht2 & Hm2).
  rewrite (bind_Some _ _ _ _ _ E2).
  assert (mem st2 !! a = Some (mkNode par (ptr_of l) (ptr_of r) c o)) as Ha2.
  { rewrite Hm2. rewrite decide_False by done. by rewrite Ha1. }
  unfold ExFreeToLookasideListEx. rewrite Ha2.
  eexists. split; [reflexivity|]. split; simpl.
  - rewrite Ht2, Ht1. unfold with_pool. simpl. by rewrite <- !app_assoc.
  - intros x. destruct (decide (x = a)) as [->|Hne].
    + rewrite lookup_delete_eq. rewrite decide_True; [done|].
      apply elem_of_app. right. apply list_elem_of_here.
    + rewrite lookup_delete_ne by done. rewrite Hm2, Hm1.
      repeat case_decide; try done; set_solver.
Qed.

Lemma freed_addrs par t : map fst (freed par t) ≡ₚ addrs t.
Proof.
  revert par. induction t as [|c l IHl a o r IHr]; intros par; simpl; [done|].
  rewrite map_app, IHl, IHr. by rewrite <- Permutation_middle, (Permutation_app_comm (addrs r)).
Qed.

(** X7. [RtlRbTreeDeleteTree] on a well-formed tree returns: every node of
    the tree has gone back to the pool, each block once, before the pool is
    disposed of, no block is in use any more and [active] is 0.  It does
    not reset the rest of the structure: [root] still holds the address of
    the former root, now a freed block, and the comparator and the three
    counters keep their values. *)
Theorem X7_delete_tree_frees_every_node
    (ExDeleteLookasideListEx : @LOOKASIDE_LIST_EX Obj -> @LOOKASIDE_LIST_EX Obj) st T :
  tree_of st T ->
  exists st' blocks,
    RtlRbTreeDeleteTree ExDeleteLookasideListEx st = Some (tt, st')
    /\ mem st' = ∅
    /\ pool (tree st') = ExDeleteLookasideListEx (blocks ++ pool (tree st))
    /\ map fst blocks ≡ₚ addrs T
    /\ active (tree st') = 0
    /\ root (tree st') = ptr_of T
    /\ compare (tree st') = compare (tree st)
    /\ node_count (tree st') = node_count (tree st)
    /\ insertion_count (tree st') = insertion_count (tree st)
    /\ deletion_count (tree st') = deletion_count (tree st).
Proof.
  intros [(Hr & Hnd & Hrep) Hdom].
  unfold RtlRbTreeDeleteTree, get_root, get_fuel. unfold bind at 1 2 3. cbn [tree mem root with_active].
  rewrite Hr.
  set (st0 := mkState (with_active 0 (tree st)) (mem st)).
  assert (length (addrs T) < fuel_of st0)%nat as Hf.
  { pose proof (holds_size st T (conj Hr (conj Hnd Hrep))). unfold fuel_of, st0. simpl. lia. }
  destruct (DeleteSubtree_spec T None st0 (fuel_of st0) Hrep Hnd Hf) as (st1 & E1 & Ht1 & Hm1).
  rewrite (bind_Some _ _ _ _ _ E1).
  eexists _, (freed None T). split; [reflexivity|]. simpl. rewrite Ht1. simpl.
  split_and!; try done; [|apply freed_addrs].
  apply map_eq. intros x. rewrite lookup_empty, Hm1. case_decide; [done|].
  simpl. apply not_elem_of_dom. rewrite Hdom. by rewrite elem_of_list_to_set.
Qed.

End More.

(** * The effect of one operation *)

Section Effects.
Context {K Obj : Type}.
Context (cmp : @RB_COMPARE K Obj) (key_of : Obj -> K) (ltk : K -> K -> Prop).
Hypothesis Hok : comparator_ok cmp key_of ltk.
Implicit Types (st : @State K Obj) (t l r T : rbt Obj) (k : ctx Obj)
  (X Y : list (addr * Obj)).

Lemma Inv_well_formed N st T :
  Inv cmp key_of ltk N st T -> well_formed cmp key_of ltk st T.
Proof. intros (H1 & H2 & H3 & H4 & H5 & _). unfold well_formed. tauto. Qed.

Lemma cmp_equal_iff key o : cmp key o = RB_TREE_EQUAL <-> key = key_of o.
Proof using Hok.
  pose proof Hok as (Hirr & _ & H3).
  destruct (H3 key o) as [[E Hlt]|[[E Hgt]|[E ?]]]; rewrite E; split; try done.
  - intros ->. by apply Hirr in Hlt.
  - intros ->. by apply Hirr in Hgt.
Qed.

Lemma split_entry X a o Y (rec : Obj) :
  NoDup (map fst (X ++ (a, o) :: Y)) ->
  map (fun e => if decide (e.1 = a) then (a, rec) else e) (X ++ (a, o) :: Y)
  = X ++ (a, rec) :: Y.
Proof.
  rewrite map_app. simpl. intros (HX & Hd & HY)%NoDup_app.
  apply NoDup_cons in HY as [HaY _].
  rewrite map_app. simpl. rewrite decide_True by done.
  rewrite !map_upd_fresh; [done|done|].
  intros Hin. apply (Hd _ Hin). apply list_elem_of_here.
Qed.

(** The search finds the entry holding the key, if there is one. *)
Lemma Find_well_formed st T key :
  well_formed cmp key_of ltk st T ->
  exists res,
    RtlRbTreeFindNodeObject key st = Some (res, st)
    /\ (forall a, res = Some a <-> exists o, (a, o) ∈ inorder T /\ key_of o = key).
Proof using Hok.
  intros (Ht & _ & Hc & _ & Hasc).
  exists (found_ptr (find_path cmp key T [])).
  split; [apply FindNodeObject_spec; [done|apply Ht]|].
  rewrite (find_path_descend cmp key_of ltk Hok).
  destruct (descend cmp key T []) as [a|k] eqn:Hd; intros b; split.
  - intros [= <-]. destruct (descend_inl cmp key_of ltk Hok key a T [] Hd) as (o & Hin & Ho).
    by exists o.
  - intros (o & Hin & Ho).
    rewrite (descend_mem cmp key_of ltk Hok key b o T [] Hasc Hin (eq_sym Ho)) in Hd.
    congruence.
  - done.
  - intros (o & Hin & Ho).
    by rewrite (descend_mem cmp key_of ltk Hok key b o T [] Hasc Hin (eq_sym Ho)) in Hd.
Qed.

(** Insertion of a key that is not stored, with a block at hand. *)
Lemma Insert_new_effect st T key n blk rest :
  well_formed cmp key_of ltk st T ->
  pool (tree st) = (n, blk) :: rest ->
  (forall a o, (a, o) ∈ inorder T -> key_of o <> key) ->
  exists st' k,
    RtlRbTreeInsertNode key st = Some (Some n, st')
    /\ tree_of st' (blacken (ins_fix k (Nd red Lf n (object blk) Lf)))
    /\ pool_ok st'
    /\ inorder T = cleft k ++ cright k
    /\ below key_of ltk key (cleft k) /\ above key_of ltk key (cright k)
    /\ (n ∉ addrs T)
    /\ compare (tree st') = compare (tree st)
    /\ pool (tree st') = rest
    /\ node_count (tree st') = InterlockedIncrement (node_count (tree st))
    /\ insertion_count (tree st') = InterlockedIncrement (insertion_count (tree st))
    /\ deletion_count (tree st') = deletion_count (tree st).
Proof using Hok.
  intros (Ht & Hp & Hc & Hrb & Hasc) Hpool Habs.
  pose proof (InsertNode_spec st T cmp key Ht Hp Hc Hrb) as Hins.
  rewrite Hpool in Hins.
  destruct (descend cmp key T []) as [a|k] eqn:Hd.
  { destruct (descend_inl cmp key_of ltk Hok key a T [] Hd) as (o & Hin & Ho).
    by destruct (Habs a o Hin). }
  destruct Hins as (st1 & E1 & Ht1 & Hp1 & Hc1 & Hpl1 & _ & _ & Hn1 & Hi1 & Hd1).
  exists st1, k. split_and!; try done.
  - pose proof (descend_plug _ _ _ _ _ Hd) as Hpl. simpl in Hpl.
    by rewrite Hpl, inorder_plug.
  - by destruct (descend_inr cmp key_of ltk Hok key k T [] Hd Hasc) as [Hb Ha];
      [intros ? ?%elem_of_nil|intros ? ?%elem_of_nil|].
  - by destruct (descend_inr cmp key_of ltk Hok key k T [] Hd Hasc) as [Hb Ha];
      [intros ? ?%elem_of_nil|intros ? ?%elem_of_nil|].
  - apply (tree_of_fresh st); [done|]. destruct Hp as [_ Hf]. rewrite Hpool in Hf.
    by apply Forall_cons in Hf as [Hf _].
Qed.

(** The caller's insertion of a record under a key that is not stored. *)
Lemma run_insert_new st T key rec n blk rest :
  well_formed cmp key_of ltk st T -> key_of rec = key ->
  pool (tree st) = (n, blk) :: rest ->
  (forall a o, (a, o) ∈ inorder T -> key_of o <> key) ->
  exists st' T' X Y,
    run_op (OpInsert key rec) st = Some (tt, st')
    /\ well_formed cmp key_of ltk st' T'
    /\ inorder T = X ++ Y /\ inorder T' = X ++ (n, rec) :: Y
    /\ (n ∉ addrs T)
    /\ pool (tree st') = rest
    /\ node_count (tree st') = InterlockedIncrement (node_count (tree st))
    /\ insertion_count (tree st') = InterlockedIncrement (insertion_count (tree st))
    /\ deletion_count (tree st') = deletion_count (tree st).
Proof using Hok.
  intros Hwf Hkey Hpool Habs.
  destruct (Insert_new_effect st T key n blk rest Hwf Hpool Habs)
    as (st1 & k & E1 & Ht1 & Hp1 & HinT & Hb & Ha & Hfresh & Hc1 & Hpl1 & Hn1 & Hi1 & Hd1).
  destruct Hwf as (Ht & Hp & Hc & Hrb & Hasc).
  unfold run_op. rewrite (bind_Some _ _ _ _ _ E1). cbn [when_present].
  set (T1 := blacken (ins_fix k (Nd red Lf n (object blk) Lf))) in *.
  assert (inorder T1 = cleft k ++ (n, object blk) :: cright k) as Hin1.
  { unfold T1. by rewrite inorder_blacken, ins_fix_inorder, inorder_plug. }
  assert (n ∈ addrs T1) as HnT1.
  { rewrite addrs_inorder, Hin1, map_app. apply elem_of_app. right. apply list_elem_of_here. }
  destruct (store_object_spec st1 T1 n rec Ht1 HnT1) as (st2 & E2 & Ht2 & Htr & Hdm).
  assert (inorder (set_obj n rec T1) = cleft k ++ (n, rec) :: cright k) as Hin2.
  { rewrite inorder_set_obj, Hin1. apply split_entry.
    destruct Ht1 as [(_ & Hnd & _) _]. by rewrite addrs_inorder, Hin1 in Hnd. }
  exists st2, (set_obj n rec T1), (cleft k), (cright k).
  rewrite Htr. split; [done|]. split; [|by split_and!].
  split; [done|]. split.
  { eapply pool_ok_same; [| |exact Hp1]; [by rewrite Htr|done]. }
  split; [congruence|]. split.
  { unfold root_black. rewrite rootc_set_obj. unfold T1.
    by destruct (ins_fix k (Nd red Lf n (object blk) Lf)). }
  unfold ascending. rewrite Hin2.
  apply (sorted_insert cmp key_of ltk Hok); [|by rewrite Hkey|by rewrite Hkey].
  unfold ascending in Hasc. by rewrite HinT in Hasc.
Qed.

(** The caller's insertion of a record under a key that is stored. *)
Lemma run_insert_dup st T key rec a o n blk rest :
  well_formed cmp key_of ltk st T -> key_of rec = key ->
  pool (tree st) = (n, blk) :: rest ->
  (a, o) ∈ inorder T -> key_of o = key ->
  exists st' T' X Y,
    run_op (OpInsert key rec) st = Some (tt, st')
    /\ well_formed cmp key_of ltk st' T'
    /\ inorder T = X ++ (a, o) :: Y /\ inorder T' = X ++ (a, rec) :: Y
    /\ map fst (pool (tree st')) = map fst (pool (tree st))
    /\ node_count (tree st') = node_count (tree st)
    /\ insertion_count (tree st') = insertion_count (tree st)
    /\ deletion_count (tree st') = deletion_count (tree st).
Proof using Hok.
  intros (Ht & Hp & Hc & Hrb & Hasc) Hkey Hpool Hin Ho.
  pose proof (InsertNode_spec st T cmp key Ht Hp Hc Hrb) as Hins.
  rewrite Hpool in Hins.
  rewrite (descend_mem cmp key_of ltk Hok key a o T [] Hasc Hin (eq_sym Ho)) in Hins.
  unfold run_op. rewrite (bind_Some _ _ _ _ _ Hins). cbn [when_present].
  destruct (duplicate_state st T n blk rest Ht Hp Hpool) as [Ht1 Hp1].
  destruct (store_object_spec _ T a rec Ht1 (elem_of_addrs _ _ _ Hin))
    as (st2 & E2 & Ht2 & Htr & Hdm).
  pose proof Hin as Hsplit. apply list_elem_of_split in Hsplit as (X & Y & HXY).
  assert (NoDup (map fst (X ++ (a, o) :: Y))) as Hnd.
  { destruct Ht as [(_ & Hnd & _) _]. by rewrite addrs_inorder, HXY in Hnd. }
  exists st2, (set_obj a rec T), X, Y.
  rewrite Htr. simpl. split; [done|]. split; [|split_and!; try done].
  - split; [done|]. split.
    { eapply pool_ok_same; [| |exact Hp1]; [by rewrite Htr|done]. }
    split; [by rewrite Htr|]. split.
    { unfold root_black. by rewrite rootc_set_obj. }
    unfold ascending. rewrite inorder_set_obj, keys_upd_same; [done|].
    intros e He Ea. destruct Ht as [(_ & Hnd' & _) _]. rewrite addrs_inorder in Hnd'.
    rewrite (nodup_fst_eq _ e (a, o) Hnd' He Hin Ea). simpl. congruence.
  - rewrite inorder_set_obj, HXY. by apply split_entry.
  - by rewrite Hpool.
Qed.

(** Deletion of a key that is stored. *)
Lemma Delete_effect st T key a o :
  well_formed cmp key_of ltk st T ->
  (a, o) ∈ inorder T -> key_of o = key ->
  exists st' T' X Y blk c l r k,
    RtlRbTreeDeleteNode key st = Some (tt, st')
    /\ well_formed cmp key_of ltk st' T'
    /\ T = plug (Nd c l a o r) k
    /\ (fixup_trivial c l a o r k -> T' = delete_shape c l a o r k)
    /\ inorder T = X ++ (a, o) :: Y /\ inorder T' = X ++ Y
    /\ pool (tree st') = (a, blk) :: pool (tree st)
    /\ node_count (tree st') = InterlockedDecrement (node_count (tree st))
    /\ insertion_count (tree st') = insertion_count (tree st)
    /\ deletion_count (tree st') = InterlockedIncrement (deletion_count (tree st)).
Proof using Hok.
  intros (Ht & Hp & Hc & Hrb & Hasc) Hin Ho.
  pose proof (DeleteNode_spec st T cmp key Ht Hp Hc Hrb) as Hdel.
  pose proof (find_path_descend cmp key_of ltk Hok key T []) as Hfd.
  rewrite (descend_mem cmp key_of ltk Hok key a o T [] Hasc Hin (eq_sym Ho)) in Hfd.
  destruct (find_path cmp key T []) as [[k t]|]; [|done].
  destruct Hdel as (c & l & a' & o' & r & -> & -> & st' & T' & blk & E & Ht' & Hp' & HinT'
                    & Hrb' & Hex & Hc' & Hpl & _ & _ & Hn & Hi & Hd).
  simpl in Hfd. injection Hfd as ->.
  assert (inorder (plug (Nd c l a o' r) k)
          = (cleft k ++ inorder l) ++ (a, o') :: (inorder r ++ cright k)) as HinT.
  { rewrite inorder_plug. simpl. by rewrite <- !app_assoc. }
  assert (o' = o) as ->.
  { destruct Ht as [(_ & Hnd & _) _]. rewrite addrs_inorder in Hnd.
    assert ((a, o') ∈ inorder (plug (Nd c l a o' r) k)) as Hin'.
    { rewrite HinT. apply elem_of_app. right. apply list_elem_of_here. }
    by injection (nodup_fst_eq _ (a, o') (a, o) Hnd Hin' Hin eq_refl). }
  exists st', T', (cleft k ++ inorder l), (inorder r ++ cright k), blk, c, l, r, k.
  split; [done|]. split; [|split_and!; try done].
  - split; [done|]. split; [done|]. split; [congruence|]. split; [done|].
    unfold ascending in *. rewrite HinT'. rewrite HinT in Hasc.
    rewrite app_assoc. by apply (sorted_remove cmp key_of ltk Hok _ (a, o)).
  - by rewrite HinT', <- !app_assoc.
Qed.

End Effects.

(** * Lookup after insertion and deletion *)

Section Lookup.
Context {K Obj : Type}.
Context (cmp : @RB_COMPARE K Obj) (key_of : Obj -> K) (ltk : K -> K -> Prop).
Implicit Types (st : @State K Obj) (t l r T : rbt Obj) (k : ctx Obj)
  (X Y : list (addr * Obj)).

Lemma option_ext {A} (x y : option A) : (forall a, x = Some a <-> y = Some a) -> x = y.
Proof.
  intros H. destruct x as [a|], y as [b|]; [|..|done].
  - symmetry. by apply H.
  - by destruct (proj1 (H a) eq_refl).
  - by destruct (proj2 (H b) eq_refl).
Qed.

Lemma split_unique X Y X' Y' (e : addr * Obj) :
  NoDup (map fst (X ++ e :: Y)) -> X ++ e :: Y = X' ++ e :: Y' -> X = X' /\ Y = Y'.
Proof.
  revert X'. induction X as [|x X IH]; intros X' Hnd E.
  - destruct X' as [|x' X']; simpl in E.
    + by injection E.
    + injection E as <- ->. simpl in Hnd. apply NoDup_cons in Hnd as [Hn _].
      destruct Hn. rewrite map_app. apply elem_of_app. right. apply list_elem_of_here.
  - destruct X' as [|x' X']; simpl in E.
    + injection E as -> <-. simpl in Hnd. apply NoDup_cons in Hnd as [Hn _].
      destruct Hn. rewrite map_app. apply elem_of_app. right. apply list_elem_of_here.
    + injection E as <- E. simpl in Hnd. apply NoDup_cons in Hnd as [_ Hnd].
      destruct (IH X' Hnd E) as [-> ->]. done.
Qed.

Lemma well_formed_lookup st T a o :
  well_formed cmp key_of ltk st T -> (a, o) ∈ inorder T ->
  object <$> (mem st !! a) = Some o.
Proof.
  intros ([(_ & _ & Hrep) _] & _) Hin. by eapply rep_lookup_object.
Qed.

Lemma find_path_entry key : forall t k k' t',
  find_path cmp key t k = Some (k', t') ->
  exists a o, (a, o) ∈ inorder t /\ cmp key o = RB_TREE_EQUAL.
Proof.
  induction t as [|c l IHl a o r IHr]; intros k k' t'; simpl; [done|].
  destruct (cmp key o =? RB_TREE_EQUAL) eqn:E1.
  { intros _. exists a, o. split; [|by apply Z.eqb_eq].
    apply elem_of_app. right. apply list_elem_of_here. }
  destruct (cmp key o =? RB_TREE_LESS_THAN).
  - intros (b & o' & Hin & E)%IHl. exists b, o'. split; [|done].
    apply elem_of_app. by left.
  - intros (b & o' & Hin & E)%IHr. exists b, o'. split; [|done].
    apply elem_of_app. right. by apply list_elem_of_further.
Qed.

Lemma delete_no_equal st T key :
  holds st T -> compare (tree st) = Some cmp ->
  (forall a o, (a, o) ∈ inorder T -> cmp key o <> RB_TREE_EQUAL) ->
  RtlRbTreeDeleteNode key st = Some (tt, st).
Proof.
  intros H Hc Habs. unfold RtlRbTreeDeleteNode.
  rewrite (bind_Some _ _ _ _ _ (FindNode_spec cmp key st T Hc H)).
  destruct (find_path cmp key T []) as [[k t]|] eqn:Ef; [|done].
  destruct (find_path_entry key T [] k t Ef) as (a & o & Hin & E).
  by destruct (Habs a o Hin).
Qed.

(** X10. [RtlRbTreeDeleteNode] with a key that compares equal to no stored
    record returns and changes nothing: no node, no counter, not the
    pool.  This needs no order on the keys. *)
Theorem X10_delete_missing_key st T key :
  holds st T -> compare (tree st) = Some cmp ->
  (forall a o, (a, o) ∈ inorder T -> cmp key o <> RB_TREE_EQUAL) ->
  RtlRbTreeDeleteNode key st = Some (tt, st).
Proof. apply delete_no_equal. Qed.

Section With_order.
Hypothesis Hok : comparator_ok cmp key_of ltk.

Lemma absent_or_present T key :
  ascending key_of ltk T ->
  (forall a o, (a, o) ∈ inorder T -> key_of o <> key)
  \/ exists a o, (a, o) ∈ inorder T /\ key_of o = key.
Proof using Hok.
  intros Hasc. destruct (descend cmp key T []) as [a|k] eqn:Hd.
  - right. destruct (descend_inl cmp key_of ltk Hok key a T [] Hd) as (o & Hin & Ho).
    by exists a, o.
  - left. intros a o Hin E.
    by apply (descend_absent cmp key_of ltk Hok key k T Hd Hasc a o Hin).
Qed.

Lemma find_agree st T st' T' key :
  well_formed cmp key_of ltk st T -> well_formed cmp key_of ltk st' T' ->
  (forall a o, key_of o = key -> (a, o) ∈ inorder T <-> (a, o) ∈ inorder T') ->
  exists res,
    RtlRbTreeFindNodeObject key st = Some (res, st)
    /\ RtlRbTreeFindNodeObject key st' = Some (res, st')
    /\ (forall a, res = Some a -> object <$> (mem st' !! a) = object <$> (mem st !! a)).
Proof using Hok.
  intros Hwf Hwf' Hsame.
  destruct (Find_well_formed cmp key_of ltk Hok st T key Hwf) as (res & E & Hres).
  destruct (Find_well_formed cmp key_of ltk Hok st' T' key Hwf') as (res' & E' & Hres').
  assert (res' = res) as ->.
  { apply option_ext. intros a. rewrite Hres, Hres'.
    split; intros (o & Hin & Ho); exists o; (split; [|done]); by apply (Hsame a o Ho). }
  exists res. split_and!; [done|done|].
  intros a (o & Hin & Ho)%Hres.
  rewrite (well_formed_lookup st T a o Hwf Hin).
  apply (well_formed_lookup st' T' a o Hwf'). by apply (Hsame a o Ho).
Qed.

(** X8. Insert and look up.  On a well-formed tree with a block in the
    pool, once the caller has inserted a record under its key, whether the
    key was stored before or not, [RtlRbTreeFindNodeObject] with that key
    returns an entry, and the entry holds that record. *)
Theorem X8_insert_then_find st T key rec :
  well_formed cmp key_of ltk st T -> key_of rec = key -> pool (tree st) <> [] ->
  exists st' a,
    run_op (OpInsert key rec) st = Some (tt, st')
    /\ RtlRbTreeFindNodeObject key st' = Some (Some a, st')
    /\ object <$> (mem st' !! a) = Some rec.
Proof using Hok.
  intros Hwf Hkey Hpool.
  destruct (pool (tree st)) as [|[n blk] rest] eqn:Ep; [done|].
  assert (exists st' T' a, run_op (OpInsert key rec) st = Some (tt, st')
            /\ well_formed cmp key_of ltk st' T' /\ (a, rec) ∈ inorder T')
    as (st' & T' & a & E & Hwf' & Hin).
  { destruct (absent_or_present T key (proj2 (proj2 (proj2 (proj2 Hwf)))))
      as [Habs|(a & o & Hin & Ho)].
    - destruct (run_insert_new cmp key_of ltk Hok st T key rec n blk rest Hwf Hkey Ep Habs)
        as (st' & T' & X & Y & E & Hwf' & _ & HinT' & _).
      exists st', T', n. split_and!; [done|done|].
      rewrite HinT'. apply elem_of_app. right. apply list_elem_of_here.
    - destruct (run_insert_dup cmp key_of ltk Hok st T key rec a o n blk rest
                  Hwf Hkey Ep Hin Ho)
        as (st' & T' & X & Y & E & Hwf' & _ & HinT' & _).
      exists st', T', a. split_and!; [done|done|].
      rewrite HinT'. apply elem_of_app. right. apply list_elem_of_here. }
  exists st', a. split; [done|].
  destruct (Find_well_formed cmp key_of ltk Hok st' T' key Hwf') as (res & Ef & Hres).
  rewrite Ef. split.
  - f_equal. f_equal. apply Hres. by exists rec.
  - by apply (well_formed_lookup st' T').
Qed.

(** X9. Insertion of a key that is not stored.  On a well-formed tree
    [RtlRbTreeInsertNode] takes the block at the head of the pool, links it
    at the place the order of the keys gives it and returns it: the
    in-order walk gains that one entry between the smaller and the larger
    keys, every other entry keeps its block and its record, the root is
    black, [node_count] and [insertion_count] go up by one (as 32-bit
    counters) and [deletion_count] stays.  The record of the new entry is
    whatever the block held: the routine does not write it. *)
Theorem X9_insert_new_key st T key n blk rest :
  well_formed cmp key_of ltk st T ->
  pool (tree st) = (n, blk) :: rest ->
  (forall a o, (a, o) ∈ inorder T -> key_of o <> key) ->
  exists st' T' X Y,
    RtlRbTreeInsertNode key st = Some (Some n, st')
    /\ tree_of st' T' /\ pool_ok st' /\ root_black T'
    /\ inorder T = X ++ Y
    /\ inorder T' = X ++ (n, object blk) :: Y
    /\ below key_of ltk key X /\ above key_of ltk key Y
    /\ pool (tree st') = rest
    /\ node_count (tree st') = InterlockedIncrement (node_count (tree st))
    /\ insertion_count (tree st') = InterlockedIncrement (insertion_count (tree st))
    /\ deletion_count (tree st') = deletion_count (tree st).
Proof using Hok.
  intros Hwf Hpool Habs.
  destruct (Insert_new_effect cmp key_of ltk Hok st T key n blk rest Hwf Hpool Habs)
    as (st1 & k & E1 & Ht1 & Hp1 & HinT & Hb & Ha & Hfresh & Hc1 & Hpl1 & Hn1 & Hi1 & Hd1).
  exists st1, (blacken (ins_fix k (Nd red Lf n (object blk) Lf))), (cleft k), (cright k).
  split; [done|]. split; [done|]. split; [done|]. split.
  { unfold root_black. by destruct (ins_fix k (Nd red Lf n (object blk) Lf)). }
  split; [done|]. split; [|done].
  by rewrite inorder_blacken, ins_fix_inorder, inorder_plug.
Qed.

(** X11. Deletion of a key that is stored.  On a well-formed tree
    [RtlRbTreeDeleteNode] returns and leaves a well-formed tree whose
    in-order walk is the former one without the entry of that key: every
    other entry keeps its block and its record.  The block of the entry
    goes to the head of the pool, [deletion_count] goes up by one,
    [node_count] down by one (as 32-bit counters) and [insertion_count]
    stays. *)
Theorem X11_delete_stored_key st T key a o :
  well_formed cmp key_of ltk st T ->
  (a, o) ∈ inorder T -> key_of o = key ->
  exists st' T' X Y blk,
    RtlRbTreeDeleteNode key st = Some (tt, st')
    /\ well_formed cmp key_of ltk st' T'
    /\ inorder T = X ++ (a, o) :: Y /\ inorder T' = X ++ Y
    /\ pool (tree st') = (a, blk) :: pool (tree st)
    /\ node_count (tree st') = InterlockedDecrement (node_count (tree st))
    /\ insertion_count (tree st') = insertion_count (tree st)
    /\ deletion_count (tree st') = InterlockedIncrement (deletion_count (tree st)).
Proof using Hok.
  intros Hwf Hin Ho.
  destruct (Delete_effect cmp key_of ltk Hok st T key a o Hwf Hin Ho)
    as (st' & T' & X & Y & blk & c & l & r & k & E & Hwf' & _ & _ & H1 & H2 & H3).
  by exists st', T', X, Y, blk.
Qed.

Lemma middle_key_absent X Y a o b o' :
  StronglySorted ltk (keys key_of (X ++ (a, o) :: Y)) ->
  (b, o') ∈ X ++ Y -> key_of o' <> key_of o.
Proof using Hok.
  intros (_ & _ & Hb & Ha & _)%(sorted_middle cmp key_of ltk Hok) Hin E.
  apply elem_of_app in Hin as [Hin|Hin].
  - apply Hb in Hin. simpl in Hin. rewrite E in Hin.
    by apply (ltk_irrefl cmp key_of ltk Hok) in Hin.
  - apply Ha in Hin. simpl in Hin. rewrite E in Hin.
    by apply (ltk_irrefl cmp key_of ltk Hok) in Hin.
Qed.

(** X12. Delete and look up.  On a well-formed tree, after
    [RtlRbTreeDeleteNode] with a stored key, [RtlRbTreeFindNodeObject] with
    that key returns the empty result. *)
Theorem X12_delete_then_find st T key a o :
  well_formed cmp key_of ltk st T ->
  (a, o) ∈ inorder T -> key_of o = key ->
  exists st',
    RtlRbTreeDeleteNode key st = Some (tt, st')
    /\ RtlRbTreeFindNodeObject key st' = Some (None, st').
Proof using Hok.
  intros Hwf Hin Ho.
  destruct (Delete_effect cmp key_of ltk Hok st T key a o Hwf Hin Ho)
    as (st' & T' & X & Y & blk & c & l & r & k & E & Hwf' & _ & _ & H1 & H2 & _).
  exists st'. split; [done|].
  destruct (Find_well_formed cmp key_of ltk Hok st' T' key Hwf') as (res & Ef & Hres).
  rewrite Ef. f_equal. f_equal.
  destruct res as [b|]; [|done].
  destruct (proj1 (Hres b) eq_refl) as (o' & Hin' & Ho').
  destruct Hwf as (_ & _ & _ & _ & Hasc). unfold ascending in Hasc.
  rewrite H1 in Hasc. rewrite H2 in Hin'.
  destruct (middle_key_absent X Y a o b o' Hasc Hin'). congruence.
Qed.

Lemma run_insert_exhausted st T key rec :
  well_formed cmp key_of ltk st T -> pool (tree st) = [] ->
  run_op (OpInsert key rec) st = Some (tt, st).
Proof.
  intros (Ht & Hp & Hc & Hrb & _) Hpool.
  pose proof (InsertNode_spec st T cmp key Ht Hp Hc Hrb) as Hins.
  rewrite Hpool in Hins. unfold run_op. by rewrite (bind_Some _ _ _ _ _ Hins).
Qed.

Lemma delete_absent st T key :
  well_formed cmp key_of ltk st T ->
  (forall a o, (a, o) ∈ inorder T -> key_of o <> key) ->
  RtlRbTreeDeleteNode key st = Some (tt, st).
Proof using Hok.
  intros (Ht & _ & Hc & _) Habs.
  apply (delete_no_equal st T key (proj1 Ht) Hc).
  intros a o Hin E. apply (Habs a o Hin).
  symmetry. by apply (cmp_equal_iff cmp key_of ltk Hok).
Qed.

(** What one operation does to a well-formed tree. *)
Lemma run_op_effect st T op :
  well_formed cmp key_of ltk st T -> op_ok key_of op ->
  exists st' T',
    run_op op st = Some (tt, st')
    /\ well_formed cmp key_of ltk st' T'
    /\ addrs T' ++ map fst (pool (tree st')) ≡ₚ addrs T ++ map fst (pool (tree st))
    /\ (forall a o, key_of o <> op_key op ->
          (a, o) ∈ inorder T <-> (a, o) ∈ inorder T').
Proof using Hok.
  intros Hwf Hop. pose proof Hwf as (_ & _ & _ & _ & Hasc).
  destruct op as [key rec|key]; simpl in Hop |- *.
  - destruct (pool (tree st)) as [|[n blk] rest] eqn:Ep.
    { exists st, T. split; [exact (run_insert_exhausted st T key rec Hwf Ep)|].
      rewrite Ep. split; [done|]. split; [reflexivity|]. by intros. }
    destruct (absent_or_present T key Hasc) as [Habs|(a & o & Hin & Ho)].
    + destruct (run_insert_new cmp key_of ltk Hok st T key rec n blk rest Hwf Hop Ep Habs)
        as (st' & T' & X & Y & E & Hwf' & HinT & HinT' & _ & Hpl & _).
      exists st', T'. split; [done|]. split; [done|]. split.
      * rewrite Hpl, !addrs_inorder, HinT, HinT', !map_app. simpl. solve_Permutation.
      * intros b o' Hne. rewrite HinT, HinT', !elem_of_app, elem_of_cons.
        split; [tauto|]. intros [?|[[= -> ->]|?]]; [tauto| |tauto]. by destruct Hne.
    + destruct (run_insert_dup cmp key_of ltk Hok st T key rec a o n blk rest
                  Hwf Hop Ep Hin Ho)
        as (st' & T' & X & Y & E & Hwf' & HinT & HinT' & Hpl & _).
      exists st', T'. split; [done|]. split; [done|]. split.
      * rewrite Hpl, Ep, !addrs_inorder, HinT, HinT', !map_app. done.
      * intros b o' Hne. rewrite HinT, HinT', !elem_of_app, !elem_of_cons.
        split; (intros [?|[[= -> ->]|?]]; [tauto| |tauto]); destruct Hne; congruence.
  - destruct (absent_or_present T key Hasc) as [Habs|(a & o & Hin & Ho)].
    { exists st, T. split; [exact (delete_absent st T key Hwf Habs)|].
      split; [done|]. split; [reflexivity|]. by intros. }
    destruct (Delete_effect cmp key_of ltk Hok st T key a o Hwf Hin Ho)
      as (st' & T' & X & Y & blk & c & l & r & k & E & Hwf' & _ & _ & HinT & HinT' & Hpl & _).
    exists st', T'. split; [done|]. split; [done|]. split.
    * rewrite Hpl, !addrs_inorder, HinT, HinT', !map_app. simpl. solve_Permutation.
    * intros b o' Hne. rewrite HinT, HinT', !elem_of_app, elem_of_cons.
      split; [|tauto]. intros [?|[[= -> ->]|?]]; [tauto| |tauto]. by destruct Hne.
Qed.

(** X13. Operations on one key leave the other keys alone.  After the
    caller's insertion of a record, or a deletion, on a well-formed tree,
    [RtlRbTreeFindNodeObject] with any other key returns what it returned
    before: the same entry, in the same block, holding the same record, or
    the empty result as before. *)
Theorem X13_other_keys_unaffected st T op key :
  well_formed cmp key_of ltk st T -> op_ok key_of op -> key <> op_key op ->
  exists st' res,
    run_op op st = Some (tt, st')
    /\ RtlRbTreeFindNodeObject key st = Some (res, st)
    /\ RtlRbTreeFindNodeObject key st' = Some (res, st')
    /\ (forall a, res = Some a -> object <$> (mem st' !! a) = object <$> (mem st !! a)).
Proof using Hok.
  intros Hwf Hop Hne.
  destruct (run_op_effect st T op Hwf Hop) as (st' & T' & E & Hwf' & _ & Hsame).
  destruct (find_agree st T st' T' key Hwf Hwf') as (res & E1 & E2 & Hobj).
  { intros a o Ho. apply Hsame. congruence. }
  by exists st', res.
Qed.

(** X14. Insert and delete.  On a well-formed tree with a block in the
    pool, inserting a record under a key that is not stored and then
    deleting that key gives back the former in-order walk, entry for
    entry, and the former pool addresses; [node_count] is back at its value
    (as a 32-bit counter) while [insertion_count] and [deletion_count] have
    each gone up by one. *)
Theorem X14_insert_then_delete st T key rec :
  well_formed cmp key_of ltk st T -> key_of rec = key -> pool (tree st) <> [] ->
  (forall a o, (a, o) ∈ inorder T -> key_of o <> key) ->
  exists st' T',
    run_ops [OpInsert key rec; OpDelete key] st = Some (tt, st')
    /\ well_formed cmp key_of ltk st' T'
    /\ inorder T' = inorder T
    /\ map fst (pool (tree st')) = map fst (pool (tree st))
    /\ node_count (tree st') = node_count (tree st) mod 2 ^ 32
    /\ insertion_count (tree st') = InterlockedIncrement (insertion_count (tree st))
    /\ deletion_count (tree st') = InterlockedIncrement (deletion_count (tree st)).
Proof using Hok.
  intros Hwf Hkey Hpool Habs.
  destruct (pool (tree st)) as [|[n blk] rest] eqn:Ep; [done|].
  destruct (run_insert_new cmp key_of ltk Hok st T key rec n blk rest Hwf Hkey Ep Habs)
    as (st1 & T1 & X & Y & E1 & Hwf1 & HinT & HinT1 & _ & Hpl1 & Hn1 & Hi1 & Hd1).
  assert ((n, rec) ∈ inorder T1) as Hin1.
  { rewrite HinT1. apply elem_of_app. right. apply list_elem_of_here. }
  destruct (Delete_effect cmp key_of ltk Hok st1 T1 key n rec Hwf1 Hin1 Hkey)
    as (st2 & T2 & X' & Y' & blk' & c & l & r & k & E2 & Hwf2 & _ & _ & HinT1' & HinT2
        & Hpl2 & Hn2 & Hi2 & Hd2).
  assert (X = X' /\ Y = Y') as [<- <-].
  { apply (split_unique X Y X' Y' (n, rec)); [|congruence].
    destruct Hwf1 as ([(_ & Hnd & _) _] & _). by rewrite addrs_inorder, HinT1 in Hnd. }
  exists st2, T2. split.
  { cbn [run_ops]. rewrite (bind_Some _ _ _ _ _ E1).
    change (run_op (OpDelete key) st1) with (RtlRbTreeDeleteNode key st1) in *.
    unfold run_op. by rewrite (bind_Some _ _ _ _ _ E2). }
  split; [done|]. split; [congruence|]. split; [by rewrite Hpl2, Hpl1|].
  split; [|split; congruence].
  rewrite Hn2, Hn1. unfold InterlockedDecrement, InterlockedIncrement.
  rewrite Zminus_mod_idemp_l. f_equal. lia.
Qed.

Lemma well_formed_run_ops ops : forall st T,
  well_formed cmp key_of ltk st T -> Forall (op_ok key_of) ops ->
  exists st' T',
    run_ops ops st = Some (tt, st')
    /\ well_formed cmp key_of ltk st' T'
    /\ addrs T' ++ map fst (pool (tree st')) ≡ₚ addrs T ++ map fst (pool (tree st)).
Proof using Hok.
  induction ops as [|op ops IH]; intros st T Hwf Hops.
  { by exists st, T. }
  apply Forall_cons in Hops as [Hop Hops].
  destruct (run_op_effect st T op Hwf Hop) as (st1 & T1 & E1 & Hwf1 & HP1 & _).
  destruct (IH st1 T1 Hwf1 Hops) as (st2 & T2 & E2 & Hwf2 & HP2).
  exists st2, T2. split; [|split; [done|by rewrite HP2]].
  cbn [run_ops]. by rewrite (bind_Some _ _ _ _ _ E1).
Qed.

(** X15. Every sequence of operations started on any well-formed tree, not
    only on an empty one, runs to its end and leaves a well-formed tree:
    black root, ascending keys, sound pool.  No block is lost or handed
    out twice on the way: the blocks of the tree together with the blocks
    of the pool are the same blocks as before. *)
Theorem X15_sequences_keep_well_formed st T ops :
  well_formed cmp key_of ltk st T -> Forall (op_ok key_of) ops ->
  exists st' T',
    run_ops ops st = Some (tt, st')
    /\ well_formed cmp key_of ltk st' T'
    /\ addrs T' ++ map fst (pool (tree st')) ≡ₚ addrs T ++ map fst (pool (tree st)).
Proof using Hok. apply well_formed_run_ops. Qed.

End With_order.
End Lookup.

(** * Deletion and the black heights *)

Section Delete_balance.
Context {Obj : Type}.
Implicit Types (t l r : rbt Obj) (k : ctx Obj).

Lemma cbh_app k1 k2 h : cbh (k1 ++ k2) h = cbh k1 h ≫= cbh k2.
Proof.
  revert h. induction k1 as [|[c a o r|c l a o] k1 IH]; intros h; simpl; [done|..];
    by case_decide.
Qed.

Lemma cbh_None k h h' H :
  k <> [] -> h <> h' -> cbh k h = Some H -> cbh k h' = None.
Proof.
  intros Hk Hne. destruct k as [|[c a o r|c l a o] k]; [done|..]; simpl;
    intros [E _]%cbh_decide_inv; rewrite decide_False; try done; congruence.
Qed.

Lemma bheight_blacken_red t h :
  t <> Lf -> rootc t = red -> bheight t = Some h -> bheight (blacken t) = Some (S h).
Proof.
  destruct t as [|c l a o r]; [done|]. simpl. intros _ -> H.
  destruct (bheight l) as [x|]; [|done]. destruct (bheight r) as [y|]; [|done].
  case_decide; [|done]. by injection H as <-.
Qed.

(** The node taken out by lines 612-641: the tree before is that node, of
    the colour recorded and with the child kept as its only child, in a
    context that weighs black heights as the context of the child does. *)
Lemma unlink_excised c l a o r k :
  exists kc0 el ea eo er,
    plug (Nd c l a o r) k = plug (Nd (unlink_shape c l a o r k).1.1 el ea eo er) kc0
    /\ (forall h, cbh kc0 h = cbh (unlink_shape c l a o r k).2 h)
    /\ (kc0 = [] <-> (unlink_shape c l a o r k).2 = [])
    /\ ((el = Lf /\ er = (unlink_shape c l a o r k).1.2)
        \/ (er = Lf /\ el = (unlink_shape c l a o r k).1.2)).
Proof.
  destruct l as [|lc ll la lo lr].
  { exists k, Lf, a, o, r. simpl. split_and!; try done. by left. }
  destruct r as [|rc rl ra ro rr].
  { exists k, (Nd lc ll la lo lr), a, o, Lf. simpl. split_and!; try done. by right. }
  destruct (unlink_two c lc ll la lo lr a o rc rl ra ro rr k)
    as (k2 & sc & s & so & sr & Er & Hcl & ->).
  exists (k2 ++ RF c (Nd lc ll la lo lr) a o :: k), Lf, s, so, sr. cbn [fst snd].
  split_and!.
  - by rewrite plug_app, <- Er.
  - intros h. by rewrite !cbh_app.
  - split; intros E; by destruct k2.
  - by left.
Qed.

Lemma excised_height ec (el : rbt Obj) ea eo (er child : rbt Obj) H :
  (el = Lf /\ er = child) \/ (er = Lf /\ el = child) ->
  bheight (Nd ec el ea eo er) = Some H ->
  bheight child = Some 0%nat /\ H = bump ec 0.
Proof.
  intros Hch (h & Hl & Hr & ->)%bheight_Nd_inv.
  destruct Hch as [[-> ->]|[-> ->]].
  - apply bheight_Lf_inv in Hl as ->. done.
  - apply bheight_Lf_inv in Hr as ->. done.
Qed.

(** Deletion keeps the black heights uniform unless the node taken out is
    black, has no child and is not the root. *)
Lemma delete_shape_bh c l a o r k :
  is_Some (bheight (plug (Nd c l a o r) k)) ->
  ~ ((unlink_shape c l a o r k).1.1 = black /\ (unlink_shape c l a o r k).1.2 = Lf
     /\ (unlink_shape c l a o r k).2 <> []) ->
  is_Some (bheight (delete_shape c l a o r k)).
Proof.
  intros Hbh Hnot. unfold delete_shape.
  destruct (unlink_excised c l a o r k) as (kc0 & el & ea & eo & er & E & Hcbh & Hnil & Hch).
  destruct (unlink_shape c l a o r k) as [[ec child] kc]. cbn [fst snd] in *.
  rewrite E, bh_plug in Hbh. destruct Hbh as [H Hbh].
  destruct (bheight (Nd ec el ea eo er)) as [h|] eqn:Eh; [|done]. simpl in Hbh.
  destruct (excised_height ec el ea eo er child h Hch Eh) as [Hc ->].
  rewrite Hcbh in Hbh. rewrite bh_plug.
  destruct ec; cbn [colour_eqb bump] in *.
  - rewrite Hc. simpl. by rewrite Hbh.
  - destruct child as [|cc cl ca co cr] eqn:Ech.
    + destruct kc as [|f kc]; [by eexists|]. by destruct Hnot.
    + assert (child <> Lf) as Hne by (by rewrite Ech). rewrite <- Ech in *.
      rewrite (bheight_blacken_red child 0 Hne (bheight_zero child Hc Hne) Hc).
      simpl. by rewrite Hbh.
Qed.

(** Deletion of a black node without children, other than the root, leaves
    black heights that are not uniform. *)
Lemma delete_shape_bh_None c l a o r k :
  is_Some (bheight (plug (Nd c l a o r) k)) ->
  (unlink_shape c l a o r k).1.1 = black -> (unlink_shape c l a o r k).1.2 = Lf ->
  (unlink_shape c l a o r k).2 <> [] ->
  bheight (delete_shape c l a o r k) = None.
Proof.
  intros Hbh Hec Hch Hk. unfold delete_shape.
  destruct (unlink_excised c l a o r k) as (kc0 & el & ea & eo & er & E & Hcbh & Hnil & Hkid).
  destruct (unlink_shape c l a o r k) as [[ec child] kc]. cbn [fst snd] in *. subst ec child.
  rewrite E, bh_plug in Hbh. destruct Hbh as [H Hbh].
  destruct (bheight (Nd black el ea eo er)) as [h|] eqn:Eh; [|done]. simpl in Hbh.
  destruct (excised_height black el ea eo er Lf h Hkid Eh) as [_ ->].
  rewrite Hcbh in Hbh. cbn [colour_eqb blacken]. rewrite bh_plug. simpl.
  by apply (cbh_None kc 1%nat 0%nat H).
Qed.

End Delete_balance.

Section Delete_balance_heap.
Context {K Obj : Type}.
Implicit Types (st : @State K Obj) (t l r T : rbt Obj) (k : ctx Obj)
  (cmp : @RB_COMPARE K Obj).

(** X16. Delete keeps a red-black tree red-black, black heights included,
    whenever the node it takes out (the node found, or the leftmost node
    of its right subtree when it has two children) is red, or has a child,
    or is the root: the operation returns and the tree it leaves has a
    black root, no red node with a red parent and a uniform black
    height. *)
Theorem X16_delete_keeps_red_black st T cmp key k c l a o r :
  tree_of st T -> pool_ok st -> compare (tree st) = Some cmp -> red_black T ->
  find_path cmp key T [] = Some (k, Nd c l a o r) ->
  ~ ((unlink_shape c l a o r k).1.1 = black /\ (unlink_shape c l a o r k).1.2 = Lf
     /\ (unlink_shape c l a o r k).2 <> []) ->
  exists st' T',
    RtlRbTreeDeleteNode key st = Some (tt, st')
    /\ tree_of st' T' /\ red_black T'.
Proof.
  intros Ht Hp Hc (Hrb & Hnrr & Hbh) Hf Hnot.
  pose proof (DeleteNode_spec st T cmp key Ht Hp Hc Hrb) as Hdel. rewrite Hf in Hdel.
  destruct Hdel as (c' & l' & a' & o' & r' & [= <- <- <- <- <-] & -> & st' & T' & blk & E & Ht'
                    & _ & _ & Hrb' & Hex & _).
  exists st', T'. split; [done|]. split; [done|].
  rewrite (Hex (fixup_trivial_bh c l a o r k Hbh)) in *.
  split; [done|]. split; [by apply delete_shape_nrr|by apply delete_shape_bh].
Qed.

(** X17. Delete unbalances the tree when the node it takes out is black,
    has no child and is not the root (a black leaf, or a node with two
    children whose in-order successor is one): on a red-black tree the
    operation returns, the fix-up is not run, and the tree it leaves still
    has a black root and no red node with a red parent, but its black
    heights are no longer uniform. *)
Theorem X17_delete_black_leaf_unbalances st T cmp key k c l a o r :
  tree_of st T -> pool_ok st -> compare (tree st) = Some cmp -> red_black T ->
  find_path cmp key T [] = Some (k, Nd c l a o r) ->
  (unlink_shape c l a o r k).1.1 = black -> (unlink_shape c l a o r k).1.2 = Lf ->
  (unlink_shape c l a o r k).2 <> [] ->
  exists st' T',
    RtlRbTreeDeleteNode key st = Some (tt, st')
    /\ tree_of st' T' /\ root_black T' /\ no_red_red T' /\ bheight T' = None.
Proof.
  intros Ht Hp Hc (Hrb & Hnrr & Hbh) Hf Hec Hch Hk.
  pose proof (DeleteNode_spec st T cmp key Ht Hp Hc Hrb) as Hdel. rewrite Hf in Hdel.
  destruct Hdel as (c' & l' & a' & o' & r' & [= <- <- <- <- <-] & -> & st' & T' & blk & E & Ht'
                    & _ & _ & Hrb' & Hex & _).
  exists st', T'. split; [done|]. split; [done|].
  rewrite (Hex (fixup_trivial_bh c l a o r k Hbh)) in *.
  split; [done|]. split; [by apply delete_shape_nrr|by apply delete_shape_bh_None].
Qed.

(** X18. Create and use.  When the caller's structure has a null [root] on
    entry, the comparator is the comparison of a strict total order, the
    size is not zero and the kernel sets up a pool of distinct blocks,
    [RtlRbTreeCreate] returns STATUS_SUCCESS and the structure it leaves
    is an empty tree on which every sequence of operations runs to its
    end, leaving a well-formed tree whose [node_count] is the number of
    its nodes (as a 32-bit counter). *)
Theorem X18_create_then_operate
    (ExInitializeLookasideListEx : Z -> NTSTATUS * @LOOKASIDE_LIST_EX Obj)
    cmp (key_of : Obj -> K) (ltk : K -> K -> Prop) (ObjectSize : Z)
    (Tree : @RB_TREE K Obj) ops :
  comparator_ok cmp key_of ltk ->
  root Tree = None -> ObjectSize <> 0 ->
  NT_SUCCESS (ExInitializeLookasideListEx (ObjectSize + sizeof_RB_TREE_NODE)).1 = true ->
  NoDup (map fst (ExInitializeLookasideListEx (ObjectSize + sizeof_RB_TREE_NODE)).2) ->
  Forall (op_ok key_of) ops ->
  (RtlRbTreeCreate ExInitializeLookasideListEx (Some cmp) ObjectSize Tree).1 = STATUS_SUCCESS
  /\ exists st' T',
      run_ops ops
        (mkState (RtlRbTreeCreate ExInitializeLookasideListEx (Some cmp) ObjectSize Tree).2 ∅)
      = Some (tt, st')
      /\ well_formed cmp key_of ltk st' T'
      /\ node_count (tree st') = Z.of_nat (length (addrs T')) mod 2 ^ 32.
Proof.
  intros Hok Hroot Hsize Hinit Hnd Hops. unfold RtlRbTreeCreate.
  destruct (ObjectSize =? 0) eqn:Ez; [by apply Z.eqb_eq in Ez|]. cbn [ARGUMENT_PRESENT negb orb].
  destruct (ExInitializeLookasideListEx (ObjectSize + sizeof_RB_TREE_NODE)) as [status p].
  simpl in Hinit, Hnd. rewrite Hinit. cbn [negb fst snd]. split; [done|].
  set (st0 := mkState (mkTree (root Tree) (Some cmp) p (object_size Tree) (active Tree) 0 0 0) ∅).
  assert (Inv cmp key_of ltk (length p) st0 Lf) as HI.
  { by apply (Inv_empty cmp key_of ltk st0). }
  destruct (Inv_run_ops cmp key_of ltk Hok _ ops st0 Lf HI Hops) as (st' & T' & E & HI').
  exists st', T'. split; [done|]. split; [by eapply Inv_well_formed|].
  destruct HI' as (_ & _ & _ & _ & _ & Hcnt & _).
  by rewrite Hcnt, addrs_inorder, length_map.
Qed.

End Delete_balance_heap.

(** * Instances *)

Lemma scenario_A_well_formed :
  well_formed Zcompare (fun o : Z => o) Z.lt scenario_A scenario_A_tree.
Proof.
  split_and!.
  - exact scenario_A_tree_of.
  - exact scenario_A_pool_ok.
  - exact scenario_A_compare.
  - reflexivity.
  - exact scenario_A_ascending.
Qed.

Lemma scenario_A_entries a o :
  (a, o) ∈ inorder scenario_A_tree -> o = 10 \/ o = 20 \/ o = 30.
Proof.
  simpl. rewrite !elem_of_cons, elem_of_nil. intros [?|[?|[?|Hf]]]; [..|destruct Hf]; simplify_eq; auto.
Qed.

Lemma scenario_A_no_25 a o : (a, o) ∈ inorder scenario_A_tree -> o <> 25.
Proof. intros [-> | [-> | ->]]%scenario_A_entries; done. Qed.

Lemma scenario_A_pool : pool (tree scenario_A) = [(4%positive, blank)].
Proof. vm_compute. reflexivity. Qed.

Lemma scenario_A_pool_nonempty : pool (tree scenario_A) <> [].
Proof. by rewrite scenario_A_pool. Qed.

Lemma scenario_B_tree_of : tree_of scenario_B scenario_B_tree.
Proof.
  split; [split_and!|].
  - vm_compute. reflexivity.
  - apply (bool_decide_unpack _). vm_compute. exact I.
  - simpl. split_and!; try exact I; vm_compute; reflexivity.
  - vm_compute. reflexivity.
Qed.

Lemma scenario_B_pool_ok : pool_ok scenario_B.
Proof.
  split.
  - apply (bool_decide_unpack _). vm_compute. exact I.
  - apply Forall_forall. vm_compute pool. intros b Hb.
    apply list_elem_of_singleton in Hb. subst b. vm_compute. reflexivity.
Qed.

Lemma scenario_B_compare : compare (tree scenario_B) = Some Zcompare.
Proof. vm_compute. reflexivity. Qed.

Lemma scenario_B_red_black : red_black scenario_B_tree.
Proof. split_and!; [reflexivity|simpl; intuition congruence|by eexists]. Qed.

Lemma X1_witness :
  exists st',
    RtlpRbTreeRotateLeft (Some 2%positive) scenario_A = Some (tt, st')
    /\ holds st' (Nd red (Nd black (Nd red Lf 1%positive 10 Lf) 2%positive 20 Lf)
                    3%positive 30 Lf)
    /\ inorder (Nd red (Nd black (Nd red Lf 1%positive 10 Lf) 2%positive 20 Lf)
                  3%positive 30 Lf)
       = inorder scenario_A_tree
    /\ same_frame scenario_A st'.
Proof.
  exact (X1_rotate_left scenario_A black (Nd red Lf 1%positive 10 Lf) 2%positive 20
           red Lf Lf 3%positive 30 [] (proj1 scenario_A_tree_of)).
Defined.

Lemma X2_witness :
  exists st',
    RtlpRbTreeRotateRight (Some 2%positive) scenario_A = Some (tt, st')
    /\ holds st' (Nd red Lf 1%positive 10
                    (Nd black Lf 2%positive 20 (Nd red Lf 3%positive 30 Lf)))
    /\ inorder (Nd red Lf 1%positive 10
                  (Nd black Lf 2%positive 20 (Nd red Lf 3%positive 30 Lf)))
       = inorder scenario_A_tree
    /\ same_frame scenario_A st'.
Proof.
  exact (X2_rotate_right scenario_A black Lf Lf 2%positive 20 red
           (Nd red Lf 3%positive 30 Lf) 1%positive 10 [] (proj1 scenario_A_tree_of)).
Defined.

Lemma X3_witness :
  bind (RtlpRbTreeRotateLeft (Some 2%positive))
    (fun _ => RtlpRbTreeRotateRight (Some 3%positive)) scenario_A
  = Some (tt, scenario_A)
  /\ exists st1,
      RtlpRbTreeRotateLeft (Some 2%positive) scenario_A = Some (tt, st1)
      /\ bind (RtlpRbTreeRotateRight (Some 3%positive))
           (fun _ => RtlpRbTreeRotateLeft (Some 2%positive)) st1
         = Some (tt, st1).
Proof.
  exact (X3_rotations_are_inverse scenario_A black (Nd red Lf 1%positive 10 Lf) 2%positive 20
           red Lf Lf 3%positive 30 [] scenario_A_tree_of).
Defined.

Lemma X4_witness :
  exists a o rest,
    RtlpRbTreeMinimum (ptr_of scenario_A_tree) scenario_A = Some (Some a, scenario_A)
    /\ inorder scenario_A_tree = (a, o) :: rest
    /\ Forall (fun e => o < e.2) rest.
Proof.
  apply (X4_minimum_is_first_in_order (fun o : Z => o) Z.lt scenario_A scenario_A_tree []).
  - exact (proj1 scenario_A_tree_of).
  - discriminate.
  - exact scenario_A_ascending.
Defined.

Lemma X5_witness :
  exists st' T',
    RtlpRbTreeFixupInsert (Some 3%positive) scenario_A = Some (tt, st')
    /\ holds st' T'
    /\ inorder T' = inorder scenario_A_tree
    /\ root_black T'
    /\ same_frame scenario_A st'.
Proof.
  apply (X5_fixup_insert_safe scenario_A red Lf 3%positive 30 Lf
           [RF black (Nd red Lf 1%positive 10 Lf) 2%positive 20]).
  - exact (proj1 scenario_A_tree_of).
  - reflexivity.
Defined.

Lemma X6_witness :
  exists st' T',
    RtlpRbTreeFixupDelete (Some 3%positive) scenario_A = Some (tt, st')
    /\ holds st' T'
    /\ inorder T' = inorder scenario_A_tree
    /\ root_black T'
    /\ same_frame scenario_A st'
    /\ (red = red \/ [RF black (Nd red Lf 1%positive 10 Lf) 2%positive 20] = [] ->
        T' = Nd black (Nd red Lf 1%positive 10 Lf) 2%positive 20
               (Nd black Lf 3%positive 30 Lf)).
Proof.
  apply (X6_fixup_delete_safe scenario_A red Lf 3%positive 30 Lf
           [RF black (Nd red Lf 1%positive 10 Lf) 2%positive 20]).
  - exact (proj1 scenario_A_tree_of).
  - reflexivity.
Defined.

Lemma X7_witness :
  exists st' (blocks : list (addr * @RB_TREE_NODE Z)),
    RtlRbTreeDeleteTree (fun _ => []) scenario_A = Some (tt, st')
    /\ mem st' = ∅
    /\ pool (tree st') = []
    /\ map fst blocks ≡ₚ addrs scenario_A_tree
    /\ active (tree st') = 0
    /\ root (tree st') = Some 2%positive
    /\ compare (tree st') = compare (tree scenario_A)
    /\ node_count (tree st') = node_count (tree scenario_A)
    /\ insertion_count (tree st') = insertion_count (tree scenario_A)
    /\ deletion_count (tree st') = deletion_count (tree scenario_A).
Proof.
  exact (X7_delete_tree_frees_every_node (fun _ => []) scenario_A scenario_A_tree
           scenario_A_tree_of).
Defined.

Lemma X8_witness :
  exists st' a,
    run_op (OpInsert 25 25) scenario_A = Some (tt, st')
    /\ RtlRbTreeFindNodeObject 25 st' = Some (Some a, st')
    /\ object <$> (mem st' !! a) = Some 25.
Proof.
  apply (X8_insert_then_find Zcompare (fun o : Z => o) Z.lt Zcompare_ok
           scenario_A scenario_A_tree 25 25).
  - exact scenario_A_well_formed.
  - reflexivity.
  - exact scenario_A_pool_nonempty.
Defined.

Lemma X9_witness :
  exists st' T' X Y,
    RtlRbTreeInsertNode 25 scenario_A = Some (Some 4%positive, st')
    /\ tree_of st' T' /\ pool_ok st' /\ root_black T'
    /\ inorder scenario_A_tree = X ++ Y
    /\ inorder T' = X ++ (4%positive, object blank) :: Y
    /\ below (fun o : Z => o) Z.lt 25 X /\ above (fun o : Z => o) Z.lt 25 Y
    /\ pool (tree st') = []
    /\ node_count (tree st') = InterlockedIncrement (node_count (tree scenario_A))
    /\ insertion_count (tree st') = InterlockedIncrement (insertion_count (tree scenario_A))
    /\ deletion_count (tree st') = deletion_count (tree scenario_A).
Proof.
  apply (X9_insert_new_key Zcompare (fun o : Z => o) Z.lt Zcompare_ok
           scenario_A scenario_A_tree 25 4%positive blank []).
  - exact scenario_A_well_formed.
  - exact scenario_A_pool.
  - exact scenario_A_no_25.
Defined.

Lemma X10_witness : RtlRbTreeDeleteNode 25 scenario_A = Some (tt, scenario_A).
Proof.
  apply (X10_delete_missing_key Zcompare scenario_A scenario_A_tree 25).
  - exact (proj1 scenario_A_tree_of).
  - exact scenario_A_compare.
  - intros a o [-> | [-> | ->]]%scenario_A_entries; discriminate.
Defined.

Lemma X11_witness :
  exists st' T' X Y blk,
    RtlRbTreeDeleteNode 20 scenario_A = Some (tt, st')
    /\ well_formed Zcompare (fun o : Z => o) Z.lt st' T'
    /\ inorder scenario_A_tree = X ++ (2%positive, 20) :: Y /\ inorder T' = X ++ Y
    /\ pool (tree st') = (2%positive, blk) :: pool (tree scenario_A)
    /\ node_count (tree st') = InterlockedDecrement (node_count (tree scenario_A))
    /\ insertion_count (tree st') = insertion_count (tree scenario_A)
    /\ deletion_count (tree st') = InterlockedIncrement (deletion_count (tree scenario_A)).
Proof.
  apply (X11_delete_stored_key Zcompare (fun o : Z => o) Z.lt Zcompare_ok
           scenario_A scenario_A_tree 20 2%positive 20).
  - exact scenario_A_well_formed.
  - simpl. apply list_elem_of_further, list_elem_of_here.
  - reflexivity.
Defined.

Lemma X12_witness :
  exists st',
    RtlRbTreeDeleteNode 20 scenario_A = Some (tt, st')
    /\ RtlRbTreeFindNodeObject 20 st' = Some (None, st').
Proof.
  apply (X12_delete_then_find Zcompare (fun o : Z => o) Z.lt Zcompare_ok
           scenario_A scenario_A_tree 20 2%positive 20).
  - exact scenario_A_well_formed.
  - simpl. apply list_elem_of_further, list_elem_of_here.
  - reflexivity.
Defined.

Lemma X13_witness :
  exists st' res,
    run_op (OpDelete 10) scenario_A = Some (tt, st')
    /\ RtlRbTreeFindNodeObject 20 scenario_A = Some (res, scenario_A)
    /\ RtlRbTreeFindNodeObject 20 st' = Some (res, st')
    /\ (forall a, res = Some a ->
        object <$> (mem st' !! a) = object <$> (mem scenario_A !! a)).
Proof.
  apply (X13_other_keys_unaffected Zcompare (fun o : Z => o) Z.lt Zcompare_ok
           scenario_A scenario_A_tree (OpDelete 10) 20).
  - exact scenario_A_well_formed.
  - exact I.
  - discriminate.
Defined.

Lemma X14_witness :
  exists st' T',
    run_ops [OpInsert 25 25; OpDelete 25] scenario_A = Some (tt, st')
    /\ well_formed Zcompare (fun o : Z => o) Z.lt st' T'
    /\ inorder T' = inorder scenario_A_tree
    /\ map fst (pool (tree st')) = map fst (pool (tree scenario_A))
    /\ node_count (tree st') = node_count (tree scenario_A) mod 2 ^ 32
    /\ insertion_count (tree st') = InterlockedIncrement (insertion_count (tree scenario_A))
    /\ deletion_count (tree st') = InterlockedIncrement (deletion_count (tree scenario_A)).
Proof.
  apply (X14_insert_then_delete Zcompare (fun o : Z => o) Z.lt Zcompare_ok
           scenario_A scenario_A_tree 25 25).
  - exact scenario_A_well_formed.
  - reflexivity.
  - exact scenario_A_pool_nonempty.
  - exact scenario_A_no_25.
Defined.

Lemma X15_witness :
  exists st' T',
    run_ops [OpDelete 10; OpInsert 5 5; OpInsert 30 30] scenario_A = Some (tt, st')
    /\ well_formed Zcompare (fun o : Z => o) Z.lt st' T'
    /\ addrs T' ++ map fst (pool (tree st'))
       ≡ₚ addrs scenario_A_tree ++ map fst (pool (tree scenario_A)).
Proof.
  apply (X15_sequences_keep_well_formed Zcompare (fun o : Z => o) Z.lt Zcompare_ok
           scenario_A scenario_A_tree).
  - exact scenario_A_well_formed.
  - repeat constructor.
Defined.

Lemma X16_witness :
  exists st' T',
    RtlRbTreeDeleteNode 10 scenario_A = Some (tt, st')
    /\ tree_of st' T' /\ red_black T'.
Proof.
  apply (X16_delete_keeps_red_black scenario_A scenario_A_tree Zcompare 10
           [LF black 2%positive 20 (Nd red Lf 3%positive 30 Lf)]
           red Lf 1%positive 10 Lf).
  - exact scenario_A_tree_of.
  - exact scenario_A_pool_ok.
  - exact scenario_A_compare.
  - exact scenario_A_red_black.
  - reflexivity.
  - simpl. intros [? _]. discriminate.
Defined.

Lemma X17_witness :
  exists st' T',
    RtlRbTreeDeleteNode 10 scenario_B = Some (tt, st')
    /\ tree_of st' T' /\ root_black T' /\ no_red_red T' /\ bheight T' = None.
Proof.
  apply (X17_delete_black_leaf_unbalances scenario_B scenario_B_tree Zcompare 10
           [LF black 2%positive 20 (Nd black Lf 3%positive 30 (Nd red Lf 4%positive 40 Lf))]
           black Lf 1%positive 10 Lf).
  - exact scenario_B_tree_of.
  - exact scenario_B_pool_ok.
  - exact scenario_B_compare.
  - exact scenario_B_red_black.
  - reflexivity.
  - reflexivity.
  - reflexivity.
  - discriminate.
Defined.

Lemma X18_witness :
  (RtlRbTreeCreate (fun _ => (STATUS_SUCCESS, [(1%positive, blank); (2%positive, blank)]))
     (Some Zcompare) 8 (mkTree None None [] 0 0 7 7 7)).1 = STATUS_SUCCESS
  /\ exists st' T',
      run_ops [OpInsert 10 10; OpInsert 5 5; OpDelete 10]
        (mkState
           (RtlRbTreeCreate
              (fun _ => (STATUS_SUCCESS, [(1%positive, blank); (2%positive, blank)]))
              (Some Zcompare) 8 (mkTree None None [] 0 0 7 7 7)).2 ∅)
      = Some (tt, st')
      /\ well_formed Zcompare (fun o : Z => o) Z.lt st' T'
      /\ node_count (tree st') = Z.of_nat (length (addrs T')) mod 2 ^ 32.
Proof.
  apply (X18_create_then_operate
           (fun _ => (STATUS_SUCCESS, [(1%positive, blank); (2%positive, blank)]))
           Zcompare (fun o : Z => o) Z.lt 8 (mkTree None None [] 0 0 7 7 7)).
  - exact Zcompare_ok.
  - reflexivity.
  - discriminate.
  - reflexivity.
  - apply (bool_decide_unpack _). vm_compute. exact I.
  - repeat constructor.
Defined.

(** * The counters *)

Section Counters.
Context {K Obj : Type}.
Context (cmp : @RB_COMPARE K Obj) (key_of : Obj -> K) (ltk : K -> K -> Prop).
Hypothesis Hok : comparator_ok cmp key_of ltk.
Implicit Types (st : @State K Obj) (T : rbt Obj).

Lemma balance_step (n i d n' i' d' : Z) :
  (n' = n /\ i' = i /\ d' = d)
  \/ (n' = InterlockedIncrement n /\ i' = InterlockedIncrement i /\ d' = d)
  \/ (n' = InterlockedDecrement n /\ i' = i /\ d' = InterlockedIncrement d) ->
  (n' - i' + d') mod 2 ^ 32 = (n - i + d) mod 2 ^ 32.
Proof.
  unfold InterlockedIncrement, InterlockedDecrement.
  intros [(-> & -> & ->)|[(-> & -> & ->)|(-> & -> & ->)]]; [done|..];
    Z.div_mod_to_equations; lia.
Qed.

Lemma run_op_balance st T op :
  well_formed cmp key_of ltk st T -> op_ok key_of op ->
  exists st' T',
    run_op op st = Some (tt, st')
    /\ well_formed cmp key_of ltk st' T'
    /\ balance (tree st') = balance (tree st).
Proof using Hok.
  intros Hwf Hop. pose proof Hwf as (_ & _ & _ & _ & Hasc).
  destruct op as [key rec|key]; simpl in Hop.
  - destruct (pool (tree st)) as [|[n blk] rest] eqn:Ep.
    { exists st, T. split; [exact (run_insert_exhausted cmp key_of ltk st T key rec Hwf Ep)|].
      done. }
    destruct (absent_or_present cmp key_of ltk Hok T key Hasc) as [Habs|(a & o & Hin & Ho)].
    + destruct (run_insert_new cmp key_of ltk Hok st T key rec n blk rest Hwf Hop Ep Habs)
        as (st' & T' & X & Y & E & Hwf' & _ & _ & _ & _ & Hn & Hi & Hd).
      exists st', T'. split; [done|]. split; [done|]. apply balance_step. auto.
    + destruct (run_insert_dup cmp key_of ltk Hok st T key rec a o n blk rest
                  Hwf Hop Ep Hin Ho)
        as (st' & T' & X & Y & E & Hwf' & _ & _ & _ & Hn & Hi & Hd).
      exists st', T'. split; [done|]. split; [done|]. apply balance_step. auto.
  - destruct (absent_or_present cmp key_of ltk Hok T key Hasc) as [Habs|(a & o & Hin & Ho)].
    { exists st, T. split; [exact (delete_absent cmp key_of ltk Hok st T key Hwf Habs)|].
      done. }
    destruct (Delete_effect cmp key_of ltk Hok st T key a o Hwf Hin Ho)
      as (st' & T' & X & Y & blk & c & l & r & k & E & Hwf' & _ & _ & _ & _ & _ & Hn & Hi & Hd).
    exists st', T'. split; [done|]. split; [done|]. apply balance_step. auto.
Qed.

Lemma run_ops_balance ops : forall st T,
  well_formed cmp key_of ltk st T -> Forall (op_ok key_of) ops ->
  exists st' T',
    run_ops ops st = Some (tt, st')
    /\ well_formed cmp key_of ltk st' T'
    /\ balance (tree st') = balance (tree st).
Proof using Hok.
  induction ops as [|op ops IH]; intros st T Hwf Hops.
  { by exists st, T. }
  apply Forall_cons in Hops as [Hop Hops].
  destruct (run_op_balance st T op Hwf Hop) as (st1 & T1 & E1 & Hwf1 & HB1).
  destruct (IH st1 T1 Hwf1 Hops) as (st2 & T2 & E2 & Hwf2 & HB2).
  exists st2, T2. split; [|split; [done|congruence]].
  cbn [run_ops]. by rewrite (bind_Some _ _ _ _ _ E1).
Qed.

(** X19. The statistics stay in step.  Over every sequence of operations
    on a well-formed tree the three counters move together: [node_count]
    less [insertion_count] plus [deletion_count], as a 32-bit quantity, is
    what it was before.  On a tree whose counters start at zero,
    [node_count] is therefore [insertion_count] less [deletion_count]. *)
Theorem X19_counters_stay_in_step st T ops :
  well_formed cmp key_of ltk st T -> Forall (op_ok key_of) ops ->
  exists st',
    run_ops ops st = Some (tt, st')
    /\ (node_count (tree st') - insertion_count (tree st') + deletion_count (tree st'))
         mod 2 ^ 32
       = (node_count (tree st) - insertion_count (tree st) + deletion_count (tree st))
           mod 2 ^ 32.
Proof using Hok.
  intros Hwf Hops.
  destruct (run_ops_balance ops st T Hwf Hops) as (st' & T' & E & _ & HB).
  by exists st'.
Qed.

End Counters.

Lemma X19_witness :
  exists st',
    run_ops [OpDelete 10; OpInsert 5 5; OpInsert 30 30; OpDelete 7] scenario_A
    = Some (tt, st')
    /\ (node_count (tree st') - insertion_count (tree st') + deletion_count (tree st'))
         mod 2 ^ 32
       = (node_count (tree scenario_A) - insertion_count (tree scenario_A)
          + deletion_count (tree scenario_A)) mod 2 ^ 32.
Proof.
  apply (X19_counters_stay_in_step Zcompare (fun o : Z => o) Z.lt Zcompare_ok
           scenario_A scenario_A_tree).
  - exact scenario_A_well_formed.
  - repeat constructor.
Defined.
